(** * TDataFrame: a shallow embedding of tree/treeplayer/inc/ROOT/TDataFrame.hxx

    The development follows the header: the lazy result proxy
    ([TActionResultProxy]), the chain-building interface
    ([TDataFrameInterface]), the graph nodes ([TDataFrameFilter],
    [TDataFrameBranch], [TDataFrameAction]) and the engine
    ([TDataFrameImpl]).

    Conventions of the embedding.
    - The branch type parameters of the templates are instantiated at
      [double]; doubles are IEEE binary64 (primitive floats).
    - A node of the graph holds a reference [fPrevData] to the node it was
      built on. The nesting of the C++ types
      [TDataFrameFilter<F, PrevDataFrame>] is kept: a node is a value of the
      inductive type [Node] that contains its upstream chain. The mutable
      members of a node live in a store keyed by the identity of the node
      (a number for a filter, the branch name for a temporary branch), so
      that two chains through the same node share its state.
    - [std::vector] members indexed by slot are lists; an access out of range
      is undefined behaviour in C++ and yields [None] here.
    - Every user callable leaves an event in a trace, which is ghost state:
      it is what the theorems count. *)

From Stdlib Require Import ZArith NArith List Bool Lia Floats.PrimFloat Ascii.
From stdpp Require Import base option list gmap strings.

Local Open Scope Z_scope.

(** ** Basic types *)

Abbreviation BranchNames := (list string).
Definition Long64_t := Z.
Definition double := float.

(** std::numeric_limits<double>::max(), ::min() and ::lowest().  [min()] is
    the smallest positive normal double. *)
Definition numeric_limits_max : double := 0x1.fffffffffffffp+1023%float.
Definition numeric_limits_min : double := 0x1p-1022%float.
Definition numeric_limits_lowest : double := (- 0x1.fffffffffffffp+1023)%float.

(** std::min and std::max on doubles: [std::max(a, b)] is [(a < b) ? b : a],
    [std::min(a, b)] is [(b < a) ? b : a]. *)
Definition std_max (a b : double) : double := if PrimFloat.ltb a b then b else a.
Definition std_min (a b : double) : double := if PrimFloat.ltb b a then b else a.

(** ULong64_t and unsigned int arithmetic wraps around. *)
Definition ULong64_incr (n : N) : N := ((n + 1) mod 2 ^ 64)%N.
Definition UInt_incr (n : N) : N := ((n + 1) mod 2 ^ 32)%N.

(** The exceptions of the header, all [std::runtime_error]s, by the text they
    carry. *)
Inductive TDFError :=
| EngineGone
    (* "The main TDataFrame is not reachable: did it go out of scope?" *)
| InsufficientDefaults (dBSize nExpectedBranches : nat)
    (* "Trying to deduce the branches from the default list ..." *)
| HistogramNeedsAxisLimits
    (* "2D histograms with no axes limits are not supported yet." *)
| DuplicateDerivedName (name : string)
    (* thrown by CheckTmpBranch: the name is already in use *).

Inductive Result (A : Type) :=
| Ok (a : A)
| Throw (e : TDFError).
Arguments Ok {A} a.
Arguments Throw {A} e.

Definition Result_bind {A B} (m : Result A) (k : A -> Result B) : Result B :=
  match m with
  | Ok a => k a
  | Throw e => Throw e
  end.

Notation "'try' x <- m ; k" := (Result_bind m (fun x => k))
  (at level 10, x pattern, m at level 100, k at level 200).

(** ** Graph nodes *)

(** The objects a [TDataFrameInterface<Proxied>] can point to.  [fFilter] and
    [fExpression] receive the values of the node's [fBranches], in order. *)
Inductive Node :=
| TDataFrameImplNode
| TDataFrameFilter (id : nat) (fFilter : list double -> bool)
    (fBranches : BranchNames) (fName : string) (fPrevData : Node)
| TDataFrameBranch (fName : string) (fExpression : list double -> double)
    (fBranches : BranchNames) (fPrevData : Node).

(** GetTmpBranches: none for the engine, the upstream ones for a filter, and
    the upstream ones followed by its own name for a temporary branch (the
    constructor of TDataFrameBranch does [fTmpBranches.emplace_back(name)]). *)
Fixpoint GetTmpBranches (n : Node) : BranchNames :=
  match n with
  | TDataFrameImplNode => []
  | TDataFrameFilter _ _ _ _ pd => GetTmpBranches pd
  | TDataFrameBranch name _ _ pd => GetTmpBranches pd ++ [name]
  end.

(** The filters upstream of a node, itself included, nearest first. *)
Fixpoint filter_ids (n : Node) : list nat :=
  match n with
  | TDataFrameImplNode => []
  | TDataFrameFilter id _ _ _ pd => id :: filter_ids pd
  | TDataFrameBranch _ _ _ pd => filter_ids pd
  end.

(** ** Per-slot state of the nodes *)

(** The mutable members of TDataFrameFilterBase.  [fLastResult] is a
    [std::vector<int>]. *)
Record FilterSlots := mkFilterSlots {
  fLastCheckedEntry : list Long64_t;
  fLastResult : list Z;
  fAccepted : list N;
  fRejected : list N
}.

(** The members a filter is constructed with: one element each. *)
Definition FilterSlots_init : FilterSlots :=
  mkFilterSlots [-1] [1] [0%N] [0%N].

(** The mutable members of TDataFrameBranch.  [fLastResultPtr] holds shared
    pointers: an address of the heap of computed values, or null. *)
Record BranchSlots := mkBranchSlots {
  bLastCheckedEntry : list Long64_t;
  fLastResultPtr : list (option nat)
}.

Definition BranchSlots_init : BranchSlots := mkBranchSlots [-1] [].

(** What the user callables and the column readers did, most recent first. *)
Inductive Event :=
| EvReadColumn (branch : string) (slot : nat) (entry : Long64_t)
| EvFilter (id : nat) (slot : nat) (entry : Long64_t) (passed : bool)
| EvExpression (name : string) (slot : nat) (entry : Long64_t)
| EvAction (action : nat) (slot : nat) (entry : Long64_t).

(** The values an operation accumulates and publishes. *)
Inductive Value :=
| VVoid
| VUInt (n : N)
| VDouble (d : double)
| VMean (sum : double) (count : N)
| VColl (l : list double)
| VHisto (fills : list (list double)).

(** The state the event loop works on. *)
Record RunState := mkRunState {
  filterSlots : gmap nat FilterSlots;
  branchSlots : gmap string BranchSlots;
  opSlots : list (list Value);
  heap : list double;
  trace : list Event
}.

Definition set_filterSlots (f : gmap nat FilterSlots -> gmap nat FilterSlots)
    (rs : RunState) : RunState :=
  mkRunState (f (filterSlots rs)) (branchSlots rs) (opSlots rs) (heap rs) (trace rs).
Definition set_branchSlots (f : gmap string BranchSlots -> gmap string BranchSlots)
    (rs : RunState) : RunState :=
  mkRunState (filterSlots rs) (f (branchSlots rs)) (opSlots rs) (heap rs) (trace rs).
Definition set_opSlots (f : list (list Value) -> list (list Value))
    (rs : RunState) : RunState :=
  mkRunState (filterSlots rs) (branchSlots rs) (f (opSlots rs)) (heap rs) (trace rs).
Definition set_heap (f : list double -> list double) (rs : RunState) : RunState :=
  mkRunState (filterSlots rs) (branchSlots rs) (opSlots rs) (f (heap rs)) (trace rs).
Definition log (e : Event) (rs : RunState) : RunState :=
  mkRunState (filterSlots rs) (branchSlots rs) (opSlots rs) (heap rs) (e :: trace rs).

(** [v[i] = x] on a std::vector: defined only within range. *)
Definition vector_set {A} (v : list A) (i : nat) (x : A) : option (list A) :=
  if decide (i < length v)%nat then Some (<[i := x]> v) else None.

(** ** Reading the values of the branches *)

(** The input tree, as the readers see it: the value of a branch at an entry. *)
Definition TTree := string -> Long64_t -> double.

(** How a node obtains the value of a temporary branch: the address of the
    cached value and the new state. *)
Definition TmpResolver :=
  string -> nat -> Long64_t -> RunState -> option (nat * RunState).

(** A pack expansion [f(g(S)...)]: the arguments are evaluated one after the
    other (C++ leaves the order open; left to right here). *)
Fixpoint expand_pack {A B} (g : A -> RunState -> option (B * RunState))
    (l : list A) (rs : RunState) : option (list B * RunState) :=
  match l with
  | [] => Some ([], rs)
  | a :: l' =>
      '(b, rs1) ← g a rs;
      '(bs, rs2) ← expand_pack g l' rs1;
      Some (b :: bs, rs2)
  end.

(** BuildReaderValues: the reader of a branch is null exactly when the branch
    is one of the temporary branches visible at the node. *)
Definition isTmpBranch (tmpbl : BranchNames) (branch : string) : bool :=
  bool_decide (branch ∈ tmpbl).

(** GetBranchValue (scalar overload): a null reader means a temporary branch,
    whose value is fetched through the engine and dereferenced; otherwise
    the reader of the tree is dereferenced. *)
Definition GetBranchValue (tree : TTree) (resolve : TmpResolver)
    (tmpbl : BranchNames) (slot : nat) (entry : Long64_t) (branch : string)
    (rs : RunState) : option (double * RunState) :=
  if isTmpBranch tmpbl branch then
    '(p, rs1) ← resolve branch slot entry rs;
    v ← heap rs1 !! p;
    Some (v, rs1)
  else Some (tree branch entry, log (EvReadColumn branch slot entry) rs).

(** TDataFrameBranch::GetValue, with GetValueHelper inlined: on a new entry
    the expression is evaluated on the values of [fBranches], the result is
    put in a fresh shared object and the pointer and the entry are stored for
    the slot; the pointer stored for the slot is returned. *)
Definition GetValue (tree : TTree) (resolve : TmpResolver)
    (fName : string) (fExpression : list double -> double)
    (fBranches fTmpBranches : BranchNames)
    (slot : nat) (entry : Long64_t) (rs : RunState) : option (nat * RunState) :=
  bs ← branchSlots rs !! fName;
  last ← bLastCheckedEntry bs !! slot;
  if decide (entry ≠ last) then
    '(vals, rs1) ← expand_pack
                     (GetBranchValue tree resolve fTmpBranches slot entry) fBranches rs;
    let newValuePtr := length (heap rs1) in
    let rs2 := log (EvExpression fName slot entry)
                 (set_heap (λ h, h ++ [fExpression vals]) rs1) in
    bs2 ← branchSlots rs2 !! fName;
    ptrs ← vector_set (fLastResultPtr bs2) slot (Some newValuePtr);
    lasts ← vector_set (bLastCheckedEntry bs2) slot entry;
    Some (newValuePtr,
          set_branchSlots <[fName := mkBranchSlots lasts ptrs]> rs2)
  else
    ptr ← fLastResultPtr bs !! slot;
    p ← ptr;
    Some (p, rs).

(** Modelled from the spec: TDataFrameImpl::GetTmpBranchValue is only declared
    in the header.  Section 4.4: a name that is a derived column visible at
    the node is delegated to that column, which hands out its cached value.
    The column is looked up among the temporary branches upstream of the
    node; there is no result when none has the name (this covers a temporary
    branch that lists its own name among its inputs, a recursion that never
    ends in the C++). *)
Fixpoint GetTmpBranchValue (tree : TTree) (n : Node) : TmpResolver :=
  λ branch slot entry rs,
  match n with
  | TDataFrameImplNode => None
  | TDataFrameFilter _ _ _ _ pd => GetTmpBranchValue tree pd branch slot entry rs
  | TDataFrameBranch name e bl pd =>
      if decide (branch = name) then
        GetValue tree (GetTmpBranchValue tree pd) name e bl
          (GetTmpBranches pd ++ [name]) slot entry rs
      else GetTmpBranchValue tree pd branch slot entry rs
  end.

(** ** Filters *)

(** The conversion of a bool stored in an int. *)
Definition int_of_bool (b : bool) : Z := if b then 1 else 0.

(** The assignments of TDataFrameFilter::CheckFilters to the members of the
    filter [id] at [slot]. *)
Definition set_LastResult (id slot : nat) (r : Z) (rs : RunState) : option RunState :=
  fs ← filterSlots rs !! id;
  v ← vector_set (fLastResult fs) slot r;
  Some (set_filterSlots
          <[id := mkFilterSlots (fLastCheckedEntry fs) v (fAccepted fs) (fRejected fs)]> rs).

Definition set_LastCheckedEntry (id slot : nat) (e : Long64_t) (rs : RunState)
    : option RunState :=
  fs ← filterSlots rs !! id;
  v ← vector_set (fLastCheckedEntry fs) slot e;
  Some (set_filterSlots
          <[id := mkFilterSlots v (fLastResult fs) (fAccepted fs) (fRejected fs)]> rs).

(** [passed ? ++fAccepted[slot] : ++fRejected[slot]] *)
Definition count_passed (id slot : nat) (passed : bool) (rs : RunState) : option RunState :=
  fs ← filterSlots rs !! id;
  if passed then
    a ← fAccepted fs !! slot;
    v ← vector_set (fAccepted fs) slot (ULong64_incr a);
    Some (set_filterSlots
            <[id := mkFilterSlots (fLastCheckedEntry fs) (fLastResult fs) v (fRejected fs)]> rs)
  else
    r ← fRejected fs !! slot;
    v ← vector_set (fRejected fs) slot (ULong64_incr r);
    Some (set_filterSlots
            <[id := mkFilterSlots (fLastCheckedEntry fs) (fLastResult fs) (fAccepted fs) v]> rs).

(** CheckFilterHelper: the filter function applied to the values of
    [fBranches]; the call is recorded. *)
Definition CheckFilterHelper (tree : TTree) (resolve : TmpResolver)
    (id : nat) (fFilter : list double -> bool) (fBranches fTmpBranches : BranchNames)
    (slot : nat) (entry : Long64_t) (rs : RunState) : option (bool * RunState) :=
  '(vals, rs1) ← expand_pack
                   (GetBranchValue tree resolve fTmpBranches slot entry) fBranches rs;
  let passed := fFilter vals in
  Some (passed, log (EvFilter id slot entry passed) rs1).

(** CheckFilters of the three kinds of node.  The engine ends the recursion
    (every entry passes), a temporary branch forwards to the previous node,
    and a filter is TDataFrameFilter::CheckFilters. *)
Fixpoint CheckFilters (tree : TTree) (n : Node) (slot : nat) (entry : Long64_t)
    (rs : RunState) : option (bool * RunState) :=
  match n with
  | TDataFrameImplNode => Some (true, rs)
  | TDataFrameBranch _ _ _ pd => CheckFilters tree pd slot entry rs
  | TDataFrameFilter id f bl _ pd =>
      fs ← filterSlots rs !! id;
      last ← fLastCheckedEntry fs !! slot;
      rs' ← (if decide (entry ≠ last) then
               '(up, rs1) ← CheckFilters tree pd slot entry rs;
               rs3 ← (if negb up then set_LastResult id slot 0 rs1
                      else
                        '(passed, rs2) ← CheckFilterHelper tree
                                           (GetTmpBranchValue tree pd) id f bl
                                           (GetTmpBranches pd) slot entry rs1;
                        rs2' ← count_passed id slot passed rs2;
                        set_LastResult id slot (int_of_bool passed) rs2');
               set_LastCheckedEntry id slot entry rs3
             else Some rs);
      fs' ← filterSlots rs' !! id;
      r ← fLastResult fs' !! slot;
      Some (negb (r =? 0), rs')
  end.

(** ** Actions and their operations *)

(** The operations behind the actions.  The header only names them
    (ROOT::Internal::Operations, in TDFOperations.hxx); what they do is taken
    from the table of section 4.5 of the specification. *)
Inductive Operation :=
| ForeachOperation
| CountOperation
| ReduceOperation (f : double -> double -> double)
| TakeOperation
| MinOperation
| MaxOperation
| MeanOperation
| FillOperation
| FillTOOperation.

(** Modelled from the spec: the per-slot partial an operation starts from
    (Operations constructors, not in the sources).  [r] is the value of the
    result object handed to the operation at booking: a reduction is seeded with it
    (init), and so are the running minimum and maximum; a counter starts at
    0, the mean at (0, 0), a collection and a histogram buffer empty. *)
Definition Operation_init (op : Operation) (r : Value) : Value :=
  match op with
  | ForeachOperation => VVoid
  | CountOperation => VUInt 0%N
  | ReduceOperation _ | MinOperation | MaxOperation => r
  | TakeOperation => VColl []
  | MeanOperation => VMean 0%float 0%N
  | FillOperation | FillTOOperation => VHisto []
  end.

(** Modelled from the spec: Exec of the operations (not in the sources), on
    the partial of one slot.  Count adds one; Reduce folds the value in; Take
    appends; Min and Max keep the running minimum and maximum; Mean adds to
    the sum and the count; the histogram operations record the fill.  A partial
    of the wrong shape, which the C++ types exclude, is left as it is. *)
Definition Operation_Exec (op : Operation) (vals : list double) (partial : Value) : Value :=
  match op, vals, partial with
  | CountOperation, _, VUInt n => VUInt (UInt_incr n)
  | ReduceOperation f, v :: _, VDouble a => VDouble (f a v)
  | TakeOperation, v :: _, VColl l => VColl (l ++ [v])
  | MinOperation, v :: _, VDouble m => VDouble (std_min v m)
  | MaxOperation, v :: _, VDouble m => VDouble (std_max v m)
  | MeanOperation, v :: _, VMean s n => VMean (s + v)%float (n + 1)%N
  | (FillOperation | FillTOOperation), _, VHisto fills => VHisto (fills ++ [vals])
  | _, _, _ => partial
  end.

(** Modelled from the spec: the merge rules of section 4.5, folding the
    per-slot partials, in slot order, starting from the value [r] the result
    object was created with: sum, fold with f, concatenation, min, max,
    histogram Add. *)
Definition Operation_merge1 (op : Operation) (r partial : Value) : Value :=
  match op, r, partial with
  | CountOperation, VUInt a, VUInt n => VUInt ((a + n) mod 2 ^ 32)%N
  | ReduceOperation f, VDouble a, VDouble p => VDouble (f a p)
  | TakeOperation, VColl a, VColl l => VColl (a ++ l)
  | MinOperation, VDouble a, VDouble m => VDouble (std_min m a)
  | MaxOperation, VDouble a, VDouble m => VDouble (std_max m a)
  | MeanOperation, VMean s n, VMean s' n' => VMean (s + s')%float (n + n')%N
  | (FillOperation | FillTOOperation), VHisto a, VHisto fills => VHisto (a ++ fills)
  | _, _, _ => r
  end.

(** The conversion of a count to double (exact below 2^53). *)
Fixpoint double_of_pos (p : positive) : double :=
  match p with
  | xH => 1%float
  | xO q => (2 * double_of_pos q)%float
  | xI q => (2 * double_of_pos q + 1)%float
  end.

Definition double_of_N (n : N) : double :=
  match n with
  | N0 => 0%float
  | Npos p => double_of_pos p
  end.

(** (Σsum)/(Σcount) *)
Definition mean_of (sum : double) (count : N) : double :=
  (sum / double_of_N count)%float.

Definition Operation_merge (op : Operation) (r : Value) (partials : list Value) : Value :=
  match op with
  | MeanOperation =>
      match fold_left (Operation_merge1 op) partials (VMean 0%float 0%N) with
      | VMean s n => VDouble (mean_of s n)
      | _ => r
      end
  | _ => fold_left (Operation_merge1 op) partials r
  end.

(** TDataFrameAction: the callable (an operation, whose Exec the lambda of the
    booking method calls), the branches it reads, the node it hangs from, the
    result object the operation writes to (none for Foreach) and the value
    that object was created with. *)
Record TDataFrameAction := mkAction {
  fAction : Operation;
  aBranches : BranchNames;
  aPrevData : Node;
  aResult : option nat;
  aInit : Value
}.

(** TDataFrameAction::ExecuteAction: the values of the branches are fetched
    and the callable is called with the slot and the values. *)
Definition ExecuteAction (tree : TTree) (idx : nat) (a : TDataFrameAction)
    (slot : nat) (entry : Long64_t) (rs : RunState) : option RunState :=
  '(vals, rs1) ← expand_pack
                   (GetBranchValue tree (GetTmpBranchValue tree (aPrevData a))
                      (GetTmpBranches (aPrevData a)) slot entry)
                   (aBranches a) rs;
  let rs2 := log (EvAction idx slot entry) rs1 in
  partials ← opSlots rs2 !! idx;
  partial ← partials !! slot;
  partials' ← vector_set partials slot (Operation_Exec (fAction a) vals partial);
  Some (set_opSlots <[idx := partials']> rs2).

(** TDataFrameAction::Run: the action is executed if the entry passes all
    the filters upstream. *)
Definition Action_Run (tree : TTree) (idx : nat) (a : TDataFrameAction)
    (slot : nat) (entry : Long64_t) (rs : RunState) : option RunState :=
  '(passed, rs1) ← CheckFilters tree (aPrevData a) slot entry rs;
  if passed : bool then ExecuteAction tree idx a slot entry rs1 else Some rs1.

(** ** The engine *)

(** What the program printed. *)
Inductive Printed :=
| Info (location msg : string)
| FilterStats (name : string) (accepted all : N).

(** TDataFrameImpl.  [fTree] and [fTreeBranches] stand for the tree behind
    [fTreeName]/[fDirPtr]; [fEntries] is the order in which the input provider
    hands the entries to the slots. *)
Record TDataFrameImpl := mkImpl {
  fBookedActions : list TDataFrameAction;
  fBookedFilters : list Node;
  fBookedBranches : gmap string Node;
  fResProxyReadiness : list nat;
  fTree : TTree;
  fTreeBranches : list string;
  fEntries : list (nat * Long64_t);
  fDefaultBranches : BranchNames;
  fNSlots : nat;
  fHasRunAtLeastOnce : bool
}.

(** The program state: the engine while it is in scope ([None] once it is
    destroyed, which is when locking a weak pointer to it fails), the state
    of the nodes, the result objects and the readiness flags (shared objects,
    by address) and the output. *)
Record World := mkWorld {
  engine : option TDataFrameImpl;
  state : RunState;
  results : list Value;
  readiness : list bool;
  output : list Printed
}.

(** The engine goes out of scope. *)
Definition destroy (w : World) : World :=
  mkWorld None (state w) (results w) (readiness w) (output w).

(** A TDataFrame as its constructor leaves it. *)
Definition TDataFrame (tree : TTree) (treeBranches : list string)
    (entries : list (nat * Long64_t)) (defaultBranches : BranchNames) (nSlots : nat)
    : World :=
  mkWorld
    (Some (mkImpl [] [] ∅ [] tree treeBranches entries defaultBranches nSlots false))
    (mkRunState ∅ ∅ [] [] []) [] [] [].

(** Modelled from the spec: CreateSlots of the nodes and of the engine are
    only declared in the header.  Section 3 (lifecycles): the per-slot state
    is allocated immediately before the iteration, for every registered node:
    no entry checked yet (-1), counters at 0, null value pointers, and the
    partial of every operation at its start value. *)
Definition FilterSlots_fresh (nSlots : nat) : FilterSlots :=
  mkFilterSlots (replicate nSlots (-1)) (replicate nSlots 1)
    (replicate nSlots 0%N) (replicate nSlots 0%N).

Definition BranchSlots_fresh (nSlots : nat) : BranchSlots :=
  mkBranchSlots (replicate nSlots (-1)) (replicate nSlots None).

Definition CreateSlots_filter (nSlots : nat) (n : Node)
    (m : gmap nat FilterSlots) : gmap nat FilterSlots :=
  match n with
  | TDataFrameFilter id _ _ _ _ => <[id := FilterSlots_fresh nSlots]> m
  | _ => m
  end.

Definition CreateSlots (df : TDataFrameImpl) (rs : RunState) : RunState :=
  mkRunState
    (foldr (CreateSlots_filter (fNSlots df)) (filterSlots rs) (fBookedFilters df))
    ((λ _, BranchSlots_fresh (fNSlots df)) <$> fBookedBranches df)
    ((λ a, replicate (fNSlots df) (Operation_init (fAction a) (aInit a)))
       <$> fBookedActions df)
    (heap rs) (trace rs).

(** The actions are run on an entry in booking order. *)
Fixpoint RunActions (tree : TTree) (idx : nat) (actions : list TDataFrameAction)
    (slot : nat) (entry : Long64_t) (rs : RunState) : option RunState :=
  match actions with
  | [] => Some rs
  | a :: rest =>
      rs1 ← Action_Run tree idx a slot entry rs;
      RunActions tree (S idx) rest slot entry rs1
  end.

(** The event loop over the entries handed out by the input provider. *)
Fixpoint RunEntries (tree : TTree) (actions : list TDataFrameAction)
    (entries : list (nat * Long64_t)) (rs : RunState) : option RunState :=
  match entries with
  | [] => Some rs
  | (slot, entry) :: rest =>
      rs1 ← RunActions tree 0 actions slot entry rs;
      RunEntries tree actions rest rs1
  end.

(** After the loop every operation merges its partials into its result
    object. *)
Fixpoint merge_results (idx : nat) (actions : list TDataFrameAction)
    (ops : list (list Value)) (results : list Value) : list Value :=
  match actions with
  | [] => results
  | a :: rest =>
      let results' :=
        match aResult a with
        | Some r =>
            <[r := Operation_merge (fAction a) (aInit a) (default [] (ops !! idx))]> results
        | None => results
        end in
      merge_results (S idx) rest ops results'
  end.

Definition set_ready (flags : list nat) (readiness : list bool) : list bool :=
  foldr (λ i r, <[i := true]> r) readiness flags.

(** Modelled from the spec: TDataFrameImpl::Run is only declared in the
    header.  Section 4.1: allocate the per-slot state, iterate the entries
    calling the evaluation entry of each action, merge the partials of every
    action into its aggregate, raise the readiness flags; the engine has then
    run at least once. *)
Definition Run (df : TDataFrameImpl) (w : World) : option World :=
  let rs0 := CreateSlots df (state w) in
  rs ← RunEntries (fTree df) (fBookedActions df) (fEntries df) rs0;
  Some (mkWorld
          (Some (mkImpl (fBookedActions df) (fBookedFilters df) (fBookedBranches df)
                   (fResProxyReadiness df) (fTree df) (fTreeBranches df) (fEntries df)
                   (fDefaultBranches df) (fNSlots df) true))
          rs
          (merge_results 0 (fBookedActions df) (opSlots rs) (results w))
          (set_ready (fResProxyReadiness df) (readiness w))
          (output w)).

(** ** TDataFrameInterface: resolving the branch names *)

Definition with_engine (df : TDataFrameImpl) (w : World) : World :=
  mkWorld (Some df) (state w) (results w) (readiness w) (output w).

(** GetDataFrameChecked: the engine if reachable, an exception otherwise. *)
Definition GetDataFrameChecked (w : World) : Result TDataFrameImpl :=
  match engine w with
  | Some df => Ok df
  | None => Throw EngineGone
  end.

(** GetDefaultBranchNames: the first [nExpectedBranches] default branches, an
    exception when there are fewer. *)
Definition GetDefaultBranchNames (nExpectedBranches : nat) (w : World)
    : Result BranchNames :=
  try df <- GetDataFrameChecked w;
  let defaultBranches := fDefaultBranches df in
  let dBSize := length defaultBranches in
  if decide (dBSize < nExpectedBranches)%nat
  then Throw (InsufficientDefaults dBSize nExpectedBranches)
  else Ok (take nExpectedBranches defaultBranches).

(** [1 + !isT2Void + !isT3Void + !isT4Void] *)
Definition neededBranches (isT2Void isT3Void isT4Void : bool) : nat :=
  (1 + Nat.b2n (negb isT2Void) + Nat.b2n (negb isT3Void) + Nat.b2n (negb isT4Void))%nat.

(** The std::for_each of GetBranchNames: the number of non-empty names. *)
Definition providedBranches (bl : BranchNames) : nat :=
  fold_left (λ n s, if decide (s = "") then n else S n) bl 0%nat.

(** GetBranchNames: the names given if as many non-empty ones are given as
    are needed, the default ones otherwise. *)
Definition GetBranchNames (needed : nat) (bl : BranchNames) (w : World)
    : Result BranchNames :=
  if decide (needed = providedBranches bl) then Ok bl
  else GetDefaultBranchNames needed w.

(** Modelled from the spec: PickBranchNames is only declared in the header.
    Section 4.8: if [bl] has exactly [nArgs] non-empty entries it is used;
    else the default list truncated to [nArgs], and a failure if that list is
    shorter. *)
Definition PickBranchNames (nArgs : nat) (bl defBl : BranchNames) : Result BranchNames :=
  if decide (nArgs = providedBranches bl) then Ok bl
  else if decide (length defBl < nArgs)%nat
       then Throw (InsufficientDefaults (length defBl) nArgs)
       else Ok (take nArgs defBl).

(** ** TDataFrameInterface: transformations *)

(** Book(filter), with the members the filter is constructed with. *)
Definition Book_filter (n : Node) (id : nat) (df : TDataFrameImpl) (w : World) : World :=
  mkWorld
    (Some (mkImpl (fBookedActions df) (fBookedFilters df ++ [n]) (fBookedBranches df)
             (fResProxyReadiness df) (fTree df) (fTreeBranches df) (fEntries df)
             (fDefaultBranches df) (fNSlots df) (fHasRunAtLeastOnce df)))
    (set_filterSlots <[id := FilterSlots_init]> (state w))
    (results w) (readiness w) (output w).

(** Filter: a filter node is appended at the node the method is called on.
    The identity of the new object is its rank among the booked filters. *)
Definition Filter (fProxiedPtr : Node) (f : list double -> bool) (nArgs : nat)
    (bl : BranchNames) (name : string) (w : World) : Result (Node * World) :=
  try df <- GetDataFrameChecked w;
  try actualBl <- PickBranchNames nArgs bl (fDefaultBranches df);
  let id := length (fBookedFilters df) in
  let FilterPtr := TDataFrameFilter id f actualBl name fProxiedPtr in
  Ok (FilterPtr, Book_filter FilterPtr id df w).

(** Modelled from the spec: CheckTmpBranch is only declared in the header.
    Section 3: a name that collides with a physical column or a previously
    derived name is rejected at booking time. *)
Definition CheckTmpBranch (name : string) (df : TDataFrameImpl) : Result unit :=
  if decide (name ∈ fTreeBranches df) then Throw (DuplicateDerivedName name)
  else match fBookedBranches df !! name with
       | Some _ => Throw (DuplicateDerivedName name)
       | None => Ok tt
       end.

Definition Book_branch (n : Node) (name : string) (df : TDataFrameImpl) (w : World)
    : World :=
  mkWorld
    (Some (mkImpl (fBookedActions df) (fBookedFilters df) (<[name := n]> (fBookedBranches df))
             (fResProxyReadiness df) (fTree df) (fTreeBranches df) (fEntries df)
             (fDefaultBranches df) (fNSlots df) (fHasRunAtLeastOnce df)))
    (set_branchSlots <[name := BranchSlots_init]> (state w))
    (results w) (readiness w) (output w).

(** AddBranch: a temporary branch is appended at the node the method is
    called on. *)
Definition AddBranch (fProxiedPtr : Node) (name : string)
    (expression : list double -> double) (nArgs : nat) (bl : BranchNames) (w : World)
    : Result (Node * World) :=
  try df <- GetDataFrameChecked w;
  try _ <- CheckTmpBranch name df;
  try actualBl <- PickBranchNames nArgs bl (fDefaultBranches df);
  let BranchPtr := TDataFrameBranch name expression actualBl fProxiedPtr in
  Ok (BranchPtr, Book_branch BranchPtr name df w).

(** ** TDataFrameInterface: actions *)

(** TActionResultProxy: the readiness flag and the result object, both shared
    objects given by their address; [fFirstData] is a weak pointer to the
    engine of the world. *)
Record TActionResultProxy := mkProxy {
  fReadiness : nat;
  fObjPtr : nat
}.

Definition map_engine (f : TDataFrameImpl -> TDataFrameImpl) (w : World) : World :=
  mkWorld (f <$> engine w) (state w) (results w) (readiness w) (output w).

(** std::make_shared of a result object. *)
Definition make_result (v : Value) (w : World) : nat * World :=
  (length (results w),
   mkWorld (engine w) (state w) (results w ++ [v]) (readiness w) (output w)).

(** TDataFrameImpl::MakeActionResultProxy: a new readiness flag, unset, is
    shared between the proxy and the engine. *)
Definition MakeActionResultProxy (r : nat) (w : World) : TActionResultProxy * World :=
  let flag := length (readiness w) in
  (mkProxy flag r,
   mkWorld
     ((λ df, mkImpl (fBookedActions df) (fBookedFilters df) (fBookedBranches df)
               (fResProxyReadiness df ++ [flag]) (fTree df) (fTreeBranches df)
               (fEntries df) (fDefaultBranches df) (fNSlots df)
               (fHasRunAtLeastOnce df)) <$> engine w)
     (state w) (results w) (readiness w ++ [false]) (output w)).

(** Book(action): [fBookedActions.emplace_back(actionPtr)] *)
Definition emplace_action (a : TDataFrameAction) (df : TDataFrameImpl) : TDataFrameImpl :=
  mkImpl (fBookedActions df ++ [a]) (fBookedFilters df) (fBookedBranches df)
    (fResProxyReadiness df) (fTree df) (fTreeBranches df) (fEntries df)
    (fDefaultBranches df) (fNSlots df) (fHasRunAtLeastOnce df).

Definition Book_action (a : TDataFrameAction) (w : World) : World :=
  map_engine (emplace_action a) w.

(** What the lazy actions share: the result object is created, a proxy is
    made for it and the action is booked.  Nothing else happens. *)
Definition BuildAndBook (op : Operation) (bl : BranchNames) (init : Value)
    (fProxiedPtr : Node) (w : World) : Result (TActionResultProxy * World) :=
  try _ <- GetDataFrameChecked w;
  let '(r, w1) := make_result init w in
  let w2 := Book_action (mkAction op bl fProxiedPtr (Some r) init) w1 in
  Ok (MakeActionResultProxy r w2).

Definition Count (fProxiedPtr : Node) (w : World) : Result (TActionResultProxy * World) :=
  BuildAndBook CountOperation [] (VUInt 0%N) fProxiedPtr w.

Definition Reduce (fProxiedPtr : Node) (f : double -> double -> double)
    (branchName : string) (initValue : double) (w : World)
    : Result (TActionResultProxy * World) :=
  try _ <- GetDataFrameChecked w;
  try bl <- GetBranchNames 1 [branchName] w;
  BuildAndBook (ReduceOperation f) bl (VDouble initValue) fProxiedPtr w.

Definition Take (fProxiedPtr : Node) (branchName : string) (w : World)
    : Result (TActionResultProxy * World) :=
  try _ <- GetDataFrameChecked w;
  try bl <- GetBranchNames 1 [branchName] w;
  BuildAndBook TakeOperation bl (VColl []) fProxiedPtr w.

Definition Min (fProxiedPtr : Node) (branchName : string) (w : World)
    : Result (TActionResultProxy * World) :=
  try bl <- GetBranchNames 1 [branchName] w;
  BuildAndBook MinOperation bl (VDouble numeric_limits_max) fProxiedPtr w.

Definition Max (fProxiedPtr : Node) (branchName : string) (w : World)
    : Result (TActionResultProxy * World) :=
  try bl <- GetBranchNames 1 [branchName] w;
  BuildAndBook MaxOperation bl (VDouble numeric_limits_min) fProxiedPtr w.

Definition Mean (fProxiedPtr : Node) (branchName : string) (w : World)
    : Result (TActionResultProxy * World) :=
  try bl <- GetBranchNames 1 [branchName] w;
  BuildAndBook MeanOperation bl (VDouble 0%float) fProxiedPtr w.

(** The axis of a histogram model, as far as the booking looks at it. *)
Record THModel := mkTHModel {
  GetXmin : double;
  GetXmax : double
}.

Definition HasAxisLimits (h : THModel) : bool :=
  negb (PrimFloat.eqb (GetXmin h) 0%float && PrimFloat.eqb (GetXmax h) 0%float).

(** Histo1D with a model; [weighted] says whether a weight type W was given. *)
Definition Histo1D (fProxiedPtr : Node) (model : THModel) (weighted : bool)
    (valBranchName weightBranchName : string) (w : World)
    : Result (TActionResultProxy * World) :=
  try bl <- GetBranchNames (neededBranches (negb weighted) true true)
              [valBranchName; weightBranchName] w;
  BuildAndBook (if HasAxisLimits model then FillTOOperation else FillOperation)
    bl (VHisto []) fProxiedPtr w.

Definition Histo2D (fProxiedPtr : Node) (model : THModel) (weighted : bool)
    (b0BranchName b1BranchName wBranchName : string) (w : World)
    : Result (TActionResultProxy * World) :=
  if negb (HasAxisLimits model) then Throw HistogramNeedsAxisLimits
  else
    try bl <- GetBranchNames (neededBranches false (negb weighted) true)
                (if weighted then [b0BranchName; b1BranchName; wBranchName]
                 else [b0BranchName; b1BranchName]) w;
    BuildAndBook FillTOOperation bl (VHisto []) fProxiedPtr w.

Definition Histo3D (fProxiedPtr : Node) (model : THModel) (weighted : bool)
    (b0BranchName b1BranchName b2BranchName wBranchName : string) (w : World)
    : Result (TActionResultProxy * World) :=
  if negb (HasAxisLimits model) then Throw HistogramNeedsAxisLimits
  else
    try bl <- GetBranchNames (neededBranches false false (negb weighted))
                [b0BranchName; b1BranchName; b2BranchName; wBranchName] w;
    BuildAndBook FillTOOperation bl (VHisto []) fProxiedPtr w.

(** ForeachSlot: the action is booked and the event loop is run in the booking
    call.  [nArgs] is the number of parameters of the callable, the slot
    included.  There is no result when the event loop has none. *)
Definition ForeachSlot (fProxiedPtr : Node) (nArgs : nat) (bl : BranchNames) (w : World)
    : option (Result World) :=
  match (try df <- GetDataFrameChecked w;
         try actualBl <- PickBranchNames (nArgs - 1) bl (fDefaultBranches df);
         Ok (Book_action (mkAction ForeachOperation actualBl fProxiedPtr None VVoid) w))
  with
  | Throw e => Some (Throw e)
  | Ok w1 => df1 ← engine w1; w2 ← Run df1 w1; Some (Ok w2)
  end.

(** Foreach adds the slot parameter to the callable and calls ForeachSlot. *)
Definition Foreach (fProxiedPtr : Node) (nArgs : nat) (bl : BranchNames) (w : World)
    : option (Result World) :=
  ForeachSlot fProxiedPtr (S nArgs) bl w.

(** ** TActionResultProxy *)

(** TriggerRun: the event loop of the engine, or an exception if the engine
    is not reachable. *)
Definition TriggerRun (w : World) : option (Result World) :=
  match engine w with
  | None => Some (Throw EngineGone)
  | Some df => w' ← Run df w; Some (Ok w')
  end.

(** Get: [if (!*fReadiness) TriggerRun(); return fObjPtr.get();] *)
Definition Get (p : TActionResultProxy) (w : World) : option (Result (Value * World)) :=
  ready ← readiness w !! fReadiness p;
  r ← (if negb ready then TriggerRun w else Some (Ok w));
  match r with
  | Throw e => Some (Throw e)
  | Ok w' => v ← results w' !! fObjPtr p; Some (Ok (v, w'))
  end.

(** ** Report *)

Definition sum_N (l : list N) : N := fold_left N.add l 0%N.

(** Modelled from the spec: TDataFrameFilterBase::PrintReport is only declared
    in the header.  Sections 2 and 4.1: the statistics of a named filter are
    printed, the accepted entries and all the entries it saw, summed over the
    slots; a filter without a name prints nothing. *)
Definition PrintReport (id : nat) (name : string) (rs : RunState) : list Printed :=
  if decide (name = "") then []
  else
    match filterSlots rs !! id with
    | Some fs =>
        let accepted := sum_N (fAccepted fs) in
        [FilterStats name accepted (accepted + sum_N (fRejected fs))%N]
    | None => []
    end.

(** PartialReport: a filter asks the previous node first and then prints its
    own report; a temporary branch forwards; the engine ends the chain. *)
Fixpoint PartialReport (n : Node) (rs : RunState) : list Printed :=
  match n with
  | TDataFrameImplNode => []
  | TDataFrameFilter id _ _ name pd => PartialReport pd rs ++ PrintReport id name rs
  | TDataFrameBranch _ _ _ pd => PartialReport pd rs
  end.

(** Modelled from the spec: TDataFrameImpl::Report is only declared in the
    header.  Section 4.1: a call on the root prints all the named filters, in
    booking order. *)
Definition Impl_Report (df : TDataFrameImpl) (rs : RunState) : list Printed :=
  flat_map (λ n, match n with
                 | TDataFrameFilter id _ _ name _ => PrintReport id name rs
                 | _ => []
                 end) (fBookedFilters df).

(** Report of the node proxied: of the engine, or the recursive chain of the
    filter or branch. *)
Definition Node_Report (n : Node) (df : TDataFrameImpl) (rs : RunState) : list Printed :=
  match n with
  | TDataFrameImplNode => Impl_Report df rs
  | TDataFrameFilter _ _ _ _ _ => PartialReport n rs
  | TDataFrameBranch _ _ _ pd => PartialReport pd rs
  end.

Definition print (l : list Printed) (w : World) : World :=
  mkWorld (engine w) (state w) (results w) (readiness w) (output w ++ l).

(** TDataFrameInterface::Report: if the event loop has not run, an Info
    message that warns that all reports are empty; the report of the proxied
    node otherwise. *)
Definition Report (fProxiedPtr : Node) (w : World) : Result World :=
  try df <- GetDataFrameChecked w;
  if negb (fHasRunAtLeastOnce df)
  then Ok (print [Info "TDataFrame::Report"
                    "Warning: the event-loop has not been run yet, all reports are empty"] w)
  else Ok (print (Node_Report fProxiedPtr df (state w)) w).

(** ** The lazy actions, as one family *)

(** The booking calls of the actions other than Foreach and ForeachSlot. *)
Inductive LazyAction :=
| CallCount
| CallReduce (f : double -> double -> double) (branchName : string) (initValue : double)
| CallTake (branchName : string)
| CallMin (branchName : string)
| CallMax (branchName : string)
| CallMean (branchName : string)
| CallHisto1D (model : THModel) (weighted : bool) (valBranchName weightBranchName : string)
| CallHisto2D (model : THModel) (weighted : bool) (b0 b1 wt : string)
| CallHisto3D (model : THModel) (weighted : bool) (b0 b1 b2 wt : string).

Definition call (c : LazyAction) (fProxiedPtr : Node) (w : World)
    : Result (TActionResultProxy * World) :=
  match c with
  | CallCount => Count fProxiedPtr w
  | CallReduce f b i => Reduce fProxiedPtr f b i w
  | CallTake b => Take fProxiedPtr b w
  | CallMin b => Min fProxiedPtr b w
  | CallMax b => Max fProxiedPtr b w
  | CallMean b => Mean fProxiedPtr b w
  | CallHisto1D m wd v wt => Histo1D fProxiedPtr m wd v wt w
  | CallHisto2D m wd b0 b1 wt => Histo2D fProxiedPtr m wd b0 b1 wt w
  | CallHisto3D m wd b0 b1 b2 wt => Histo3D fProxiedPtr m wd b0 b1 b2 wt w
  end.

(** Whether the engine of a world has run its event loop. *)
Definition HasRunAtLeastOnce (w : World) : option bool :=
  fHasRunAtLeastOnce <$> engine w.

(** Histo1D by name and range: the names are resolved, a histogram with the
    range is made and Histo1D with a model is called on the first name and,
    unless one name only was resolved, the second.  [TH1F h(..., nBins,
    minVal, maxVal)] has the axis limits minVal and maxVal; nBins and
    SetCanExtendAllAxes have no part in the booking.  [bl[0]] and [bl[1]] are
    unchecked. *)
Definition Histo1D_range (fProxiedPtr : Node) (weighted : bool)
    (valBranchName : string) (nBins : Z) (minVal maxVal : double)
    (weightBranchName : string) (w : World)
    : option (Result (TActionResultProxy * World)) :=
  match GetBranchNames (neededBranches (negb weighted) true true)
          [valBranchName; weightBranchName] w with
  | Throw e => Some (Throw e)
  | Ok bl =>
      let blSize := length bl in
      bl0 ← bl !! 0%nat;
      bl1 ← (if decide (blSize = 1%nat) then Some "" else bl !! 1%nat);
      Some (Histo1D fProxiedPtr (mkTHModel minVal maxVal) weighted bl0 bl1 w)
  end.

(** Histo1D by name only: 128 bins and the range from 0. to 0. *)
Definition Histo1D_names (fProxiedPtr : Node) (weighted : bool)
    (valBranchName weightBranchName : string) (w : World)
    : option (Result (TActionResultProxy * World)) :=
  Histo1D_range fProxiedPtr weighted valBranchName 128 0%float 0%float weightBranchName w.

(** ** The readers of the branches *)

(** A TTreeReaderValue on a branch of the tree, as ReaderValueOrArray makes
    it; a null pointer is [None]. *)
Inductive TTreeReaderValueBase :=
| TTreeReaderValue (branch : string).

Abbreviation TVBPtr_t := (option TTreeReaderValueBase).
Abbreviation TVBVec_t := (list (option TTreeReaderValueBase)).

(** The result of code that calls [std::vector::at], which throws
    std::out_of_range for an index that is not within the range. *)
Inductive Checked (A : Type) :=
| Fine (a : A)
| std_out_of_range.
Arguments Fine {A} a.
Arguments std_out_of_range {A}.

Definition Checked_bind {A B} (m : Checked A) (k : A -> Checked B) : Checked B :=
  match m with
  | Fine a => k a
  | std_out_of_range => std_out_of_range
  end.

Definition vector_at {A} (v : list A) (i : nat) : Checked A :=
  match v !! i with
  | Some a => Fine a
  | None => std_out_of_range
  end.

(** A loop or a pack expansion whose body may throw, in index order. *)
Fixpoint Checked_for {A B} (body : A -> Checked B) (l : list A) : Checked (list B) :=
  match l with
  | [] => Fine []
  | a :: l' =>
      Checked_bind (body a) (λ b,
      Checked_bind (Checked_for body l') (λ bs, Fine (b :: bs)))
  end.

(** BuildReaderValues, for a callable with [nArgs] branch parameters (the
    static sequence S is 0 .. nArgs-1).  The loop fills the array isTmpBranch
    from [bl.at(i)]; the pack expansion then puts a null pointer for a
    temporary branch and a reader on [bl.at(S)] otherwise.  The array has
    nArgs elements, so that [isTmpBranch[S]] is always within range. *)
Definition BuildReaderValues (nArgs : nat) (bl tmpbl : BranchNames) : Checked TVBVec_t :=
  Checked_bind
    (Checked_for (λ i, Checked_bind (vector_at bl i) (λ b, Fine (isTmpBranch tmpbl b)))
       (seq 0 nArgs))
    (λ isTmp,
       Checked_for
         (λ S, if default false (isTmp !! S) then Fine None
               else Checked_bind (vector_at bl S) (λ b, Fine (Some (TTreeReaderValue b))))
         (seq 0 nArgs)).

(** GetBranchValue (scalar overload) as the header has it, on the reader of
    the branch: a null reader means a temporary branch, whose value is fetched
    through the engine under the name [branch]; any other reader is
    dereferenced and gives the value of the branch it was made for. *)
Definition GetBranchValue_reader (tree : TTree) (resolve : TmpResolver)
    (readerValue : TVBPtr_t) (slot : nat) (entry : Long64_t) (branch : string)
    (rs : RunState) : option (double * RunState) :=
  match readerValue with
  | None =>
      '(p, rs1) ← resolve branch slot entry rs;
      v ← heap rs1 !! p;
      Some (v, rs1)
  | Some (TTreeReaderValue b) =>
      Some (tree b entry, log (EvReadColumn b slot entry) rs)
  end.

(** The pack expansion of ExecuteActionHelper, CheckFilterHelper and
    GetValueHelper: [GetBranchValue(fReaderValues[slot][S], slot, entry,
    fBranches[S], ...)...] for S = 0 .. nArgs-1, both subscripts unchecked. *)
Definition GetBranchValues (tree : TTree) (resolve : TmpResolver)
    (readerValues : TVBVec_t) (fBranches : BranchNames) (nArgs : nat)
    (slot : nat) (entry : Long64_t) (rs : RunState) : option (list double * RunState) :=
  expand_pack
    (λ S rs, readerValue ← readerValues !! S;
             branch ← fBranches !! S;
             GetBranchValue_reader tree resolve readerValue slot entry branch rs)
    (seq 0 nArgs) rs.

(** ** Guessing the type of a branch *)

(** The branch types CreateAction can instantiate BuildAndBook at. *)
Inductive BranchType :=
| BT_char
| BT_int
| BT_double
| BT_vector_double
| BT_vector_float.

(** A std::type_info, as far as it is compared: the typeid of one of the
    types above, or of another type. *)
Inductive type_info :=
| typeid_of (t : BranchType)
| typeid_other (name : string).

(** What TTree::GetBranch returns when the pointer is not null: a branch that
    is not a TBranchElement, with its title, or a TBranchElement, with the
    name of its type.  Both are C strings, given by their characters before
    the terminating null character. *)
Inductive TBranch :=
| TBranchLeaf (GetTitle : string)
| TBranchElement (GetTypeName : string).

(** The outcome of the guess: BuildAndBook at a branch type, or the
    std::runtime_error "The type of branch ... could not be guessed. Please
    specify one." *)
Inductive Guess :=
| BuildAndBookAs (t : BranchType)
| CouldNotBeGuessed (theBranchName : string).

(** [title[strlen(title) - 1]]; the subscript is out of range for an empty
    title. *)
Definition typeCode_of (title : string) : option ascii :=
  if decide (String.length title = 0%nat) then None
  else String.get (String.length title - 1) title.

(** The part of CreateAction commented "real branch", which the control
    reaches for every non-null [branch] and also for a null [branch] whose
    type was not matched: the dynamic_cast of a null pointer is null, and
    GetTitle is then called on the null [branch]. *)
Definition guess_real_branch (branch : option TBranch) (theBranchName : string)
    : option Guess :=
  match branch with
  | None => None
  | Some (TBranchLeaf title) =>
      typeCode ← typeCode_of title;
      Some (if decide (typeCode = "B"%char) then BuildAndBookAs BT_char
            else if decide (typeCode = "I"%char) then BuildAndBookAs BT_int
            else if decide (typeCode = "D"%char) then BuildAndBookAs BT_double
            else CouldNotBeGuessed theBranchName)
  | Some (TBranchElement typeName) =>
      Some (if decide (typeName = "vector<double>") then BuildAndBookAs BT_vector_double
            else if decide (typeName = "vector<float>") then BuildAndBookAs BT_vector_float
            else CouldNotBeGuessed theBranchName)
  end.

(** CreateAction, the overload for TDataFrameGuessedType.  [GetBranch] is
    TTree::GetBranch on the tree of the engine, which is taken to be found
    under its name in the directory, and [GetTypeId] is
    [df->GetBookedBranch(name).GetTypeId()], which has no result when no
    temporary branch has the name.  [bl[0]] is unchecked. *)
Definition CreateAction_guess (GetBranch : string -> option TBranch)
    (GetTypeId : string -> option type_info) (bl : BranchNames) : option Guess :=
  theBranchName ← bl !! 0%nat;
  let branch := GetBranch theBranchName in
  match branch with
  | None =>
      type_id ← GetTypeId theBranchName;
      match type_id with
      | typeid_of t => Some (BuildAndBookAs t)
      | typeid_other _ => guess_real_branch branch theBranchName
      end
  | Some _ => guess_real_branch branch theBranchName
  end.

(** ** CreateSlots of a temporary branch *)

(** [v.resize(n, x)]: the first [n] elements of [v], followed by copies of
    [x] when [v] has fewer. *)
Definition vector_resize {A} (v : list A) (n : nat) (x : A) : list A :=
  take n v ++ replicate (n - length v) x.

(** TDataFrameBranch::CreateSlots: [fLastCheckedEntry.resize(nSlots, -1)] and
    [fLastResultPtr.resize(nSlots)], which fills with null pointers. *)
Definition TDataFrameBranch_CreateSlots (nSlots : nat) (bs : BranchSlots) : BranchSlots :=
  mkBranchSlots (vector_resize (bLastCheckedEntry bs) nSlots (-1))
    (vector_resize (fLastResultPtr bs) nSlots None).

(** ** The filters a report goes through *)

(** The filters upstream of a node, itself included, with their names, from
    the engine down to the node. *)
Fixpoint filters_upstream (n : Node) : list (nat * string) :=
  match n with
  | TDataFrameImplNode => []
  | TDataFrameFilter id _ _ name pd => filters_upstream pd ++ [(id, name)]
  | TDataFrameBranch _ _ _ pd => filters_upstream pd
  end.

(** ** Reading the trace *)

(** The calls of the predicate of filter [id] on [slot] recorded in a trace:
    the entry and the outcome, most recent first. *)
Definition fevent (id slot : nat) (ev : Event) : option (Long64_t * bool) :=
  match ev with
  | EvFilter id' slot' entry passed =>
      if decide (id' = id ∧ slot' = slot) then Some (entry, passed) else None
  | _ => None
  end.

Definition fevents (id slot : nat) (tr : list Event) : list (Long64_t * bool) :=
  omap (fevent id slot) tr.

(** The evaluations of the expression of the temporary branch [name] on
    [slot] recorded in a trace. *)
Definition bevent (name : string) (slot : nat) (ev : Event) : option Long64_t :=
  match ev with
  | EvExpression name' slot' entry =>
      if decide (name' = name ∧ slot' = slot) then Some entry else None
  | _ => None
  end.

Definition bevents (name : string) (slot : nat) (tr : list Event) : list Long64_t :=
  omap (bevent name slot) tr.

(** The calls of the callable of action [idx] recorded in a trace. *)
Definition aevent (idx : nat) (ev : Event) : option (nat * Long64_t) :=
  match ev with
  | EvAction idx' slot entry => if decide (idx' = idx) then Some (slot, entry) else None
  | _ => None
  end.

Definition aevents (idx : nat) (tr : list Event) : list (nat * Long64_t) :=
  omap (aevent idx) tr.

(** Events of the readers and of the expressions of temporary branches. *)
Definition is_read (ev : Event) : Prop :=
  match ev with
  | EvReadColumn _ _ _ | EvExpression _ _ _ => True
  | _ => False
  end.

(** What fetching branch values may do to the state: the filters and the
    operations are not touched and only read events are recorded. *)
Definition reads (rs rs' : RunState) : Prop :=
  filterSlots rs' = filterSlots rs
  ∧ opSlots rs' = opSlots rs
  ∧ ∃ evs, trace rs' = evs ++ trace rs ∧ Forall is_read evs.

(** ** The effect of one check on the members of a filter *)

(** The members of a filter after it has dealt with a new [entry] on [slot]:
    [outcome] is [None] when a filter upstream rejected the entry and the
    outcome of the predicate otherwise. *)
Definition filter_checked (fs : FilterSlots) (slot : nat) (entry : Long64_t)
    (outcome : option bool) : FilterSlots :=
  mkFilterSlots
    (<[slot := entry]> (fLastCheckedEntry fs))
    (<[slot := match outcome with Some true => 1 | _ => 0 end]> (fLastResult fs))
    (match outcome with
     | Some true => alter ULong64_incr slot (fAccepted fs)
     | _ => fAccepted fs
     end)
    (match outcome with
     | Some false => alter ULong64_incr slot (fRejected fs)
     | _ => fRejected fs
     end).

(** ** The invariant of the filters during the event loop *)

(** The number of recorded calls with a given outcome. *)
Definition count_outcome (b : bool) (evs : list (Long64_t * bool)) : nat :=
  length (filter (λ x : Long64_t * bool, x.2 = b) evs).

(** The members of a filter at [slot] agree with the recorded calls [evs] of
    its predicate on that slot: the last entry checked is at most [bound] and
    at least every entry the predicate was called on, the predicate was
    called at most once on an entry, and the counters count the calls that
    accepted and that rejected (modulo 2^64, as ULong64_t does). *)
Definition cell_ok (fs : FilterSlots) (evs : list (Long64_t * bool)) (slot : nat)
    (bound : Long64_t) : Prop :=
  (∀ last, fLastCheckedEntry fs !! slot = Some last →
     last ≤ bound ∧ ∀ e b, (e, b) ∈ evs → e ≤ last)
  ∧ NoDup evs.*1
  ∧ (∀ a, fAccepted fs !! slot = Some a →
          a = (N.of_nat (count_outcome true evs) mod 2 ^ 64)%N)
  ∧ (∀ a, fRejected fs !! slot = Some a →
          a = (N.of_nat (count_outcome false evs) mod 2 ^ 64)%N).

(** The per-slot members of a filter have one element per slot. *)
Definition slots_sized (nSlots : nat) (fs : FilterSlots) : Prop :=
  length (fLastCheckedEntry fs) = nSlots
  ∧ length (fAccepted fs) = nSlots ∧ length (fRejected fs) = nSlots.

(** The invariant for the filters [P] and all slots, about the calls recorded
    since the trace was [tr0] (the trace when the event loop started); the
    counters have one element per slot. *)
Definition filters_ok (P : nat → Prop) (nSlots : nat) (tr0 : list Event)
    (bound : nat → Long64_t) (rs : RunState) : Prop :=
  ∀ id, P id → ∃ fs,
    filterSlots rs !! id = Some fs
    ∧ slots_sized nSlots fs
    ∧ ∀ slot, ∃ evs, fevents id slot (trace rs) = evs ++ fevents id slot tr0
                     ∧ cell_ok fs evs slot (bound slot).

(** The last entry handed out per slot, after [entry] is handed to [slot]. *)
Definition handed (bound : nat → Long64_t) (slot : nat) (entry : Long64_t)
    : nat → Long64_t :=
  λ s, if decide (s = slot) then entry else bound s.

(** The input provider hands the entries of a slot in ascending order:
    [bound] gives, per slot, the last entry handed out so far. *)
Fixpoint ascending (bound : nat → Long64_t) (entries : list (nat * Long64_t)) : Prop :=
  match entries with
  | [] => True
  | (slot, entry) :: rest => bound slot ≤ entry ∧ ascending (handed bound slot entry) rest
  end.

(** The identities of the booked filters. *)
Definition booked_filter (df : TDataFrameImpl) (id : nat) : Prop :=
  ∃ f bl name pd, TDataFrameFilter id f bl name pd ∈ fBookedFilters df.

(** No filter occurs twice upstream of an action: the graph is a tree. *)
Definition chains_ok (actions : list TDataFrameAction) : Prop :=
  ∀ a, a ∈ actions → NoDup (filter_ids (aPrevData a)).

(** The callable of action [idx] has been called at least as often in [rs']
    as in [rs], and if it has not been called in between, the partials of
    its operation are the same. *)
Definition untouched (idx : nat) (rs rs' : RunState) : Prop :=
  (length (aevents idx (trace rs)) ≤ length (aevents idx (trace rs')))%nat
  ∧ (length (aevents idx (trace rs')) = length (aevents idx (trace rs)) →
     opSlots rs' !! idx = opSlots rs !! idx).

(** The number of calls of the predicate of filter [id] on [slot] recorded
    in [tr] since the trace was [tr0]. *)
Definition ncalls (id slot : nat) (tr0 tr : list Event) : nat :=
  (length (fevents id slot tr) - length (fevents id slot tr0))%nat.

(** ** The invariant of the memoized results *)

(** The filter nodes upstream of a node, itself included. *)
Fixpoint filter_nodes (n : Node) : list Node :=
  match n with
  | TDataFrameImplNode => []
  | TDataFrameFilter _ _ _ _ pd => n :: filter_nodes pd
  | TDataFrameBranch _ _ _ pd => filter_nodes pd
  end.

(** A filter object has one previous node: two nodes of [G] with the same
    identity hang from the same node. *)
Definition consistent (G : list Node) : Prop :=
  ∀ id f bl name pd f' bl' name' pd',
    TDataFrameFilter id f bl name pd ∈ G →
    TDataFrameFilter id f' bl' name' pd' ∈ G →
    pd = pd'.

(** The graph of an engine: no filter occurs twice in a chain, the filters
    upstream of the actions and of the booked filters are booked, and the
    booked filters are consistent. *)
Definition graph_ok (df : TDataFrameImpl) : Prop :=
  chains_ok (fBookedActions df)
  ∧ (∀ a, a ∈ fBookedActions df → filter_nodes (aPrevData a) ⊆ fBookedFilters df)
  ∧ (∀ n, n ∈ fBookedFilters df → filter_nodes n ⊆ fBookedFilters df)
  ∧ consistent (fBookedFilters df).

(** In the events [new], the predicate of every filter upstream of [pd], [pd]
    included, was called on [entry] on [slot] and returned true. *)
Definition upstream_passed (new : list Event) (pd : Node) (slot : nat)
    (entry : Long64_t) : Prop :=
  ∀ g, g ∈ filter_ids pd → (entry, true) ∈ fevents g slot new.

(** The memoized results are sound with respect to the events [new] recorded
    since the trace was [tr0]: a memoized true for an entry means that the
    filter and all the filters upstream were called on the entry and returned
    true, and the predicate of a filter was only called on entries on which
    all the filters upstream returned true. *)
Definition memo_ok (G : list Node) (tr0 : list Event) (rs : RunState) : Prop :=
  ∃ new, trace rs = new ++ tr0 ∧
    ∀ id f bl name pd, TDataFrameFilter id f bl name pd ∈ G → ∀ slot,
      (∀ fs last v,
         filterSlots rs !! id = Some fs →
         fLastCheckedEntry fs !! slot = Some last →
         fLastResult fs !! slot = Some v →
         last ≠ -1 → v ≠ 0 →
         (last, true) ∈ fevents id slot new ∧ upstream_passed new pd slot last)
      ∧ (∀ entry b, (entry, b) ∈ fevents id slot new →
                    upstream_passed new pd slot entry).

(** ** The invariant of the temporary branches during the event loop *)

(** The members of a temporary branch at [slot] agree with the recorded
    evaluations [evs] of its expression on that slot: the last entry
    evaluated is at most [bound] and at least every entry the expression was
    evaluated on, and the expression was evaluated at most once on an entry. *)
Definition bcell_ok (bs : BranchSlots) (evs : list Long64_t) (slot : nat)
    (bound : Long64_t) : Prop :=
  (∀ last, bLastCheckedEntry bs !! slot = Some last →
     last ≤ bound ∧ ∀ e, e ∈ evs → e ≤ last)
  ∧ NoDup evs.

Definition branches_ok (tr0 : list Event) (bound : nat → Long64_t) (rs : RunState)
    : Prop :=
  ∀ name bs slot, branchSlots rs !! name = Some bs →
    ∃ evs, bevents name slot (trace rs) = evs ++ bevents name slot tr0
           ∧ bcell_ok bs evs slot (bound slot).

(** The temporary branch [name] holds, for [slot], the value it computed for
    [entry] in the shared object at address [p]. *)
Definition cached (name : string) (slot : nat) (entry : Long64_t) (p : nat)
    (rs : RunState) : Prop :=
  ∃ bs, branchSlots rs !! name = Some bs
        ∧ bLastCheckedEntry bs !! slot = Some entry
        ∧ fLastResultPtr bs !! slot = Some (Some p).

(** A step of the evaluation of [entry] on [slot] keeps the invariant of the
    temporary branches, touches only the branches named in [N], keeps what is
    cached for the entry (and for the other slots), and keeps the shared
    objects that exist. *)
Definition bkeeps (tr0 : list Event) (bound : nat → Long64_t) (slot : nat)
    (entry : Long64_t) (N : list string) (rs rs' : RunState) : Prop :=
  (branches_ok tr0 bound rs → branches_ok tr0 bound rs')
  ∧ (∀ name, name ∉ N →
       branchSlots rs' !! name = branchSlots rs !! name
       ∧ ∀ s, bevents name s (trace rs') = bevents name s (trace rs))
  ∧ (∀ name s e p, s ≠ slot ∨ e = entry → cached name s e p rs → cached name s e p rs')
  ∧ (∀ p v, heap rs !! p = Some v → heap rs' !! p = Some v)
  ∧ (∀ name, is_Some (branchSlots rs !! name) → is_Some (branchSlots rs' !! name)).

(** The names of the temporary branches upstream of an action are pairwise
    distinct. *)
Definition names_ok (actions : list TDataFrameAction) : Prop :=
  ∀ a, a ∈ actions → NoDup (GetTmpBranches (aPrevData a)).

(** ** When the event loop has a result *)

(** A node whose upstream chain the engine can evaluate: the filters and the
    temporary branches upstream are booked, and no temporary branch lists its
    own name among its inputs. *)
Fixpoint node_ok (df : TDataFrameImpl) (n : Node) : Prop :=
  match n with
  | TDataFrameImplNode => True
  | TDataFrameFilter id _ _ _ pd => booked_filter df id ∧ node_ok df pd
  | TDataFrameBranch name _ bl pd =>
      is_Some (fBookedBranches df !! name) ∧ (name ∉ bl) ∧ node_ok df pd
  end.

(** An engine the event loop can run: the actions hang from such nodes, and
    the input provider hands entries that exist (from 0 on) to slots that
    exist. *)
Definition runnable (df : TDataFrameImpl) : Prop :=
  (∀ a, a ∈ fBookedActions df → node_ok df (aPrevData a))
  ∧ Forall (λ se : nat * Long64_t, (fst se < fNSlots df)%nat ∧ 0 ≤ snd se) (fEntries df).

(** The per-slot members of a filter and of a temporary branch have one
    element per slot; a branch that has evaluated an entry on a slot holds a
    pointer to a shared object that exists. *)
Definition fsized (n : nat) (fs : FilterSlots) : Prop :=
  length (fLastCheckedEntry fs) = n ∧ length (fLastResult fs) = n
  ∧ length (fAccepted fs) = n ∧ length (fRejected fs) = n.

Definition bsized (n : nat) (h : list double) (bs : BranchSlots) : Prop :=
  length (bLastCheckedEntry bs) = n ∧ length (fLastResultPtr bs) = n
  ∧ ∀ slot last, bLastCheckedEntry bs !! slot = Some last → last ≠ -1 →
      ∃ p, fLastResultPtr bs !! slot = Some (Some p) ∧ (p < length h)%nat.

(** The state of the nodes has the shape CreateSlots gives it. *)
Definition shape_ok (df : TDataFrameImpl) (rs : RunState) : Prop :=
  (∀ id, booked_filter df id →
     ∃ fs, filterSlots rs !! id = Some fs ∧ fsized (fNSlots df) fs)
  ∧ (∀ name, is_Some (fBookedBranches df !! name) →
       ∃ bs, branchSlots rs !! name = Some bs ∧ bsized (fNSlots df) (heap rs) bs)
  ∧ length (opSlots rs) = length (fBookedActions df)
  ∧ Forall (λ ps : list Value, length ps = fNSlots df) (opSlots rs).

(** ** What the nodes compute *)

(** The value of the branch [b] for a callable whose temporary branches are
    [tmpbl]: that of the temporary branch, given by [col], or that of the
    branch of the tree. *)
Definition input_of (tree : TTree) (tmpbl : BranchNames)
    (col : string → option double) (entry : Long64_t) (b : string) : option double :=
  if isTmpBranch tmpbl b then col b else Some (tree b entry).

(** The value at [entry] of the temporary branch [b] as seen from the node
    [n]: the expression of the nearest temporary branch upstream with that
    name, applied to the values of its own branches.  There is none when no
    temporary branch upstream has the name. *)
Fixpoint column (tree : TTree) (n : Node) (entry : Long64_t) (b : string)
    : option double :=
  match n with
  | TDataFrameImplNode => None
  | TDataFrameFilter _ _ _ _ pd => column tree pd entry b
  | TDataFrameBranch name e bl pd =>
      if decide (b = name) then
        e <$> mapM (input_of tree (GetTmpBranches pd ++ [name]) (column tree pd entry) entry) bl
      else column tree pd entry b
  end.

(** The values at [entry] of the branches [bl] for a callable that hangs
    from the node [n]. *)
Definition inputs (tree : TTree) (n : Node) (bl : BranchNames) (entry : Long64_t)
    : option (list double) :=
  mapM (input_of tree (GetTmpBranches n) (column tree n entry) entry) bl.

(** Whether [entry] passes the filters upstream of [n], [n] included: the
    conjunction of their predicates on the values of their branches, from
    the engine down, a predicate being looked at only if the entry passed the
    filters above it. *)
Fixpoint passes (tree : TTree) (n : Node) (entry : Long64_t) : option bool :=
  match n with
  | TDataFrameImplNode => Some true
  | TDataFrameBranch _ _ _ pd => passes tree pd entry
  | TDataFrameFilter _ f bl _ pd =>
      up ← passes tree pd entry;
      if up : bool then f <$> inputs tree pd bl entry else Some false
  end.

(** A node and the nodes upstream of it. *)
Fixpoint upstream (n : Node) : list Node :=
  n :: match n with
       | TDataFrameImplNode => []
       | TDataFrameFilter _ _ _ _ pd => upstream pd
       | TDataFrameBranch _ _ _ pd => upstream pd
       end.

(** The members of the nodes are kept by identity here (a number for a
    filter, the name for a temporary branch): in the graph [G] an identity
    stands for one object. *)
Definition one_object (G : list Node) : Prop :=
  (∀ id f bl name pd f' bl' name' pd',
     TDataFrameFilter id f bl name pd ∈ G →
     TDataFrameFilter id f' bl' name' pd' ∈ G →
     TDataFrameFilter id f bl name pd = TDataFrameFilter id f' bl' name' pd')
  ∧ (∀ name e bl pd e' bl' pd',
       TDataFrameBranch name e bl pd ∈ G →
       TDataFrameBranch name e' bl' pd' ∈ G →
       TDataFrameBranch name e bl pd = TDataFrameBranch name e' bl' pd').

(** What the nodes of [G] have cached is right: the result a filter holds for
    the entry it checked last on a slot is whether that entry passes, and the
    pointer a temporary branch holds for the entry it evaluated last on a slot
    points to the value of the branch at that entry.  -1 is the entry of a
    slot on which nothing was checked yet. *)
Definition caches_ok (tree : TTree) (G : list Node) (rs : RunState) : Prop :=
  (∀ id f bl name pd, TDataFrameFilter id f bl name pd ∈ G →
     ∀ slot fs last v,
       filterSlots rs !! id = Some fs →
       fLastCheckedEntry fs !! slot = Some last → last ≠ -1 →
       fLastResult fs !! slot = Some v →
       passes tree (TDataFrameFilter id f bl name pd) last = Some (negb (v =? 0)))
  ∧ (∀ name e bl pd, TDataFrameBranch name e bl pd ∈ G →
       ∀ slot bs last p,
         branchSlots rs !! name = Some bs →
         bLastCheckedEntry bs !! slot = Some last → last ≠ -1 →
         fLastResultPtr bs !! slot = Some (Some p) →
         ∃ v, heap rs !! p = Some v
              ∧ column tree (TDataFrameBranch name e bl pd) last name = Some v).



(** ** Concrete inputs *)

(** A tree all of whose branches hold the values [l], entry by entry. *)
Definition tree_of (l : list double) : TTree :=
  λ _ entry, nth (Z.to_nat entry) l 0%float.

(** The entries 0 .. n-1 handed to slot 0, in order. *)
Definition serial (n : nat) : list (nat * Long64_t) :=
  (λ i, (0%nat, Z.of_nat i)) <$> seq 0 n.

(** A single-slot data frame on a tree with one branch "x" holding [l],
    which is also the default branch. *)
Definition frame_x (l : list double) : World :=
  TDataFrame (tree_of l) ["x"] (serial (length l)) ["x"] 1.

(** The proxy and the world after booking one lazy action on the root of
    [frame_x l]. *)
Definition booked (c : LazyAction) (l : list double) : TActionResultProxy * World :=
  match call c TDataFrameImplNode (frame_x l) with
  | Ok pw => pw
  | Throw _ => (mkProxy 0 0, frame_x l)
  end.

(** A predicate on one branch: the value is greater than [c]. *)
Definition gt (c : double) (vals : list double) : bool :=
  match vals with
  | [x] => PrimFloat.ltb c x
  | _ => false
  end.

(** Two chained filters on "x", F1 (x > 2) and then F2 (x > 4), a Count
    below F2 and a Max below F1, on a single-slot frame holding [l]. *)
Definition chained (l : list double) : World :=
  match Filter TDataFrameImplNode (gt 2%float) 1 ["x"] "F1" (frame_x l) with
  | Ok (f1, w1) =>
      match Filter f1 (gt 4%float) 1 ["x"] "F2" w1 with
      | Ok (f2, w2) =>
          match Count f2 w2 with
          | Ok (_, w3) =>
              match Max f1 "x" w3 with
              | Ok (_, w4) => w4
              | Throw _ => w3
              end
          | Throw _ => w2
          end
      | Throw _ => w1
      end
  | Throw _ => frame_x l
  end.

(** The engine of a world, for worlds that have one. *)
Definition engine_of (w : World) : TDataFrameImpl :=
  default (mkImpl [] [] ∅ [] (λ _ _, 0%float) [] [] [] 0 false) (engine w).

(** An expression on one branch: twice the value. *)
Definition twice (vals : list double) : double :=
  match vals with
  | [x] => (2 * x)%float
  | _ => 0%float
  end.

(** A temporary branch "y" = 2 * "x", a filter F (y > 2) below it, and a Max
    and a Take of "y" below the filter, on a single-slot frame holding [l]. *)
Definition derived (l : list double) : World :=
  match AddBranch TDataFrameImplNode "y" twice 1 ["x"] (frame_x l) with
  | Ok (b, w1) =>
      match Filter b (gt 2%float) 1 ["y"] "F" w1 with
      | Ok (f, w2) =>
          match Max f "y" w2 with
          | Ok (_, w3) =>
              match Take f "y" w3 with
              | Ok (_, w4) => w4
              | Throw _ => w3
              end
          | Throw _ => w2
          end
      | Throw _ => w1
      end
  | Throw _ => frame_x l
  end.


(** The temporary branch "y" = 2 * "x" and the filter F (y > 2) below it,
    as nodes, with the members CreateSlots gives them for one slot and a Take
    of "y" below the filter. *)
Definition node_y : Node := TDataFrameBranch "y" twice ["x"] TDataFrameImplNode.
Definition node_F : Node := TDataFrameFilter 0 (gt 2%float) ["y"] "F" node_y.
Definition take_y : TDataFrameAction := mkAction TakeOperation ["y"] node_F (Some 0%nat) (VColl []).
Definition slots_y_F : RunState :=
  mkRunState {[0%nat := FilterSlots_fresh 1]} {["y" := BranchSlots_fresh 1]}
    [[VColl []]] [] [].

(** Two filters on "x", x > 2 and x > 4, in either order, and the members
    CreateSlots gives two filters and the branch "y" for one slot. *)
Definition gt2_then_gt4 : Node :=
  TDataFrameFilter 1 (gt 4%float) ["x"] "gt4"
    (TDataFrameFilter 0 (gt 2%float) ["x"] "gt2" TDataFrameImplNode).
Definition gt4_then_gt2 : Node :=
  TDataFrameFilter 1 (gt 2%float) ["x"] "gt2"
    (TDataFrameFilter 0 (gt 4%float) ["x"] "gt4" TDataFrameImplNode).
Definition gt2_below_y : Node := TDataFrameFilter 0 (gt 2%float) ["x"] "gt2" node_y.
Definition gt2_alone : Node := TDataFrameFilter 0 (gt 2%float) ["x"] "gt2" TDataFrameImplNode.
Definition slots_two : RunState :=
  mkRunState (<[0%nat := FilterSlots_fresh 1]> {[1%nat := FilterSlots_fresh 1]})
    {["y" := BranchSlots_fresh 1]} [] [] [].

(** * Properties *)

(** ** Resolution of the branch names *)

Lemma providedBranches_from (bl : BranchNames) (n : nat) :
  fold_left (λ n s, if decide (s = "") then n else S n) bl n
  = (n + length (filter (λ s : string, s ≠ "") bl))%nat.
Proof.
  revert n. induction bl as [|s bl IH]; intros n.
  - simpl. lia.
  - cbn [fold_left]. rewrite IH, filter_cons.
    destruct (decide (s = "")), (decide (s ≠ "")); simpl; try lia; contradiction.
Qed.

Lemma providedBranches_filter (bl : BranchNames) :
  providedBranches bl = length (filter (λ s : string, s ≠ "") bl).
Proof. unfold providedBranches. by rewrite providedBranches_from. Qed.



(** ** Lazy and instant actions *)

Lemma BuildAndBook_lazy op bl init n w p w' :
  BuildAndBook op bl init n w = Ok (p, w') →
  state w' = state w ∧ output w' = output w
  ∧ HasRunAtLeastOnce w' = HasRunAtLeastOnce w
  ∧ readiness w' = readiness w ++ [false]
  ∧ fReadiness p = length (readiness w)
  ∧ results w' = results w ++ [init]
  ∧ fObjPtr p = length (results w)
  ∧ (fBookedActions <$> engine w')
    = ((λ df, fBookedActions df ++ [mkAction op bl n (Some (length (results w))) init])
         <$> engine w).
Proof.
  unfold BuildAndBook, GetDataFrameChecked, HasRunAtLeastOnce.
  destruct (engine w) as [df|] eqn:He; simpl; [|discriminate].
  intros [= <- <-]. simpl. rewrite He. simpl. repeat split; reflexivity.
Qed.

(** ** Report before the event loop has run *)

(** C6, as stated, fails: on a data frame that has not run, Report returns
    normally; no exception reaches the caller. *)
Lemma Report_before_run_no_exception :
  ¬ (∃ e, Report TDataFrameImplNode (frame_x [1%float]) = Throw e).
Proof. intros [e He]. vm_compute in He. discriminate He. Qed.

(** C6, amended. With the engine in scope and the event loop not yet run,
    Report on any node returns normally: it prints the Info message warning
    that all reports are empty, prints no filter statistics and changes
    nothing else. *)
Theorem Report_before_run_warns (n : Node) (w : World) (df : TDataFrameImpl)
    (Halive : engine w = Some df) (Hnotrun : fHasRunAtLeastOnce df = false) :
  Report n w
  = Ok (mkWorld (engine w) (state w) (results w) (readiness w)
          (output w ++
           [Info "TDataFrame::Report"
              "Warning: the event-loop has not been run yet, all reports are empty"])).
Proof.
  unfold Report, GetDataFrameChecked, print. rewrite Halive. simpl.
  by rewrite Hnotrun.
Qed.

Lemma Report_before_run_warns_witness :
  Report TDataFrameImplNode (frame_x [1%float])
  = Ok (mkWorld (engine (frame_x [1%float])) (state (frame_x [1%float]))
          (results (frame_x [1%float])) (readiness (frame_x [1%float]))
          (output (frame_x [1%float]) ++
           [Info "TDataFrame::Report"
              "Warning: the event-loop has not been run yet, all reports are empty"])).
Proof.
  apply (Report_before_run_warns TDataFrameImplNode (frame_x [1%float])
           (mkImpl [] [] ∅ [] (tree_of [1%float]) ["x"] (serial 1) ["x"] 1 false));
    reflexivity.
Defined.

(** ** The result proxy *)

Lemma length_set_ready (flags : list nat) (r : list bool) :
  length (set_ready flags r) = length r.
Proof. induction flags as [|i l IH]; simpl; [done|]. by rewrite length_insert. Qed.

Lemma set_ready_raised (flags : list nat) (r : list bool) (i : nat) :
  i ∈ flags → (i < length r)%nat → set_ready flags r !! i = Some true.
Proof.
  intros Hin Hlt. induction flags as [|j l IH]; simpl.
  - by apply elem_of_nil in Hin.
  - destruct (decide (i = j)) as [<-|Hne].
    + apply list_lookup_insert_eq. fold (set_ready l r). by rewrite length_set_ready.
    + rewrite list_lookup_insert_ne by done. apply IH.
      apply elem_of_cons in Hin as [?|?]; [contradiction|done].
Qed.

(** ** Fetching branch values leaves the filters alone *)

Lemma reads_refl rs : reads rs rs.
Proof. repeat split. by exists []. Qed.

Lemma reads_trans rs1 rs2 rs3 : reads rs1 rs2 → reads rs2 rs3 → reads rs1 rs3.
Proof.
  intros (Hf & Ho & evs & Ht & Hr) (Hf' & Ho' & evs' & Ht' & Hr').
  split; [congruence|]. split; [congruence|].
  exists (evs' ++ evs). rewrite Ht', Ht, app_assoc. split; [done|].
  by apply Forall_app.
Qed.

Lemma fevents_is_read id slot evs : Forall is_read evs → fevents id slot evs = [].
Proof.
  induction 1 as [|ev evs Hev _ IH]; [done|].
  destruct ev; simpl in Hev; try done; exact IH.
Qed.

Lemma aevents_is_read idx evs : Forall is_read evs → aevents idx evs = [].
Proof.
  induction 1 as [|ev evs Hev _ IH]; [done|].
  destruct ev; simpl in Hev; try done; exact IH.
Qed.

Lemma reads_fevents rs rs' id slot :
  reads rs rs' → fevents id slot (trace rs') = fevents id slot (trace rs).
Proof.
  intros (_ & _ & evs & -> & Hr). unfold fevents. rewrite omap_app.
  fold (fevents id slot evs). by rewrite fevents_is_read.
Qed.

Lemma reads_aevents rs rs' idx :
  reads rs rs' → aevents idx (trace rs') = aevents idx (trace rs).
Proof.
  intros (_ & _ & evs & -> & Hr). unfold aevents. rewrite omap_app.
  fold (aevents idx evs). by rewrite aevents_is_read.
Qed.

Lemma reads_expand_pack {A B} (g : A → RunState → option (B * RunState)) l :
  (∀ a rs b rs', a ∈ l → g a rs = Some (b, rs') → reads rs rs') →
  ∀ rs bs rs', expand_pack g l rs = Some (bs, rs') → reads rs rs'.
Proof.
  induction l as [|a l IH]; intros Hg rs bs rs' H; simpl in H.
  - injection H as <- <-. apply reads_refl.
  - destruct (g a rs) as [[b rs1]|] eqn:Ha; simpl in H; [|discriminate].
    destruct (expand_pack g l rs1) as [[bs' rs2]|] eqn:Hl; simpl in H; [|discriminate].
    injection H as <- <-.
    eapply reads_trans.
    + eapply Hg; [|exact Ha]. by left.
    + eapply IH; [|exact Hl]. intros. eapply Hg; [|done]. by right.
Qed.

Lemma reads_GetBranchValue tree resolve tmpbl slot entry branch rs v rs' :
  (∀ p rs1, resolve branch slot entry rs = Some (p, rs1) → reads rs rs1) →
  GetBranchValue tree resolve tmpbl slot entry branch rs = Some (v, rs') →
  reads rs rs'.
Proof.
  intros Hres. unfold GetBranchValue. destruct (isTmpBranch tmpbl branch).
  - destruct (resolve branch slot entry rs) as [[p rs1]|] eqn:Hr; simpl; [|discriminate].
    destruct (heap rs1 !! p); simpl; [|discriminate].
    intros [= <- <-]. by eapply Hres.
  - intros [= <- <-]. repeat split.
    exists [EvReadColumn branch slot entry]. split; [done|]. by repeat constructor.
Qed.

Lemma reads_GetValue tree resolve name e bl tmpbl slot entry rs p rs' :
  (∀ b p rs0 rs1, resolve b slot entry rs0 = Some (p, rs1) → reads rs0 rs1) →
  GetValue tree resolve name e bl tmpbl slot entry rs = Some (p, rs') →
  reads rs rs'.
Proof.
  intros Hres. unfold GetValue.
  destruct (branchSlots rs !! name) as [bs|]; simpl; [|discriminate].
  destruct (bLastCheckedEntry bs !! slot) as [last|]; simpl; [|discriminate].
  destruct (decide (entry ≠ last)).
  - destruct (expand_pack _ bl rs) as [[vals rs1]|] eqn:Hp; simpl; [|discriminate].
    destruct (branchSlots rs1 !! name) as [bs2|]; simpl; [|discriminate].
    destruct (vector_set (fLastResultPtr bs2) slot _); simpl; [|discriminate].
    destruct (vector_set (bLastCheckedEntry bs2) slot _); simpl; [|discriminate].
    intros [= <- <-].
    eapply reads_trans.
    + eapply reads_expand_pack; [|exact Hp].
      intros b rs0 v rs0' _ Hb. eapply reads_GetBranchValue; [|exact Hb]. eauto.
    + repeat split. exists [EvExpression name slot entry]. split; [done|].
      by repeat constructor.
  - destruct (fLastResultPtr bs !! slot) as [[q|]|]; simpl; try discriminate.
    intros [= <- <-]. apply reads_refl.
Qed.

Lemma reads_GetTmpBranchValue tree n branch slot entry rs p rs' :
  GetTmpBranchValue tree n branch slot entry rs = Some (p, rs') → reads rs rs'.
Proof.
  revert branch rs p rs'.
  induction n as [|id f bl name pd IH|name e bl pd IH]; intros branch rs p rs' H;
    simpl in H.
  - discriminate.
  - by eapply IH.
  - destruct (decide (branch = name)); [|by eapply IH].
    eapply reads_GetValue; [|exact H]. intros. by eapply IH.
Qed.

Lemma reads_inputs tree n tmpbl slot entry bl rs vals rs' :
  expand_pack (GetBranchValue tree (GetTmpBranchValue tree n) tmpbl slot entry) bl rs
  = Some (vals, rs') →
  reads rs rs'.
Proof.
  apply reads_expand_pack. intros b rs0 v rs1 _ Hb.
  eapply reads_GetBranchValue; [|exact Hb]. intros. by eapply reads_GetTmpBranchValue.
Qed.

(** ** One call of CheckFilters on a filter, case by case *)

Lemma vector_set_Some {A} (v : list A) i x v' :
  vector_set v i x = Some v' → (i < length v)%nat ∧ v' = <[i := x]> v.
Proof. unfold vector_set. destruct (decide _); [|discriminate]. by intros [= <-]. Qed.

Lemma insert_alter_lookup {A} (f : A → A) (l : list A) i x :
  l !! i = Some x → <[i := f x]> l = alter f i l.
Proof.
  revert i. induction l as [|y l IH]; intros [|i] H; simpl in *; try discriminate.
  - by injection H as ->.
  - f_equal. by apply IH.
Qed.

Lemma CheckFilters_filter_inv tree id f bl name pd slot entry rs r rs' :
  CheckFilters tree (TDataFrameFilter id f bl name pd) slot entry rs = Some (r, rs') →
  ∃ fs last,
    filterSlots rs !! id = Some fs ∧ fLastCheckedEntry fs !! slot = Some last ∧
    ((entry = last ∧ rs' = rs
      ∧ ∃ v, fLastResult fs !! slot = Some v ∧ r = negb (v =? 0))
     ∨ (entry ≠ last ∧ r = false ∧ ∃ rs1 fs1,
          CheckFilters tree pd slot entry rs = Some (false, rs1)
          ∧ filterSlots rs1 !! id = Some fs1
          ∧ (slot < length (fLastResult fs1))%nat
          ∧ (slot < length (fLastCheckedEntry fs1))%nat
          ∧ rs' = mkRunState (<[id := filter_checked fs1 slot entry None]> (filterSlots rs1))
                    (branchSlots rs1) (opSlots rs1) (heap rs1) (trace rs1))
     ∨ (entry ≠ last ∧ ∃ rs1 vals rs2 fs2,
          CheckFilters tree pd slot entry rs = Some (true, rs1)
          ∧ expand_pack (GetBranchValue tree (GetTmpBranchValue tree pd)
                           (GetTmpBranches pd) slot entry) bl rs1 = Some (vals, rs2)
          ∧ r = f vals
          ∧ filterSlots rs2 !! id = Some fs2
          ∧ (slot < length (fLastResult fs2))%nat
          ∧ (slot < length (fLastCheckedEntry fs2))%nat
          ∧ (slot < length (if f vals then fAccepted fs2 else fRejected fs2))%nat
          ∧ rs' = mkRunState
                    (<[id := filter_checked fs2 slot entry (Some (f vals))]> (filterSlots rs2))
                    (branchSlots rs2) (opSlots rs2) (heap rs2)
                    (EvFilter id slot entry (f vals) :: trace rs2))).
Proof.
  cbn [CheckFilters]. intros H.
  destruct (filterSlots rs !! id) as [fs|] eqn:Hfs; simpl in H; [|discriminate].
  destruct (fLastCheckedEntry fs !! slot) as [last|] eqn:Hlast; simpl in H; [|discriminate].
  exists fs, last. split; [done|]. split; [done|].
  destruct (decide (entry ≠ last)) as [Hne|Heq].
  - right.
    destruct (CheckFilters tree pd slot entry rs) as [[up rs1]|] eqn:Hup;
      simpl in H; [|discriminate].
    destruct up; simpl in H.
    + right. split; [done|].
      unfold CheckFilterHelper in H.
      destruct (expand_pack _ bl rs1) as [[vals rs2]|] eqn:Hvals; simpl in H; [|discriminate].
      unfold count_passed, set_LastResult, set_LastCheckedEntry in H. simpl in H.
      destruct (filterSlots rs2 !! id) as [fs2|] eqn:Hfs2; simpl in H; [|discriminate].
      exists rs1, vals, rs2, fs2.
      destruct (f vals) eqn:Hf; simpl in H.
      * destruct (fAccepted fs2 !! slot) as [a|] eqn:Ha; simpl in H; [|discriminate].
        destruct (vector_set (fAccepted fs2) slot _) as [va|] eqn:Hva; simpl in H;
          [|discriminate].
        apply vector_set_Some in Hva as [Hla ->].
        rewrite lookup_insert_eq in H. simpl in H.
        destruct (vector_set (fLastResult fs2) slot _) as [vr|] eqn:Hvr; simpl in H;
          [|discriminate].
        apply vector_set_Some in Hvr as [Hlr ->].
        rewrite lookup_insert_eq in H. simpl in H.
        destruct (vector_set (fLastCheckedEntry fs2) slot _) as [vl|] eqn:Hvl; simpl in H;
          [|discriminate].
        apply vector_set_Some in Hvl as [Hll ->].
        rewrite lookup_insert_eq in H. simpl in H.
        rewrite list_lookup_insert_eq in H by done. simpl in H.
        injection H as <- <-.
        repeat split; try done.
        unfold set_filterSlots, log, filter_checked. simpl.
        rewrite !insert_insert_eq. by rewrite (insert_alter_lookup _ _ _ _ Ha).
      * destruct (fRejected fs2 !! slot) as [a|] eqn:Ha; simpl in H; [|discriminate].
        destruct (vector_set (fRejected fs2) slot _) as [va|] eqn:Hva; simpl in H;
          [|discriminate].
        apply vector_set_Some in Hva as [Hla ->].
        rewrite lookup_insert_eq in H. simpl in H.
        destruct (vector_set (fLastResult fs2) slot _) as [vr|] eqn:Hvr; simpl in H;
          [|discriminate].
        apply vector_set_Some in Hvr as [Hlr ->].
        rewrite lookup_insert_eq in H. simpl in H.
        destruct (vector_set (fLastCheckedEntry fs2) slot _) as [vl|] eqn:Hvl; simpl in H;
          [|discriminate].
        apply vector_set_Some in Hvl as [Hll ->].
        rewrite lookup_insert_eq in H. simpl in H.
        rewrite list_lookup_insert_eq in H by done. simpl in H.
        injection H as <- <-.
        repeat split; try done.
        unfold set_filterSlots, log, filter_checked. simpl.
        rewrite !insert_insert_eq. by rewrite (insert_alter_lookup _ _ _ _ Ha).
    + left. split; [done|].
      unfold set_LastResult, set_LastCheckedEntry in H. simpl in H.
      destruct (filterSlots rs1 !! id) as [fs1|] eqn:Hfs1; simpl in H; [|discriminate].
      destruct (vector_set (fLastResult fs1) slot _) as [vr|] eqn:Hvr; simpl in H;
        [|discriminate].
      apply vector_set_Some in Hvr as [Hlr ->].
      rewrite lookup_insert_eq in H. simpl in H.
      destruct (vector_set (fLastCheckedEntry fs1) slot _) as [vl|] eqn:Hvl; simpl in H;
        [|discriminate].
      apply vector_set_Some in Hvl as [Hll ->].
      rewrite lookup_insert_eq in H. simpl in H.
      rewrite list_lookup_insert_eq in H by done. simpl in H.
      injection H as <- <-.
      split; [done|]. exists rs1, fs1. repeat split; try done.
      unfold set_filterSlots, filter_checked. simpl. by rewrite !insert_insert_eq.
  - left. apply dec_stable in Heq. split; [done|].
    simpl in H. rewrite Hfs in H. simpl in H.
    destruct (fLastResult fs !! slot) as [v|] eqn:Hv; simpl in H; [|discriminate].
    injection H as <- <-. split; [done|]. by exists v.
Qed.

(** ** What CheckFilters leaves untouched *)

Lemma fevents_cons_filter id slot id' slot' entry passed tr :
  fevents id slot (EvFilter id' slot' entry passed :: tr)
  = if decide (id' = id ∧ slot' = slot) then (entry, passed) :: fevents id slot tr
    else fevents id slot tr.
Proof. unfold fevents. simpl. by destruct (decide _). Qed.

Lemma CheckFilters_frame tree n slot entry rs r rs' :
  CheckFilters tree n slot entry rs = Some (r, rs') →
  opSlots rs' = opSlots rs
  ∧ (∀ idx, aevents idx (trace rs') = aevents idx (trace rs))
  ∧ (∀ id, id ∉ filter_ids n →
       filterSlots rs' !! id = filterSlots rs !! id
       ∧ ∀ s, fevents id s (trace rs') = fevents id s (trace rs))
  ∧ (∀ id s, s ≠ slot → fevents id s (trace rs') = fevents id s (trace rs)).
Proof.
  revert rs r rs'.
  induction n as [|id f bl name pd IH|name e bl pd IH]; intros rs r rs' H.
  - simpl in H. by injection H as <- <-.
  - apply CheckFilters_filter_inv in H
      as (fs & last & Hfs & Hlast &
          [(-> & -> & _)|[(Hne & -> & rs1 & fs1 & Hup & Hfs1 & _ & _ & ->)
                         |(Hne & rs1 & vals & rs2 & fs2 & Hup & Hvals & -> & Hfs2 & _ & _ & _ & ->)]]).
    + done.
    + apply IH in Hup as (Ho & Ha & Hf & Hs). simpl.
      repeat split; try done.
      * apply not_elem_of_cons in H as [Hid Hpd].
        rewrite lookup_insert_ne by done. by apply Hf.
      * apply not_elem_of_cons in H as [Hid Hpd]. by apply Hf.
    + apply IH in Hup as (Ho & Ha & Hf & Hs).
      apply reads_inputs in Hvals as Hreads.
      assert (Hfe : ∀ i s, fevents i s (trace rs2) = fevents i s (trace rs1))
        by (intros; by apply reads_fevents).
      assert (Hae : ∀ i, aevents i (trace rs2) = aevents i (trace rs1))
        by (intros; by apply reads_aevents).
      destruct Hreads as (Hrf & Hro & _). cbn [trace filterSlots opSlots].
      repeat split.
      * congruence.
      * intros idx. change (aevents idx (EvFilter id slot entry (f vals) :: trace rs2))
          with (aevents idx (trace rs2)).
        by rewrite Hae.
      * apply not_elem_of_cons in H as [Hid Hpd].
        rewrite lookup_insert_ne by done. rewrite Hrf. by apply Hf.
      * apply not_elem_of_cons in H as [Hid Hpd].
        intros s. rewrite fevents_cons_filter, decide_False by (intros [? _]; done).
        rewrite Hfe. by apply Hf.
      * intros i s Hs'. rewrite fevents_cons_filter, decide_False by (intros [_ ?]; done).
        rewrite Hfe. by apply Hs.
  - simpl in H. by apply IH in H.
Qed.

(** ** The invariant of the filters is kept by CheckFilters *)

Lemma ULong64_incr_count (c : nat) :
  ULong64_incr (N.of_nat c mod 2 ^ 64)%N = (N.of_nat (S c) mod 2 ^ 64)%N.
Proof.
  unfold ULong64_incr. rewrite N.Div0.add_mod_idemp_l.
  by rewrite Nat2N.inj_succ, N.add_1_r.
Qed.

Lemma count_outcome_cons b e b' evs :
  count_outcome b ((e, b') :: evs)
  = if decide (b' = b) then S (count_outcome b evs) else count_outcome b evs.
Proof.
  unfold count_outcome. rewrite filter_cons. simpl. by destruct (decide (b' = b)).
Qed.

Lemma reads_filters_ok P n tr0 bound rs rs' :
  reads rs rs' → filters_ok P n tr0 bound rs → filters_ok P n tr0 bound rs'.
Proof.
  intros Hr Hok id HP.
  destruct (Hok id HP) as (fs & Hfs & Hsz & Hcell).
  exists fs. destruct (Hr) as (Hf & _). rewrite Hf.
  split; [done|]. split; [done|]. intros slot.
  rewrite (reads_fevents _ _ _ _ Hr). apply Hcell.
Qed.

Lemma filter_checked_sized n fs slot entry o :
  slots_sized n fs → slots_sized n (filter_checked fs slot entry o).
Proof.
  unfold slots_sized. intros (H1 & H2 & H3).
  destruct o as [[|]|]; simpl; by rewrite ?length_alter, ?length_insert.
Qed.

Lemma cell_ok_other_slot fs evs s slot entry o bound :
  s ≠ slot → cell_ok fs evs s bound →
  cell_ok (filter_checked fs slot entry o) evs s bound.
Proof.
  intros Hs (H1 & H3 & H4 & H5). unfold cell_ok, filter_checked. simpl.
  rewrite list_lookup_insert_ne by done.
  split; [done|]. split; [done|]. split.
  - intros a. destruct o as [[|]|]; rewrite ?list_lookup_alter_ne by done; apply H4.
  - intros a. destruct o as [[|]|]; rewrite ?list_lookup_alter_ne by done; apply H5.
Qed.

Lemma cell_ok_rejected_upstream fs evs slot entry last :
  fLastCheckedEntry fs !! slot = Some last →
  cell_ok fs evs slot entry →
  cell_ok (filter_checked fs slot entry None) evs slot entry.
Proof.
  intros Hlast (H1 & H3 & H4 & H5). unfold cell_ok, filter_checked. simpl.
  destruct (H1 last Hlast) as [Hle H2].
  rewrite list_lookup_insert_eq by (by eapply lookup_lt_Some).
  split; [|done]. intros last' [= <-]. split; [done|].
  intros e b Hin. specialize (H2 e b Hin). lia.
Qed.

Lemma cell_ok_evaluated fs evs slot entry b last :
  fLastCheckedEntry fs !! slot = Some last → entry ≠ last →
  cell_ok fs evs slot entry →
  cell_ok (filter_checked fs slot entry (Some b)) ((entry, b) :: evs) slot entry.
Proof.
  intros Hlast Hne (H1 & H3 & H4 & H5). unfold cell_ok, filter_checked. simpl.
  destruct (H1 last Hlast) as [Hle H2].
  rewrite list_lookup_insert_eq by (by eapply lookup_lt_Some).
  split; [|split; [|split]].
  - intros last' [= <-]. split; [done|].
    intros e b' [[= -> ->]|Hin]%elem_of_cons; [done|]. specialize (H2 e b' Hin). lia.
  - apply NoDup_cons. split; [|done].
    intros ((e & b') & He & Hin)%list_elem_of_fmap. simpl in He. subst e.
    specialize (H2 entry b' Hin). lia.
  - intros a. rewrite count_outcome_cons. destruct b.
    + rewrite list_lookup_alter, decide_True by done.
      destruct (fAccepted fs !! slot) as [a0|] eqn:Ha; simpl; [|discriminate].
      intros [= <-]. rewrite (H4 a0 eq_refl). apply ULong64_incr_count.
    + rewrite decide_False by done. apply H4.
  - intros a. rewrite count_outcome_cons. destruct b.
    + rewrite decide_False by done. apply H5.
    + rewrite list_lookup_alter, decide_True by done.
      destruct (fRejected fs !! slot) as [a0|] eqn:Ha; simpl; [|discriminate].
      intros [= <-]. rewrite (H5 a0 eq_refl). apply ULong64_incr_count.
Qed.

Lemma CheckFilters_ok tree n slot entry rs r rs' P nSlots tr0 bound :
  NoDup (filter_ids n) → bound slot = entry → filters_ok P nSlots tr0 bound rs →
  CheckFilters tree n slot entry rs = Some (r, rs') →
  filters_ok P nSlots tr0 bound rs'.
Proof.
  intros Hnd Hb. revert rs r rs'.
  induction n as [|id f bl name pd IH|name e bl pd IH]; intros rs r rs' Hok H.
  - simpl in H. by injection H as <- <-.
  - simpl in Hnd. apply NoDup_cons in Hnd as [Hid Hnd].
    apply CheckFilters_filter_inv in H
      as (fs & last & Hfs & Hlast &
          [(-> & -> & _)|[(Hne & -> & rs1 & fs1 & Hup & Hfs1 & _ & _ & ->)
                         |(Hne & rs1 & vals & rs2 & fs2 & Hup & Hvals & -> & Hfs2 & _ & _ & _ & ->)]]).
    + done.
    + pose proof (CheckFilters_frame _ _ _ _ _ _ _ Hup) as (_ & _ & Hfr & _).
      destruct (Hfr id Hid) as [Hsame _].
      assert (fs1 = fs) as -> by congruence.
      apply (IH Hnd) in Hup; [|done].
      intros id' HP. cbn [filterSlots trace] in *.
      destruct (Hup id' HP) as (fs' & Hlook & Hsz & Hcells).
      destruct (decide (id' = id)) as [->|Hid'].
      * assert (fs' = fs) as -> by congruence.
        exists (filter_checked fs slot entry None).
        rewrite lookup_insert_eq. split; [done|].
        split; [by apply filter_checked_sized|]. intros s.
        destruct (Hcells s) as (evs & Hevs & Hcell).
        exists evs. split; [done|].
        destruct (decide (s = slot)) as [->|Hs].
        -- rewrite Hb in *. by eapply cell_ok_rejected_upstream.
        -- by apply cell_ok_other_slot.
      * exists fs'. by rewrite lookup_insert_ne.
    + pose proof (CheckFilters_frame _ _ _ _ _ _ _ Hup) as (_ & _ & Hfr & _).
      destruct (Hfr id Hid) as [Hsame _].
      apply reads_inputs in Hvals as Hreads.
      assert (fs2 = fs) as ->.
      { destruct Hreads as (Hrf & _). congruence. }
      apply (IH Hnd) in Hup; [|done].
      apply (reads_filters_ok P nSlots tr0 bound _ _ Hreads) in Hup.
      intros id' HP. cbn [filterSlots trace] in *.
      destruct (Hup id' HP) as (fs' & Hlook & Hsz & Hcells).
      destruct (decide (id' = id)) as [->|Hid'].
      * assert (fs' = fs) as -> by congruence.
        exists (filter_checked fs slot entry (Some (f vals))).
        rewrite lookup_insert_eq. split; [done|].
        split; [by apply filter_checked_sized|]. intros s.
        destruct (Hcells s) as (evs & Hevs & Hcell).
        rewrite fevents_cons_filter.
        destruct (decide (s = slot)) as [->|Hs].
        -- rewrite decide_True by done. exists ((entry, f vals) :: evs).
           split; [by rewrite Hevs|].
           rewrite Hb in *. by eapply cell_ok_evaluated.
        -- rewrite decide_False by (intros [_ ?]; done).
           exists evs. split; [done|]. by apply cell_ok_other_slot.
      * exists fs'. rewrite lookup_insert_ne by done.
        split; [done|]. split; [done|]. intros s.
        rewrite fevents_cons_filter, decide_False by (intros [? _]; done). apply Hcells.
  - simpl in *. by eapply IH.
Qed.

(** ** The invariant of the filters is kept by the event loop *)

Lemma untouched_refl idx rs : untouched idx rs rs.
Proof. by split. Qed.

Lemma untouched_trans idx rs1 rs2 rs3 :
  untouched idx rs1 rs2 → untouched idx rs2 rs3 → untouched idx rs1 rs3.
Proof.
  intros [H1 H1'] [H2 H2']. split; [lia|].
  intros Heq. rewrite H2' by lia. apply H1'. lia.
Qed.

Lemma ExecuteAction_frame tree idx a slot entry rs rs' :
  ExecuteAction tree idx a slot entry rs = Some rs' →
  filterSlots rs' = filterSlots rs
  ∧ (∀ id s, fevents id s (trace rs') = fevents id s (trace rs))
  ∧ (∀ idx', untouched idx' rs rs').
Proof.
  unfold ExecuteAction. intros H.
  destruct (expand_pack _ (aBranches a) rs) as [[vals rs1]|] eqn:Hvals; simpl in H;
    [|discriminate].
  apply reads_inputs in Hvals as Hreads.
  destruct (opSlots rs1 !! idx) as [partials|] eqn:Hp; simpl in H; [|discriminate].
  destruct (partials !! slot) as [partial|]; simpl in H; [|discriminate].
  destruct (vector_set partials slot _) as [partials'|]; simpl in H; [|discriminate].
  injection H as <-. cbn [filterSlots trace opSlots set_opSlots log].
  split; [by destruct Hreads|]. split.
  - intros id s. change (fevents id s (EvAction idx slot entry :: trace rs1))
      with (fevents id s (trace rs1)). by apply reads_fevents.
  - intros idx'. unfold untouched. cbn [trace opSlots set_opSlots log].
    pose proof (reads_aevents _ _ idx' Hreads) as Hae.
    destruct Hreads as (_ & Ho & _).
    destruct (decide (idx = idx')) as [->|Hne].
    + replace (aevents idx' (EvAction idx' slot entry :: trace rs1))
        with ((slot, entry) :: aevents idx' (trace rs1))
        by (unfold aevents; simpl; by rewrite decide_True).
      rewrite Hae. simpl. split; lia.
    + replace (aevents idx' (EvAction idx slot entry :: trace rs1))
        with (aevents idx' (trace rs1))
        by (unfold aevents; simpl; by rewrite decide_False).
      rewrite Hae. split; [lia|]. intros _.
      rewrite list_lookup_insert_ne by done. by rewrite Ho.
Qed.

Lemma filters_ok_handed P n tr0 bound rs slot entry :
  bound slot ≤ entry → filters_ok P n tr0 bound rs →
  filters_ok P n tr0 (handed bound slot entry) rs.
Proof.
  intros Hle Hok id HP. destruct (Hok id HP) as (fs & Hfs & Hsz & Hcells).
  exists fs. split; [done|]. split; [done|]. intros s.
  destruct (Hcells s) as (evs & Hevs & Hcell). exists evs. split; [done|].
  destruct Hcell as (H1 & H2). split; [|done].
  intros last Hlast. destruct (H1 last Hlast) as [Hb He]. split; [|done].
  unfold handed. destruct (decide (s = slot)) as [->|]; lia.
Qed.

Lemma Action_Run_ok tree idx a slot entry rs rs' P n tr0 bound :
  NoDup (filter_ids (aPrevData a)) → bound slot = entry →
  filters_ok P n tr0 bound rs →
  Action_Run tree idx a slot entry rs = Some rs' →
  filters_ok P n tr0 bound rs' ∧ ∀ idx', untouched idx' rs rs'.
Proof.
  intros Hnd Hb Hok. unfold Action_Run. intros H.
  destruct (CheckFilters tree (aPrevData a) slot entry rs) as [[passed rs1]|] eqn:Hc;
    simpl in H; [|discriminate].
  pose proof (CheckFilters_frame _ _ _ _ _ _ _ Hc) as (Ho & Hae & _).
  assert (Hun : ∀ idx', untouched idx' rs rs1).
  { intros idx'. split; rewrite Hae; [lia|]. by rewrite Ho. }
  eapply CheckFilters_ok in Hc; [|done..].
  destruct passed.
  - apply ExecuteAction_frame in H as (Hf & Hfe & Hun').
    split; [|intros; by eapply untouched_trans].
    intros id HP. destruct (Hc id HP) as (fs & Hfs & Hsz & Hcells).
    exists fs. rewrite Hf.
    split; [done|]. split; [done|]. intros s. rewrite Hfe. apply Hcells.
  - by injection H as <-.
Qed.

Lemma RunActions_ok tree idx actions slot entry rs rs' P n tr0 bound :
  chains_ok actions → bound slot = entry →
  filters_ok P n tr0 bound rs →
  RunActions tree idx actions slot entry rs = Some rs' →
  filters_ok P n tr0 bound rs'
  ∧ ∀ idx', untouched idx' rs rs'.
Proof.
  intros Hch Hb. revert idx rs.
  induction actions as [|a actions IH]; intros idx rs Hok H; simpl in H.
  - injection H as <-. split; [done|]. intros. apply untouched_refl.
  - destruct (Action_Run tree idx a slot entry rs) as [rs1|] eqn:Ha; simpl in H;
      [|discriminate].
    eapply Action_Run_ok in Ha as [Hok1 Hun1]; [|by (apply Hch; left)|done..].
    eapply IH in H as [Hok2 Hun2]; [| |done].
    + split; [done|]. intros. by eapply untouched_trans.
    + intros a' Hin. apply Hch. by right.
Qed.

Lemma RunEntries_ok tree actions entries rs rs' P n tr0 bound :
  chains_ok actions → ascending bound entries →
  filters_ok P n tr0 bound rs →
  RunEntries tree actions entries rs = Some rs' →
  (∃ bound', filters_ok P n tr0 bound' rs')
  ∧ ∀ idx', untouched idx' rs rs'.
Proof.
  intros Hch. revert bound rs.
  induction entries as [|[slot entry] entries IH]; intros bound rs Hasc Hok H; simpl in H.
  - injection H as <-. split; [by exists bound|]. intros. apply untouched_refl.
  - destruct Hasc as [Hle Hasc].
    destruct (RunActions tree 0 actions slot entry rs) as [rs1|] eqn:Ha; simpl in H;
      [|discriminate].
    eapply (RunActions_ok _ _ _ _ _ _ _ P n tr0 (handed bound slot entry))
      in Ha as [Hok1 Hun1]; [|done| |].
    + eapply IH in H as [Hok2 Hun2]; [|done..].
      split; [done|]. intros. by eapply untouched_trans.
    + unfold handed. by rewrite decide_True.
    + by apply filters_ok_handed.
Qed.

(** ** The state the event loop starts from *)

Lemma CreateSlots_filter_lookup n (l : list Node) m id f bl name pd :
  TDataFrameFilter id f bl name pd ∈ l →
  foldr (CreateSlots_filter n) m l !! id = Some (FilterSlots_fresh n).
Proof.
  induction l as [|x l IH]; intros Hin.
  - by apply elem_of_nil in Hin.
  - simpl. apply elem_of_cons in Hin as [<-|Hin].
    + simpl. apply lookup_insert_eq.
    + destruct x as [|id' f' bl' name' pd'|]; simpl; auto.
      destruct (decide (id' = id)) as [->|Hne].
      * apply lookup_insert_eq.
      * rewrite lookup_insert_ne by done. auto.
Qed.

Lemma cell_ok_fresh n slot : cell_ok (FilterSlots_fresh n) [] slot (-1).
Proof.
  split; [|split; [|split]].
  - intros last [-> _]%lookup_replicate. split; [done|].
    intros e b Hin. by apply elem_of_nil in Hin.
  - constructor.
  - intros a [-> _]%lookup_replicate. done.
  - intros a [-> _]%lookup_replicate. done.
Qed.

Lemma CreateSlots_ok df rs :
  filters_ok (booked_filter df) (fNSlots df) (trace rs) (λ _, -1) (CreateSlots df rs).
Proof.
  intros id (f & bl & name & pd & Hin). cbn [CreateSlots filterSlots trace] in *.
  exists (FilterSlots_fresh (fNSlots df)).
  rewrite (CreateSlots_filter_lookup _ _ _ _ _ _ _ _ Hin).
  split; [done|]. split; [by unfold slots_sized; simpl; rewrite !length_replicate|].
  intros slot. exists []. split; [done|]. apply cell_ok_fresh.
Qed.

Lemma ascending_take bound entries k :
  ascending bound entries → ascending bound (take k entries).
Proof.
  revert bound k. induction entries as [|[slot entry] entries IH]; intros bound [|k]; simpl;
    try done.
  intros [Hle Hasc]. split; [done|]. by apply IH.
Qed.

Lemma count_outcome_total evs :
  (count_outcome true evs + count_outcome false evs)%nat = length evs.
Proof.
  induction evs as [|[e b] evs IH]; [done|].
  rewrite !count_outcome_cons.
  destruct b; repeat case_decide; simpl; try congruence; lia.
Qed.

Lemma count_outcome_le b evs : (count_outcome b evs ≤ length evs)%nat.
Proof. pose proof (count_outcome_total evs). destruct b; lia. Qed.

(** What the event loop guarantees about every booked filter once any number
    [k] of entries has been handed out. *)
Lemma event_loop_filters df rs0 k rs' :
  chains_ok (fBookedActions df) → ascending (λ _, -1) (fEntries df) →
  RunEntries (fTree df) (fBookedActions df) (take k (fEntries df)) (CreateSlots df rs0)
  = Some rs' →
  ∃ bound, filters_ok (booked_filter df) (fNSlots df) (trace rs0) bound rs'.
Proof.
  intros Hch Hasc H.
  eapply RunEntries_ok in H as [Hok _]; [done|done| |].
  - by apply ascending_take.
  - apply CreateSlots_ok.
Qed.

(** ** Filters: memoization *)

(** C2. A call of CheckFilters on a filter for the entry it examined last on
    the slot returns the memoized result and leaves the state, and so the
    trace, as it is: the predicate is not called.  Consequently, at any
    point of the event loop, the entries on which the predicate of a booked
    filter has been called on a slot since the loop started are pairwise
    distinct: at most one call per (slot, entry), whatever the number of
    actions below the filter. *)
Theorem filter_memoized_at_most_once :
  (∀ tree id f bl name pd slot entry rs fs v,
     filterSlots rs !! id = Some fs →
     fLastCheckedEntry fs !! slot = Some entry →
     fLastResult fs !! slot = Some v →
     CheckFilters tree (TDataFrameFilter id f bl name pd) slot entry rs
     = Some (negb (v =? 0), rs))
  ∧ (∀ df rs0 k rs',
       chains_ok (fBookedActions df) → ascending (λ _, -1) (fEntries df) →
       RunEntries (fTree df) (fBookedActions df) (take k (fEntries df))
         (CreateSlots df rs0) = Some rs' →
       ∀ id slot, booked_filter df id →
         ∃ evs, fevents id slot (trace rs') = evs ++ fevents id slot (trace rs0)
                ∧ NoDup evs.*1).
Proof.
  split.
  - intros tree id f bl name pd slot entry rs fs v Hfs Hlast Hv.
    cbn [CheckFilters]. rewrite Hfs. simpl. rewrite Hlast. simpl.
    rewrite decide_False by (intros ?; done). simpl.
    rewrite Hfs. simpl. by rewrite Hv.
  - intros df rs0 k rs' Hch Hasc H id slot Hid.
    destruct (event_loop_filters _ _ _ _ Hch Hasc H) as [bound Hok].
    destruct (Hok id Hid) as (fs & Hfs & (Hl & _ & _) & Hcells).
    destruct (Hcells slot) as (evs & Hevs & Hcell).
    exists evs. split; [done|]. by destruct Hcell as (_ & Hnd & _).
Qed.

Lemma chained_chains_ok l : chains_ok (fBookedActions (engine_of (chained l))).
Proof.
  intros a Hin. vm_compute in Hin.
  repeat (apply elem_of_cons in Hin as [->|Hin]); [| |by apply elem_of_nil in Hin];
    apply (bool_decide_unpack _); by vm_compute.
Qed.

Lemma chained_booked_0 l : booked_filter (engine_of (chained l)) 0.
Proof. exists (gt 2%float), ["x"], "F1", TDataFrameImplNode. vm_compute. by left. Qed.

Lemma filter_memoized_at_most_once_witness :
  ∃ rs' evs,
    RunEntries (tree_of [1; 3; 5]%float)
      (fBookedActions (engine_of (chained [1; 3; 5]%float)))
      (take 3 (fEntries (engine_of (chained [1; 3; 5]%float))))
      (CreateSlots (engine_of (chained [1; 3; 5]%float))
         (state (chained [1; 3; 5]%float))) = Some rs'
    ∧ fevents 0 0 (trace rs') = evs ∧ NoDup evs.*1
    ∧ CheckFilters (tree_of [1; 3; 5]%float)
        (TDataFrameFilter 0 (gt 2%float) ["x"] "F1" TDataFrameImplNode) 0 2 rs'
      = Some (negb (1 =? 0), rs').
Proof.
  destruct filter_memoized_at_most_once as [Hmemo Honce].
  destruct (RunEntries _ _ _ _) as [rs'|] eqn:HR; [|vm_compute in HR; discriminate HR].
  destruct (Honce (engine_of (chained [1; 3; 5]%float))
              (state (chained [1; 3; 5]%float)) 3%nat rs'
              (chained_chains_ok _)) with (id := 0%nat) (slot := 0%nat)
    as (evs & Hevs & Hnd).
  - vm_compute. repeat split; discriminate.
  - exact HR.
  - apply chained_booked_0.
  - exists rs', evs. split; [done|]. split; [by rewrite Hevs, app_nil_r|].
    split; [done|].
    vm_compute in HR. injection HR as <-.
    eapply Hmemo; vm_compute; reflexivity.
Defined.

(** ** Filters: the counters *)

Lemma sum_N_from (l : list N) (a : N) : fold_left N.add l a = (a + sum_N l)%N.
Proof.
  unfold sum_N. revert a. induction l as [|x l IH]; intros a; cbn [fold_left].
  - lia.
  - rewrite (IH (a + x)%N), (IH (0 + x)%N). lia.
Qed.

Lemma sum_N_cons (x : N) (l : list N) : sum_N (x :: l) = (x + sum_N l)%N.
Proof. unfold sum_N at 1. simpl. by rewrite sum_N_from. Qed.

Lemma sum_N_pointwise (la lr : list N) (g : nat → N) :
  length la = length lr →
  (∀ s a r, la !! s = Some a → lr !! s = Some r → (a + r)%N = g s) →
  (sum_N la + sum_N lr)%N = sum_N (g <$> seq 0 (length la)).
Proof.
  revert lr g. induction la as [|a la IH]; intros [|r lr] g Hlen Hg; simpl in Hlen;
    try discriminate.
  - done.
  - injection Hlen as Hlen. cbn [length seq fmap list_fmap].
    rewrite !sum_N_cons, <- fmap_S_seq, <- list_fmap_compose.
    rewrite <- (IH lr (g ∘ S) Hlen).
    + rewrite <- (Hg 0%nat a r eq_refl eq_refl). lia.
    + intros s a' r' Ha Hr. by apply (Hg (S s)).
Qed.

Lemma counters_sum evs (a r : N) :
  a = (N.of_nat (count_outcome true evs) mod 2 ^ 64)%N →
  r = (N.of_nat (count_outcome false evs) mod 2 ^ 64)%N →
  (N.of_nat (length evs) < 2 ^ 64)%N →
  (a + r)%N = N.of_nat (length evs).
Proof.
  intros -> -> Hlt.
  pose proof (count_outcome_total evs). pose proof (count_outcome_le true evs).
  pose proof (count_outcome_le false evs).
  rewrite !N.mod_small by lia. lia.
Qed.

(** C9. At every point of the event loop (after any number [k] of entries has
    been handed out, the end included), for every booked filter and every
    slot: the accepted counter and the rejected counter count the calls of the
    filter's own predicate on that slot that returned true and false, the
    entries of these calls are pairwise distinct, and, ULong64_t not
    overflowing, accepted + rejected is the number of these calls, that is of
    the distinct entries on which the predicate was evaluated on the slot; an
    entry rejected upstream is no call and is counted by neither.  Summed over
    the slots, the counters give the number of calls on all slots, the entries
    that reached the filter. *)
Theorem filter_counters_count_calls df rs0 k rs'
    (Hchains : chains_ok (fBookedActions df))
    (Hasc : ascending (λ _, -1) (fEntries df))
    (Hloop : RunEntries (fTree df) (fBookedActions df) (take k (fEntries df))
               (CreateSlots df rs0) = Some rs') :
  ∀ id, booked_filter df id →
    ∃ fs, filterSlots rs' !! id = Some fs
      ∧ (∀ slot, (slot < fNSlots df)%nat → ∃ a r evs,
           fAccepted fs !! slot = Some a ∧ fRejected fs !! slot = Some r
           ∧ fevents id slot (trace rs') = evs ++ fevents id slot (trace rs0)
           ∧ NoDup evs.*1
           ∧ length evs = ncalls id slot (trace rs0) (trace rs')
           ∧ a = (N.of_nat (count_outcome true evs) mod 2 ^ 64)%N
           ∧ r = (N.of_nat (count_outcome false evs) mod 2 ^ 64)%N
           ∧ ((N.of_nat (length evs) < 2 ^ 64)%N → (a + r)%N = N.of_nat (length evs)))
      ∧ ((∀ slot, (N.of_nat (ncalls id slot (trace rs0) (trace rs')) < 2 ^ 64)%N) →
         (sum_N (fAccepted fs) + sum_N (fRejected fs))%N
         = sum_N ((λ slot, N.of_nat (ncalls id slot (trace rs0) (trace rs')))
                    <$> seq 0 (fNSlots df))).
Proof.
  intros id Hid.
  destruct (event_loop_filters _ _ _ _ Hchains Hasc Hloop) as [bound Hok].
  destruct (Hok id Hid) as (fs & Hfs & (Hl & Hla & Hlr) & Hcells).
  exists fs. split; [done|].
  assert (Hslot : ∀ slot a r,
            fAccepted fs !! slot = Some a → fRejected fs !! slot = Some r →
            ∃ evs, fevents id slot (trace rs') = evs ++ fevents id slot (trace rs0)
              ∧ NoDup evs.*1
              ∧ length evs = ncalls id slot (trace rs0) (trace rs')
              ∧ a = (N.of_nat (count_outcome true evs) mod 2 ^ 64)%N
              ∧ r = (N.of_nat (count_outcome false evs) mod 2 ^ 64)%N).
  { intros slot a r Ha Hr. destruct (Hcells slot) as (evs & Hevs & _ & Hnd & H4 & H5).
    exists evs. split; [done|]. split; [done|]. split; [|by auto].
    unfold ncalls. rewrite Hevs, length_app. lia. }
  split.
  - intros slot Hlt.
    destruct (lookup_lt_is_Some_2 (fAccepted fs) slot) as [a Ha]; [lia|].
    destruct (lookup_lt_is_Some_2 (fRejected fs) slot) as [r Hr]; [lia|].
    destruct (Hslot slot a r Ha Hr) as (evs & Hevs & Hnd & Hn & Hacc & Hrej).
    exists a, r, evs. repeat split; try done. by apply counters_sum.
  - intros Hsmall. rewrite <- Hla. apply sum_N_pointwise; [lia|].
    intros slot a r Ha Hr.
    destruct (Hslot slot a r Ha Hr) as (evs & Hevs & Hnd & Hn & Hacc & Hrej).
    rewrite <- Hn. apply counters_sum; [done..|]. rewrite Hn. apply Hsmall.
Qed.

Lemma filter_counters_count_calls_witness :
  ∃ rs' fs a r,
    RunEntries (tree_of [1; 3; 5]%float)
      (fBookedActions (engine_of (chained [1; 3; 5]%float)))
      (take 3 (fEntries (engine_of (chained [1; 3; 5]%float))))
      (CreateSlots (engine_of (chained [1; 3; 5]%float))
         (state (chained [1; 3; 5]%float))) = Some rs'
    ∧ filterSlots rs' !! 1%nat = Some fs
    ∧ fAccepted fs !! 0%nat = Some a ∧ fRejected fs !! 0%nat = Some r
    ∧ (a + r)%N = 2%N ∧ a = 1%N ∧ r = 1%N.
Proof.
  destruct (RunEntries _ _ _ _) as [rs'|] eqn:HR; [|vm_compute in HR; discriminate HR].
  destruct (filter_counters_count_calls (engine_of (chained [1; 3; 5]%float))
              (state (chained [1; 3; 5]%float)) 3%nat rs'
              (chained_chains_ok _)) with (id := 1%nat)
    as (fs & Hfs & Hslots & _).
  - vm_compute. repeat split; discriminate.
  - exact HR.
  - exists (gt 4%float), ["x"], "F2",
      (TDataFrameFilter 0 (gt 2%float) ["x"] "F1" TDataFrameImplNode).
    vm_compute. right. by left.
  - destruct (Hslots 0%nat) as (a & r & evs & Ha & Hr & Hevs & Hnd & Hn & Hacc & Hrej & Hsum).
    { vm_compute. lia. }
    exists rs', fs, a, r. split; [done|]. split; [done|]. split; [done|]. split; [done|].
    assert (Hlen : length evs = 2%nat).
    { rewrite Hn. vm_compute in HR. injection HR as <-. by vm_compute. }
    split.
    { rewrite Hsum.
      - rewrite Hlen. reflexivity.
      - rewrite Hlen. vm_compute. reflexivity. }
    vm_compute in HR. injection HR as <-.
    vm_compute in Hfs. injection Hfs as <-.
    vm_compute in Ha. injection Ha as <-. vm_compute in Hr. by injection Hr as <-.
Defined.

(** ** Filters: the memoized results are sound *)

Lemma fevents_app id slot tr1 tr2 :
  fevents id slot (tr1 ++ tr2) = fevents id slot tr1 ++ fevents id slot tr2.
Proof. unfold fevents. apply omap_app. Qed.

Lemma fevents_mono id slot add new x :
  x ∈ fevents id slot new → x ∈ fevents id slot (add ++ new).
Proof. intros H. rewrite fevents_app. apply elem_of_app. by right. Qed.

Lemma upstream_passed_mono add new pd slot entry :
  upstream_passed new pd slot entry → upstream_passed (add ++ new) pd slot entry.
Proof. intros H g Hg. by apply fevents_mono, H. Qed.

Lemma fevents_reads_cons id slot evs new :
  Forall is_read evs → fevents id slot (evs ++ new) = fevents id slot new.
Proof. intros H. by rewrite fevents_app, fevents_is_read. Qed.

Lemma memo_ok_reads G tr0 rs rs' :
  reads rs rs' → memo_ok G tr0 rs → memo_ok G tr0 rs'.
Proof.
  intros (Hf & _ & evs & Ht & Hr) (new & Hnew & Hok).
  exists (evs ++ new). split; [by rewrite Ht, Hnew, app_assoc|].
  intros id f bl name pd Hin slot. destruct (Hok id f bl name pd Hin slot) as [HA HB].
  rewrite Hf. split.
  - intros fs last v Hfs Hl Hv Hne Hv0.
    destruct (HA fs last v Hfs Hl Hv Hne Hv0) as [H1 H2].
    split; [by apply fevents_mono|by apply upstream_passed_mono].
  - intros entry b Hin'. rewrite fevents_reads_cons in Hin' by done.
    apply upstream_passed_mono. by eapply HB.
Qed.

Lemma CheckFilters_memo_ok G tree n slot entry rs r rs' tr0 :
  consistent G → filter_nodes n ⊆ G → entry ≠ -1 → memo_ok G tr0 rs →
  CheckFilters tree n slot entry rs = Some (r, rs') →
  memo_ok G tr0 rs'
  ∧ (r = true → ∀ new', trace rs' = new' ++ tr0 → upstream_passed new' n slot entry).
Proof.
  intros Hcons Hsub Hentry. revert rs r rs'.
  induction n as [|id f bl name pd IH|name e bl pd IH]; intros rs r rs' Hok H.
  - simpl in H. injection H as <- <-. split; [done|].
    intros _ new' _ g Hg. by apply elem_of_nil in Hg.
  - assert (Hnode : TDataFrameFilter id f bl name pd ∈ G) by (apply Hsub; by left).
    assert (Hsub' : filter_nodes pd ⊆ G).
    { intros x Hx. apply Hsub. simpl. by right. }
    specialize (IH Hsub').
    apply CheckFilters_filter_inv in H
      as (fs & last & Hfs & Hlast &
          [(-> & -> & v & Hv & ->)
          |[(Hne & -> & rs1 & fs1 & Hup & Hfs1 & Hlr & Hll & ->)
           |(Hne & rs1 & vals & rs2 & fs2 & Hup & Hvals & -> & Hfs2 & Hlr & Hll & _ & ->)]]).
    + split; [done|]. intros Hr new' Hnew'.
      destruct Hok as (new & Hnew & Hall).
      assert (new' = new) as -> by (apply (app_inv_tail tr0); congruence).
      destruct (Hall id f bl name pd Hnode slot) as [HA _].
      destruct (HA fs last v Hfs Hlast Hv Hentry) as [H1 H2].
      { intros ->. discriminate Hr. }
      intros g [->|Hg]%elem_of_cons; [done|by apply H2].
    + apply IH in Hup as [(new & Hnew & Hall) _]; [|done].
      split; [|discriminate].
      exists new. split; [done|]. cbn [filterSlots].
      intros id' f' bl' name' pd' Hin' s.
      destruct (Hall id' f' bl' name' pd' Hin' s) as [HA HB].
      split; [|exact HB].
      intros fs' last' v' Hfs' Hl' Hv' Hne' Hv0'.
      destruct (decide (id' = id)) as [->|Hid].
      * rewrite lookup_insert_eq in Hfs'. injection Hfs' as <-.
        unfold filter_checked in Hl', Hv'. simpl in Hl', Hv'.
        destruct (decide (s = slot)) as [->|Hs].
        -- rewrite list_lookup_insert_eq in Hv' by done. by injection Hv' as <-.
        -- rewrite list_lookup_insert_ne in Hl', Hv' by done. by eapply HA.
      * rewrite lookup_insert_ne in Hfs' by done. by eapply HA.
    + apply IH in Hup as [Hok1 Hpass1]; [|done].
      apply reads_inputs in Hvals as Hreads.
      assert (Hp2 : ∀ new2, trace rs2 = new2 ++ tr0 → upstream_passed new2 pd slot entry).
      { intros new2 Hnew2. destruct Hok1 as (new1 & Hnew1 & _).
        destruct Hreads as (_ & _ & evs & Ht & _).
        assert (new2 = evs ++ new1) as ->.
        { apply (app_inv_tail tr0). rewrite <- Hnew2, Ht, Hnew1. by rewrite app_assoc. }
        apply upstream_passed_mono. by apply Hpass1. }
      apply (memo_ok_reads G tr0 _ _ Hreads) in Hok1 as (new2 & Hnew2 & Hall).
      specialize (Hp2 new2 Hnew2).
      assert (Hmono : ∀ g s x, x ∈ fevents g s new2 →
                x ∈ fevents g s (EvFilter id slot entry (f vals) :: new2)).
      { intros g s x Hx. by apply (fevents_mono g s [EvFilter id slot entry (f vals)]). }
      assert (Hpmono : ∀ p s x, upstream_passed new2 p s x →
                upstream_passed (EvFilter id slot entry (f vals) :: new2) p s x).
      { intros p s x Hx. by apply (upstream_passed_mono [EvFilter id slot entry (f vals)]). }
      split.
      * exists (EvFilter id slot entry (f vals) :: new2).
        split; [simpl; by rewrite Hnew2|]. cbn [filterSlots].
        intros id' f' bl' name' pd' Hin' s.
        destruct (Hall id' f' bl' name' pd' Hin' s) as [HA HB].
        split.
        -- intros fs' last' v' Hfs' Hl' Hv' Hne' Hv0'.
           destruct (decide (id' = id)) as [->|Hid].
           ++ rewrite lookup_insert_eq in Hfs'. injection Hfs' as <-.
              assert (pd' = pd) as -> by (by eapply Hcons).
              unfold filter_checked in Hl', Hv'. simpl in Hl', Hv'.
              destruct (decide (s = slot)) as [->|Hs].
              ** rewrite list_lookup_insert_eq in Hl', Hv' by done.
                 injection Hl' as <-. injection Hv' as <-.
                 destruct (f vals); [|done].
                 split; [|by apply Hpmono].
                 rewrite fevents_cons_filter, decide_True by done. by left.
              ** rewrite list_lookup_insert_ne in Hl', Hv' by done.
                 destruct (HA fs2 last' v' Hfs2 Hl' Hv' Hne' Hv0') as [H1 H2].
                 split; [by apply Hmono|by apply Hpmono].
           ++ rewrite lookup_insert_ne in Hfs' by done.
              destruct (HA fs' last' v' Hfs' Hl' Hv' Hne' Hv0') as [H1 H2].
              split; [by apply Hmono|by apply Hpmono].
        -- intros e' b' Hin''. rewrite fevents_cons_filter in Hin''.
           destruct (decide (id = id' ∧ slot = s)) as [[<- <-]|Hneq].
           ++ assert (pd' = pd) as -> by (by eapply Hcons).
              apply elem_of_cons in Hin'' as [[= -> ->]|Hold]; [by apply Hpmono|].
              apply Hpmono. by eapply HB.
           ++ apply Hpmono. by eapply HB.
      * intros Hr new' Hnew'. cbn [trace] in Hnew'.
        assert (new' = EvFilter id slot entry (f vals) :: new2) as ->.
        { apply (app_inv_tail tr0). rewrite <- Hnew'. simpl. by rewrite Hnew2. }
        intros g [->|Hg]%elem_of_cons.
        -- rewrite fevents_cons_filter, decide_True by done. rewrite Hr. by left.
        -- apply Hmono. by apply Hp2.
  - simpl in H. by eapply IH.
Qed.

Lemma memo_ok_ExecuteAction G tr0 tree idx a slot entry rs rs' :
  memo_ok G tr0 rs → ExecuteAction tree idx a slot entry rs = Some rs' →
  memo_ok G tr0 rs'.
Proof.
  unfold ExecuteAction. intros Hok H.
  destruct (expand_pack _ (aBranches a) rs) as [[vals rs1]|] eqn:Hvals; simpl in H;
    [|discriminate].
  apply reads_inputs in Hvals as Hreads.
  destruct (opSlots rs1 !! idx) as [partials|]; simpl in H; [|discriminate].
  destruct (partials !! slot) as [partial|]; simpl in H; [|discriminate].
  destruct (vector_set partials slot _) as [partials'|]; simpl in H; [|discriminate].
  injection H as <-.
  apply (memo_ok_reads G tr0 _ _ Hreads) in Hok as (new & Hnew & Hall).
  exists (EvAction idx slot entry :: new).
  cbn [filterSlots trace set_opSlots log]. split; [simpl; by rewrite Hnew|].
  intros id f bl name pd Hin s. destruct (Hall id f bl name pd Hin s) as [HA HB].
  assert (Hmono : ∀ p x, upstream_passed new p s x →
            upstream_passed (EvAction idx slot entry :: new) p s x).
  { intros p x Hx. by apply (upstream_passed_mono [EvAction idx slot entry]). }
  split.
  - intros fs last v Hfs Hl Hv Hne Hv0.
    destruct (HA fs last v Hfs Hl Hv Hne Hv0) as [H1 H2]. split; [exact H1|by apply Hmono].
  - intros e b Hin'. apply Hmono. by eapply HB.
Qed.

Lemma RunActions_memo_ok G tr0 tree idx actions slot entry rs rs' :
  consistent G → (∀ a, a ∈ actions → filter_nodes (aPrevData a) ⊆ G) → entry ≠ -1 →
  memo_ok G tr0 rs →
  RunActions tree idx actions slot entry rs = Some rs' →
  memo_ok G tr0 rs'.
Proof.
  intros Hcons Hsub Hentry. revert idx rs.
  induction actions as [|a actions IH]; intros idx rs Hok H; simpl in H.
  - by injection H as <-.
  - destruct (Action_Run tree idx a slot entry rs) as [rs1|] eqn:Ha; simpl in H;
      [|discriminate].
    eapply IH; [| |exact H].
    + intros a' Hin. apply Hsub. by right.
    + unfold Action_Run in Ha.
      destruct (CheckFilters tree (aPrevData a) slot entry rs) as [[passed rs0]|] eqn:Hc;
        simpl in Ha; [|discriminate].
      eapply CheckFilters_memo_ok in Hc as [Hok0 _]; [|done|by (apply Hsub; left)|done..].
      destruct passed.
      * by eapply memo_ok_ExecuteAction.
      * by injection Ha as <-.
Qed.

Lemma RunEntries_memo_ok G tr0 tree actions entries rs rs' :
  consistent G → (∀ a, a ∈ actions → filter_nodes (aPrevData a) ⊆ G) →
  Forall (λ se : nat * Long64_t, 0 ≤ se.2) entries →
  memo_ok G tr0 rs →
  RunEntries tree actions entries rs = Some rs' →
  memo_ok G tr0 rs'.
Proof.
  intros Hcons Hsub Hpos. revert rs.
  induction Hpos as [|[slot entry] entries Hentry _ IH]; intros rs Hok H; simpl in H.
  - by injection H as <-.
  - destruct (RunActions tree 0 actions slot entry rs) as [rs1|] eqn:Ha; simpl in H;
      [|discriminate].
    eapply IH; [|exact H].
    eapply RunActions_memo_ok; [done|done| |done|exact Ha]. simpl in Hentry. lia.
Qed.

Lemma CreateSlots_memo_ok df rs :
  memo_ok (fBookedFilters df) (trace rs) (CreateSlots df rs).
Proof.
  exists []. split; [done|].
  intros id f bl name pd Hin slot. split.
  - intros fs last v Hfs Hl _ Hne _. cbn [CreateSlots filterSlots] in Hfs.
    rewrite (CreateSlots_filter_lookup _ _ _ _ _ _ _ _ Hin) in Hfs. injection Hfs as <-.
    simpl in Hl. by apply lookup_replicate in Hl as [-> _].
  - intros entry b Hin'. by apply elem_of_nil in Hin'.
Qed.

(** ** Filters: short-circuit *)

Lemma filter_ids_nodes n g :
  g ∈ filter_ids n → ∃ f bl name pd, TDataFrameFilter g f bl name pd ∈ filter_nodes n.
Proof.
  induction n as [|id f bl name pd IH|name e bl pd IH]; simpl; intros Hg.
  - by apply elem_of_nil in Hg.
  - apply elem_of_cons in Hg as [->|Hg].
    + exists f, bl, name, pd. by left.
    + destruct (IH Hg) as (f' & bl' & name' & pd' & Hin).
      exists f', bl', name', pd'. by right.
  - auto.
Qed.

Lemma NoDup_fst_functional {A B} (l : list (A * B)) x y1 y2 :
  NoDup l.*1 → (x, y1) ∈ l → (x, y2) ∈ l → y1 = y2.
Proof.
  induction l as [|[a b] l IH]; simpl; intros Hnd H1 H2.
  - by apply elem_of_nil in H1.
  - apply NoDup_cons in Hnd as [Ha Hnd].
    apply elem_of_cons in H1 as [H1|H1], H2 as [H2|H2].
    + congruence.
    + exfalso. apply Ha. apply list_elem_of_fmap. exists (x, y2).
      split; [|done]. simpl. congruence.
    + exfalso. apply Ha. apply list_elem_of_fmap. exists (x, y1).
      split; [|done]. simpl. congruence.
    + by apply IH.
Qed.

(** C3. In one call: when the filters upstream reject a new entry, the
    filter returns false without calling its predicate (the trace is the one
    the upstream call left) and memoizes false for the entry.  Over the event
    loop, at any point: if the predicate of a filter upstream of a booked
    filter returned false on a (slot, entry), the predicate of the filter was
    never called on that (slot, entry). *)
Theorem upstream_false_short_circuits :
  (∀ tree id f bl name pd slot entry rs rs1 r rs' fs last,
     filterSlots rs !! id = Some fs →
     fLastCheckedEntry fs !! slot = Some last → last ≠ entry →
     CheckFilters tree pd slot entry rs = Some (false, rs1) →
     CheckFilters tree (TDataFrameFilter id f bl name pd) slot entry rs = Some (r, rs') →
     r = false ∧ trace rs' = trace rs1
     ∧ ∃ fs', filterSlots rs' !! id = Some fs'
              ∧ fLastResult fs' !! slot = Some 0
              ∧ fLastCheckedEntry fs' !! slot = Some entry)
  ∧ (∀ df rs0 k rs',
       graph_ok df → ascending (λ _, -1) (fEntries df) →
       Forall (λ se : nat * Long64_t, 0 ≤ se.2) (fEntries df) →
       RunEntries (fTree df) (fBookedActions df) (take k (fEntries df))
         (CreateSlots df rs0) = Some rs' →
       ∃ new, trace rs' = new ++ trace rs0 ∧
         ∀ id f bl name pd g slot entry,
           TDataFrameFilter id f bl name pd ∈ fBookedFilters df →
           g ∈ filter_ids pd →
           (entry, false) ∈ fevents g slot new →
           ∀ b, (entry, b) ∉ fevents id slot new).
Proof.
  split.
  - intros tree id f bl name pd slot entry rs rs1 r rs' fs last Hfs Hlast Hne Hup H.
    apply CheckFilters_filter_inv in H
      as (fs0 & last0 & Hfs0 & Hlast0 &
          [(-> & _)
          |[(_ & -> & rs1' & fs1 & Hup' & Hfs1 & Hlr & Hll & ->)
           |(_ & rs1' & vals & rs2 & fs2 & Hup' & _)]]).
    + congruence.
    + assert (rs1' = rs1) as -> by congruence.
      split; [done|]. split; [done|].
      exists (filter_checked fs1 slot entry None). cbn [filterSlots].
      rewrite lookup_insert_eq. split; [done|]. unfold filter_checked. simpl.
      by rewrite !list_lookup_insert_eq.
    + congruence.
  - intros df rs0 k rs' (Hch & Hacts & Hclosed & Hcons) Hasc Hpos H.
    pose proof (event_loop_filters _ _ _ _ Hch Hasc H) as [bound Hok].
    eapply RunEntries_memo_ok in H as (new & Hnew & Hall);
      [|exact Hcons|exact Hacts|by apply Forall_take|apply CreateSlots_memo_ok].
    exists new. split; [done|].
    intros id f bl name pd g slot entry Hin Hg Hfalse b Hb.
    destruct (Hall id f bl name pd Hin slot) as [_ HB].
    pose proof (HB entry b Hb g Hg) as Htrue.
    destruct (filter_ids_nodes _ _ Hg) as (f' & bl' & name' & pd' & Hgn).
    assert (Hbooked : booked_filter df g).
    { exists f', bl', name', pd'. apply (Hclosed _ Hin). simpl. by right. }
    destruct (Hok g Hbooked) as (fs & _ & _ & Hcells).
    destruct (Hcells slot) as (evs & Hevs & _ & Hnd & _).
    rewrite Hnew, fevents_app in Hevs. apply app_inv_tail in Hevs. subst evs.
    by pose proof (NoDup_fst_functional _ _ _ _ Hnd Htrue Hfalse).
Qed.

Ltac elem_of_concrete H :=
  vm_compute in H;
  repeat (apply elem_of_cons in H as [H|H]); try (by apply elem_of_nil in H).

Lemma chained_graph_ok : graph_ok (engine_of (chained [1; 3; 5]%float)).
Proof.
  split; [apply chained_chains_ok|]. split; [|split].
  - intros a Hin x Hx. elem_of_concrete Hin; subst a; elem_of_concrete Hx; subst x;
      vm_compute; repeat ((by left) || right).
  - intros n Hin x Hx. elem_of_concrete Hin; subst n; elem_of_concrete Hx; subst x;
      vm_compute; repeat ((by left) || right).
  - intros id f bl name pd f' bl' name' pd' H1 H2.
    elem_of_concrete H1; elem_of_concrete H2; congruence.
Qed.

Lemma upstream_false_short_circuits_witness :
  ∃ rs',
    RunEntries (tree_of [1; 3; 5]%float)
      (fBookedActions (engine_of (chained [1; 3; 5]%float)))
      (take 3 (fEntries (engine_of (chained [1; 3; 5]%float))))
      (CreateSlots (engine_of (chained [1; 3; 5]%float))
         (state (chained [1; 3; 5]%float))) = Some rs'
    ∧ (0, false) ∈ fevents 0 0 (trace rs')
    ∧ ∀ b, (0, b) ∉ fevents 1 0 (trace rs').
Proof.
  destruct upstream_false_short_circuits as [_ Hloop].
  destruct (RunEntries _ _ _ _) as [rs'|] eqn:HR; [|vm_compute in HR; discriminate HR].
  destruct (Hloop (engine_of (chained [1; 3; 5]%float))
              (state (chained [1; 3; 5]%float)) 3%nat rs' chained_graph_ok)
    as (new & Hnew & Hshort).
  - vm_compute. repeat split; discriminate.
  - vm_compute. repeat constructor; discriminate.
  - exact HR.
  - exists rs'. split; [done|].
    change (trace (state (chained [1; 3; 5]%float))) with (@nil Event) in Hnew.
    rewrite app_nil_r in Hnew. subst new.
    assert (Hfalse : (0, false) ∈ fevents 0 0 (trace rs')).
    { vm_compute in HR. injection HR as <-. vm_compute. do 2 right. by left. }
    split; [done|].
    apply (Hshort 1%nat (gt 4%float) ["x"] "F2"
             (TDataFrameFilter 0 (gt 2%float) ["x"] "F1" TDataFrameImplNode) 0%nat 0%nat 0);
      [|by left|done].
    vm_compute. right. by left.
Defined.

(** ** Temporary branches: one call of GetValue, case by case *)

Lemma GetValue_inv tree resolve name e bl tmpbl slot entry rs p rs' :
  GetValue tree resolve name e bl tmpbl slot entry rs = Some (p, rs') →
  ∃ bs last,
    branchSlots rs !! name = Some bs ∧ bLastCheckedEntry bs !! slot = Some last ∧
    ((entry = last ∧ rs' = rs ∧ fLastResultPtr bs !! slot = Some (Some p))
     ∨ (entry ≠ last ∧ ∃ vals rs1 bs1,
          expand_pack (GetBranchValue tree resolve tmpbl slot entry) bl rs = Some (vals, rs1)
          ∧ branchSlots rs1 !! name = Some bs1
          ∧ (slot < length (fLastResultPtr bs1))%nat
          ∧ (slot < length (bLastCheckedEntry bs1))%nat
          ∧ p = length (heap rs1)
          ∧ rs' = mkRunState (filterSlots rs1)
                    (<[name := mkBranchSlots (<[slot := entry]> (bLastCheckedEntry bs1))
                                 (<[slot := Some p]> (fLastResultPtr bs1))]>
                       (branchSlots rs1))
                    (opSlots rs1) (heap rs1 ++ [e vals])
                    (EvExpression name slot entry :: trace rs1))).
Proof.
  unfold GetValue. intros H.
  destruct (branchSlots rs !! name) as [bs|] eqn:Hbs; simpl in H; [|discriminate].
  destruct (bLastCheckedEntry bs !! slot) as [last|] eqn:Hlast; simpl in H; [|discriminate].
  exists bs, last. split; [done|]. split; [done|].
  destruct (decide (entry ≠ last)) as [Hne|Heq].
  - right. split; [done|].
    destruct (expand_pack _ bl rs) as [[vals rs1]|] eqn:Hvals; simpl in H; [|discriminate].
    destruct (branchSlots rs1 !! name) as [bs1|] eqn:Hbs1; simpl in H; [|discriminate].
    destruct (vector_set (fLastResultPtr bs1) slot _) as [ptrs|] eqn:Hp; simpl in H;
      [|discriminate].
    destruct (vector_set (bLastCheckedEntry bs1) slot _) as [lasts|] eqn:Hl; simpl in H;
      [|discriminate].
    apply vector_set_Some in Hp as [Hlp ->]. apply vector_set_Some in Hl as [Hll ->].
    injection H as <- <-. exists vals, rs1, bs1. by repeat split.
  - left. apply dec_stable in Heq. split; [done|].
    destruct (fLastResultPtr bs !! slot) as [[q|]|] eqn:Hq; simpl in H; try discriminate.
    by injection H as <- <-.
Qed.

(** ** Temporary branches: the invariant is kept by GetValue *)

Lemma bevents_cons_expr name slot name' slot' entry tr :
  bevents name slot (EvExpression name' slot' entry :: tr)
  = if decide (name' = name ∧ slot' = slot) then entry :: bevents name slot tr
    else bevents name slot tr.
Proof. unfold bevents. simpl. by destruct (decide _). Qed.

Lemma bkeeps_refl tr0 bound slot entry N rs : bkeeps tr0 bound slot entry N rs rs.
Proof. by repeat split. Qed.

Lemma bkeeps_trans tr0 bound slot entry N rs1 rs2 rs3 :
  bkeeps tr0 bound slot entry N rs1 rs2 → bkeeps tr0 bound slot entry N rs2 rs3 →
  bkeeps tr0 bound slot entry N rs1 rs3.
Proof.
  intros (H1 & F1 & C1 & M1 & D1) (H2 & F2 & C2 & M2 & D2).
  split; [auto|]. split; [|split; [|split]].
  - intros name Hn. destruct (F1 name Hn) as [L1 E1], (F2 name Hn) as [L2 E2].
    split; [congruence|]. intros s. by rewrite E2, E1.
  - intros name s e p Hse Hc. by apply C2, C1.
  - intros p v Hp. by apply M2, M1.
  - intros name Hs. by apply D2, D1.
Qed.

Lemma bkeeps_weaken tr0 bound slot entry N N' rs rs' :
  N ⊆ N' → bkeeps tr0 bound slot entry N rs rs' → bkeeps tr0 bound slot entry N' rs rs'.
Proof.
  intros Hsub (H & F & C & M). split; [done|]. split; [|done].
  intros name Hn. apply F. intros Hin. apply Hn. by apply Hsub.
Qed.

Lemma bkeeps_expand_pack {A B} tr0 bound slot entry N
    (g : A → RunState → option (B * RunState)) l :
  (∀ a rs b rs', g a rs = Some (b, rs') → bkeeps tr0 bound slot entry N rs rs') →
  ∀ rs bs rs', expand_pack g l rs = Some (bs, rs') → bkeeps tr0 bound slot entry N rs rs'.
Proof.
  intros Hg. induction l as [|a l IH]; intros rs bs rs' H; simpl in H.
  - injection H as <- <-. apply bkeeps_refl.
  - destruct (g a rs) as [[b rs1]|] eqn:Ha; simpl in H; [|discriminate].
    destruct (expand_pack g l rs1) as [[bs' rs2]|] eqn:Hl; simpl in H; [|discriminate].
    injection H as <- <-. eapply bkeeps_trans; [by eapply Hg|by eapply IH].
Qed.

Lemma bkeeps_same_branches tr0 bound slot entry N rs rs' :
  branchSlots rs' = branchSlots rs → heap rs' = heap rs →
  (∀ name s, bevents name s (trace rs') = bevents name s (trace rs)) →
  bkeeps tr0 bound slot entry N rs rs'.
Proof.
  intros Hb Hh He. split; [|split; [|split; [|split]]].
  - intros Hok name bs s Hbs. rewrite Hb in Hbs. rewrite He. by apply Hok.
  - intros name _. by rewrite Hb.
  - intros name s e p _ (bs & H1 & H2). exists bs. by rewrite Hb.
  - intros p v. by rewrite Hh.
  - intros name. by rewrite Hb.
Qed.

Lemma bkeeps_GetBranchValue tr0 bound N tree resolve tmpbl slot entry branch rs v rs' :
  (∀ b p rs0 rs1, resolve b slot entry rs0 = Some (p, rs1) →
                  bkeeps tr0 bound slot entry N rs0 rs1) →
  GetBranchValue tree resolve tmpbl slot entry branch rs = Some (v, rs') →
  bkeeps tr0 bound slot entry N rs rs'.
Proof.
  intros Hres. unfold GetBranchValue. destruct (isTmpBranch tmpbl branch).
  - destruct (resolve branch slot entry rs) as [[p rs1]|] eqn:Hr; simpl; [|discriminate].
    destruct (heap rs1 !! p); simpl; [|discriminate].
    intros [= <- <-]. by eapply Hres.
  - intros [= <- <-]. by apply bkeeps_same_branches.
Qed.

Lemma bcell_ok_other_slot bs evs s slot entry ptr bound :
  s ≠ slot → bcell_ok bs evs s bound →
  bcell_ok (mkBranchSlots (<[slot := entry]> (bLastCheckedEntry bs))
              (<[slot := ptr]> (fLastResultPtr bs))) evs s bound.
Proof.
  intros Hs [H1 H2]. unfold bcell_ok. simpl.
  by rewrite list_lookup_insert_ne.
Qed.

Lemma bcell_ok_evaluated bs evs slot entry ptr last :
  bLastCheckedEntry bs !! slot = Some last → entry ≠ last →
  bcell_ok bs evs slot entry →
  bcell_ok (mkBranchSlots (<[slot := entry]> (bLastCheckedEntry bs))
              (<[slot := ptr]> (fLastResultPtr bs))) (entry :: evs) slot entry.
Proof.
  intros Hlast Hne [H1 H2]. unfold bcell_ok. simpl.
  destruct (H1 last Hlast) as [Hle He].
  rewrite list_lookup_insert_eq by (by eapply lookup_lt_Some).
  split.
  - intros last' [= <-]. split; [done|].
    intros e [->|Hin]%elem_of_cons; [done|]. specialize (He e Hin). lia.
  - apply NoDup_cons. split; [|done]. intros Hin. specialize (He entry Hin). lia.
Qed.

Lemma bkeeps_GetValue tr0 bound N tree resolve name e bl tmpbl slot entry rs p rs' :
  bound slot = entry → name ∉ N →
  (∀ b p rs0 rs1, resolve b slot entry rs0 = Some (p, rs1) →
                  bkeeps tr0 bound slot entry N rs0 rs1) →
  GetValue tree resolve name e bl tmpbl slot entry rs = Some (p, rs') →
  bkeeps tr0 bound slot entry (N ++ [name]) rs rs'.
Proof.
  intros Hb Hname Hres H.
  apply GetValue_inv in H
    as (bs & last & Hbs & Hlast &
        [(-> & -> & _)|(Hne & vals & rs1 & bs1 & Hvals & Hbs1 & _ & _ & _ & ->)]).
  - apply bkeeps_refl.
  - assert (Hin : bkeeps tr0 bound slot entry N rs rs1).
    { eapply bkeeps_expand_pack; [|exact Hvals].
      intros b rs0 v rs0' Hg. by eapply bkeeps_GetBranchValue. }
    destruct Hin as (Hok1 & Hfr1 & Hc1 & Hm1 & Hd1).
    destruct (Hfr1 name Hname) as [Hsame Hev].
    assert (bs1 = bs) as -> by congruence.
    split; [|split; [|split; [|split]]].
    + intros Hok name' bs' s Hlook. specialize (Hok1 Hok).
      cbn [branchSlots trace] in *. rewrite bevents_cons_expr.
      destruct (decide (name' = name)) as [->|Hn].
      * rewrite lookup_insert_eq in Hlook. injection Hlook as <-.
        destruct (Hok1 name bs s Hbs1) as (evs & Hevs & Hcell).
        destruct (decide (s = slot)) as [->|Hs].
        -- rewrite decide_True by done. exists (entry :: evs).
           split; [by rewrite Hevs|]. rewrite Hb in *. by eapply bcell_ok_evaluated.
        -- rewrite decide_False by (intros [_ ?]; done).
           exists evs. split; [done|]. by apply bcell_ok_other_slot.
      * rewrite lookup_insert_ne in Hlook by done.
        rewrite decide_False by (intros [? _]; done). by apply Hok1.
    + intros name' [Hn' Hne']%not_elem_of_app. cbn [branchSlots trace].
      assert (name ≠ name') by (intros ->; apply Hne'; by left).
      rewrite lookup_insert_ne by done.
      destruct (Hfr1 name' Hn') as [L E]. split; [done|]. intros s.
      rewrite bevents_cons_expr, decide_False by (intros [? _]; done). apply E.
    + intros name' s e' p' Hse Hc. apply (Hc1 _ _ _ _ Hse) in Hc as (bs' & Hl' & Hc1' & Hc2').
      unfold cached. cbn [branchSlots].
      destruct (decide (name' = name)) as [->|Hn].
      * assert (bs' = bs) as -> by congruence.
        rewrite lookup_insert_eq. eexists. split; [done|]. simpl.
        destruct (decide (s = slot)) as [->|Hs].
        -- destruct Hse as [Hs | ->]; [done|]. congruence.
        -- by rewrite !list_lookup_insert_ne.
      * exists bs'. by rewrite lookup_insert_ne.
    + intros p' v Hp'. cbn [heap]. apply lookup_app_l_Some. by apply Hm1.
    + intros name' Hs. apply Hd1 in Hs. cbn [branchSlots].
      destruct (decide (name' = name)) as [->|Hn].
      * rewrite lookup_insert_eq. by eexists.
      * by rewrite lookup_insert_ne.
Qed.

Lemma bkeeps_GetTmpBranchValue tr0 bound tree n branch slot entry rs p rs' :
  bound slot = entry → NoDup (GetTmpBranches n) →
  GetTmpBranchValue tree n branch slot entry rs = Some (p, rs') →
  bkeeps tr0 bound slot entry (GetTmpBranches n) rs rs'.
Proof.
  intros Hb. revert branch rs p rs'.
  induction n as [|id f bl name pd IH|name e bl pd IH]; intros branch rs p rs' Hnd H;
    simpl in *.
  - discriminate.
  - by eapply IH.
  - apply NoDup_app in Hnd as (Hnd & Hdisj & _).
    assert (Hname : name ∉ GetTmpBranches pd).
    { intros Hin. apply (Hdisj name Hin). by left. }
    destruct (decide (branch = name)).
    + eapply bkeeps_GetValue; [done|done| |exact H]. intros. by eapply IH.
    + eapply bkeeps_weaken; [|by eapply IH].
      intros x Hx. apply elem_of_app. by left.
Qed.

(** ** Temporary branches: the invariant is kept by the event loop *)

Lemma bkeeps_inputs tr0 bound tree n slot entry bl rs vals rs' :
  bound slot = entry → NoDup (GetTmpBranches n) →
  expand_pack (GetBranchValue tree (GetTmpBranchValue tree n) (GetTmpBranches n) slot entry)
    bl rs = Some (vals, rs') →
  bkeeps tr0 bound slot entry (GetTmpBranches n) rs rs'.
Proof.
  intros Hb Hnd. apply bkeeps_expand_pack. intros b rs0 v rs1 Hg.
  eapply bkeeps_GetBranchValue; [|exact Hg].
  intros. by eapply bkeeps_GetTmpBranchValue.
Qed.

Lemma bkeeps_CheckFilters tr0 bound tree n slot entry rs r rs' :
  bound slot = entry → NoDup (GetTmpBranches n) →
  CheckFilters tree n slot entry rs = Some (r, rs') →
  bkeeps tr0 bound slot entry (GetTmpBranches n) rs rs'.
Proof.
  intros Hb. revert rs r rs'.
  induction n as [|id f bl name pd IH|name e bl pd IH]; intros rs r rs' Hnd H.
  - simpl in H. injection H as <- <-. apply bkeeps_refl.
  - simpl in Hnd. cbn [GetTmpBranches].
    apply CheckFilters_filter_inv in H
      as (fs & last & Hfs & Hlast &
          [(-> & -> & _)|[(Hne & -> & rs1 & fs1 & Hup & Hfs1 & _ & _ & ->)
                         |(Hne & rs1 & vals & rs2 & fs2 & Hup & Hvals & -> & Hfs2 & _ & _ & _ & ->)]]).
    + apply bkeeps_refl.
    + eapply bkeeps_trans; [by eapply IH|]. by apply bkeeps_same_branches.
    + eapply bkeeps_trans; [by eapply IH|].
      eapply bkeeps_trans; [by eapply bkeeps_inputs|]. by apply bkeeps_same_branches.
  - simpl in Hnd. apply NoDup_app in Hnd as (Hnd & _ & _). simpl in H.
    eapply bkeeps_weaken; [|by eapply IH].
    intros x Hx. simpl. apply elem_of_app. by left.
Qed.

Lemma bkeeps_Action_Run tr0 bound tree idx a slot entry rs rs' :
  bound slot = entry → NoDup (GetTmpBranches (aPrevData a)) →
  Action_Run tree idx a slot entry rs = Some rs' →
  bkeeps tr0 bound slot entry (GetTmpBranches (aPrevData a)) rs rs'.
Proof.
  intros Hb Hnd. unfold Action_Run. intros H.
  destruct (CheckFilters tree (aPrevData a) slot entry rs) as [[passed rs1]|] eqn:Hc;
    simpl in H; [|discriminate].
  eapply bkeeps_trans; [by eapply bkeeps_CheckFilters|].
  destruct passed; [|injection H as <-; apply bkeeps_refl].
  unfold ExecuteAction in H.
  destruct (expand_pack _ (aBranches a) rs1) as [[vals rs2]|] eqn:Hvals; simpl in H;
    [|discriminate].
  eapply bkeeps_trans; [by eapply bkeeps_inputs|].
  destruct (opSlots rs2 !! idx) as [partials|]; simpl in H; [|discriminate].
  destruct (partials !! slot) as [partial|]; simpl in H; [|discriminate].
  destruct (vector_set partials slot _) as [partials'|]; simpl in H; [|discriminate].
  injection H as <-. by apply bkeeps_same_branches.
Qed.

(** What the evaluation of one entry by all the actions keeps. *)
Lemma RunActions_branches tr0 bound tree idx actions slot entry rs rs' :
  names_ok actions → bound slot = entry →
  RunActions tree idx actions slot entry rs = Some rs' →
  (branches_ok tr0 bound rs → branches_ok tr0 bound rs')
  ∧ (∀ name s e p, s ≠ slot ∨ e = entry → cached name s e p rs → cached name s e p rs')
  ∧ (∀ p v, heap rs !! p = Some v → heap rs' !! p = Some v)
  ∧ (∀ name, is_Some (branchSlots rs !! name) → is_Some (branchSlots rs' !! name)).
Proof.
  intros Hn Hb. revert idx rs.
  induction actions as [|a actions IH]; intros idx rs H; simpl in H.
  - by injection H as <-.
  - destruct (Action_Run tree idx a slot entry rs) as [rs1|] eqn:Ha; simpl in H;
      [|discriminate].
    eapply (bkeeps_Action_Run tr0 bound) in Ha as (H1 & _ & C1 & M1 & D1);
      [|done|by (apply Hn; left)].
    apply IH in H as (H2 & C2 & M2 & D2); [|intros a' Hin; apply Hn; by right].
    split; [auto|]. split; [|split].
    + intros name s e p Hse Hc. by apply C2, C1.
    + intros p v Hp. by apply M2, M1.
    + intros name Hs. by apply D2, D1.
Qed.

Lemma branches_ok_handed tr0 bound rs slot entry :
  bound slot ≤ entry → branches_ok tr0 bound rs →
  branches_ok tr0 (handed bound slot entry) rs.
Proof.
  intros Hle Hok name bs s Hbs. destruct (Hok name bs s Hbs) as (evs & Hevs & H1 & H2).
  exists evs. split; [done|]. split; [|done].
  intros last Hlast. destruct (H1 last Hlast) as [Hl He]. split; [|done].
  unfold handed. destruct (decide (s = slot)) as [->|]; lia.
Qed.

Lemma RunEntries_branches_ok tr0 tree actions entries rs rs' bound :
  names_ok actions → ascending bound entries →
  branches_ok tr0 bound rs →
  RunEntries tree actions entries rs = Some rs' →
  (∃ bound', branches_ok tr0 bound' rs')
  ∧ (∀ name, is_Some (branchSlots rs !! name) → is_Some (branchSlots rs' !! name)).
Proof.
  intros Hn. revert bound rs.
  induction entries as [|[slot entry] entries IH]; intros bound rs Hasc Hok H; simpl in H.
  - injection H as <-. split; [by exists bound|done].
  - destruct Hasc as [Hle Hasc].
    destruct (RunActions tree 0 actions slot entry rs) as [rs1|] eqn:Ha; simpl in H;
      [|discriminate].
    eapply (RunActions_branches tr0 (handed bound slot entry)) in Ha as (H1 & _ & _ & D1);
      [|done|unfold handed; by rewrite decide_True].
    eapply IH in H as [H2 D2]; [|done|apply H1; by apply branches_ok_handed].
    split; [done|]. intros name Hs. by apply D2, D1.
Qed.

Lemma CreateSlots_branches_ok df rs :
  branches_ok (trace rs) (λ _, -1) (CreateSlots df rs).
Proof.
  intros name bs slot Hbs. cbn [CreateSlots branchSlots trace] in *.
  rewrite lookup_fmap in Hbs.
  destruct (fBookedBranches df !! name); simpl in Hbs; [|discriminate].
  injection Hbs as <-. exists []. split; [done|]. split; [|constructor].
  intros last [-> _]%lookup_replicate. split; [done|].
  intros e He. by apply elem_of_nil in He.
Qed.

(** ** Temporary branches: evaluated once, one shared object *)

(** C4. A request for the value of a temporary branch on the entry it
    evaluated last on the slot returns the pointer cached for the slot and
    changes nothing.  Any request either is such a hit, or evaluates the
    expression once, puts the result in a fresh shared object and caches its
    address; in both cases the address returned is the one cached afterwards.
    While the actions evaluate the same (slot, entry), what is cached stays
    cached and the shared object stays in place, so every later consumer of
    the entry gets the same address without re-evaluation.  Consequently, at
    any point of the event loop, the entries on which the expression of a
    booked temporary branch was evaluated on a slot since the loop started
    are pairwise distinct. *)
Theorem derived_column_evaluated_once :
  (∀ tree resolve name e bl tmpbl slot entry rs p,
     cached name slot entry p rs →
     GetValue tree resolve name e bl tmpbl slot entry rs = Some (p, rs))
  ∧ (∀ tree resolve name e bl tmpbl slot entry rs p rs',
       GetValue tree resolve name e bl tmpbl slot entry rs = Some (p, rs') →
       cached name slot entry p rs'
       ∧ ((rs' = rs ∧ cached name slot entry p rs)
          ∨ (∃ vals rs1,
               expand_pack (GetBranchValue tree resolve tmpbl slot entry) bl rs
               = Some (vals, rs1)
               ∧ p = length (heap rs1) ∧ heap rs' !! p = Some (e vals)
               ∧ trace rs' = EvExpression name slot entry :: trace rs1)))
  ∧ (∀ tree idx actions slot entry rs rs' name p,
       names_ok actions → RunActions tree idx actions slot entry rs = Some rs' →
       cached name slot entry p rs →
       cached name slot entry p rs'
       ∧ ∀ v, heap rs !! p = Some v → heap rs' !! p = Some v)
  ∧ (∀ df rs0 k rs',
       names_ok (fBookedActions df) → ascending (λ _, -1) (fEntries df) →
       RunEntries (fTree df) (fBookedActions df) (take k (fEntries df))
         (CreateSlots df rs0) = Some rs' →
       ∀ name, is_Some (fBookedBranches df !! name) →
         ∀ slot, ∃ evs, bevents name slot (trace rs') = evs ++ bevents name slot (trace rs0)
                        ∧ NoDup evs).
Proof.
  split; [|split; [|split]].
  - intros tree resolve name e bl tmpbl slot entry rs p (bs & Hbs & Hlast & Hptr).
    unfold GetValue. rewrite Hbs. simpl. rewrite Hlast. simpl.
    rewrite decide_False by (intros ?; done). by rewrite Hptr.
  - intros tree resolve name e bl tmpbl slot entry rs p rs' H.
    apply GetValue_inv in H
      as (bs & last & Hbs & Hlast &
          [(-> & -> & Hptr)|(Hne & vals & rs1 & bs1 & Hvals & Hbs1 & Hlp & Hll & -> & ->)]).
    + assert (cached name slot last p rs) by (by exists bs). split; [done|]. by left.
    + split.
      * eexists. cbn [branchSlots]. rewrite lookup_insert_eq. split; [done|]. simpl.
        by rewrite !list_lookup_insert_eq.
      * right. exists vals, rs1. split; [done|]. split; [done|]. split; [|done].
        cbn [heap]. by rewrite lookup_app_r, Nat.sub_diag.
  - intros tree idx actions slot entry rs rs' name p Hn H Hc.
    apply (RunActions_branches [] (λ _, entry)) in H as (_ & C & M & _); [|done..].
    split; [|by intros; apply M]. apply C; [by right|done].
  - intros df rs0 k rs' Hn Hasc H name Hname slot.
    eapply (RunEntries_branches_ok (trace rs0)) in H as [[bound Hok] Hdom];
      [|done|by apply ascending_take|apply CreateSlots_branches_ok].
    destruct (Hdom name) as [bs Hbs].
    { cbn [CreateSlots branchSlots]. rewrite lookup_fmap.
      destruct Hname as [n ->]. by eexists. }
    destruct (Hok name bs slot Hbs) as (evs & Hevs & _ & Hnd). by exists evs.
Qed.

Lemma derived_names_ok : names_ok (fBookedActions (engine_of (derived [1; 2; 3]%float))).
Proof.
  intros a Hin. vm_compute in Hin.
  repeat (apply elem_of_cons in Hin as [->|Hin]); [| |by apply elem_of_nil in Hin];
    apply (bool_decide_unpack _); by vm_compute.
Qed.

Lemma derived_column_evaluated_once_witness :
  ∃ rs' evs,
    RunEntries (tree_of [1; 2; 3]%float)
      (fBookedActions (engine_of (derived [1; 2; 3]%float)))
      (take 3 (fEntries (engine_of (derived [1; 2; 3]%float))))
      (CreateSlots (engine_of (derived [1; 2; 3]%float))
         (state (derived [1; 2; 3]%float))) = Some rs'
    ∧ bevents "y" 0 (trace rs') = evs ∧ NoDup evs ∧ length evs = 3%nat
    ∧ heap rs' !! 2%nat = Some 6%float
    ∧ GetValue (tree_of [1; 2; 3]%float) (λ _ _ _ _, None) "y" twice ["x"] ["y"] 0 2 rs'
      = Some (2%nat, rs').
Proof.
  destruct derived_column_evaluated_once as (Hhit & _ & _ & Honce).
  destruct (RunEntries _ _ _ _) as [rs'|] eqn:HR; [|vm_compute in HR; discriminate HR].
  destruct (Honce (engine_of (derived [1; 2; 3]%float))
              (state (derived [1; 2; 3]%float)) 3%nat rs' derived_names_ok)
    with (name := "y") (slot := 0%nat) as (evs & Hevs & Hnd).
  - vm_compute. repeat split; discriminate.
  - exact HR.
  - vm_compute. by eexists.
  - exists rs', evs.
    change (trace (state (derived [1; 2; 3]%float))) with (@nil Event) in Hevs.
    change (bevents "y" 0 []) with (@nil Long64_t) in Hevs.
    rewrite app_nil_r in Hevs.
    split; [done|]. split; [done|]. split; [done|].
    vm_compute in HR. injection HR as <-.
    split; [by rewrite <- Hevs|]. split; [reflexivity|].
    apply Hhit. eexists. repeat split; vm_compute; reflexivity.
Defined.

(** ** Actions whose callable is not called *)




Lemma length_merge_results idx actions ops results :
  length (merge_results idx actions ops results) = length results.
Proof.
  revert idx results. induction actions as [|a actions IH]; intros idx results; simpl.
  - done.
  - rewrite IH. destruct (aResult a); [|done]. by rewrite length_insert.
Qed.

Lemma merge_results_other idx actions ops results r :
  (∀ a, a ∈ actions → aResult a ≠ Some r) →
  merge_results idx actions ops results !! r = results !! r.
Proof.
  revert idx results. induction actions as [|a actions IH]; intros idx results Hne; simpl.
  - done.
  - rewrite IH by (intros a' Hin; apply Hne; by right).
    destruct (aResult a) as [r'|] eqn:Hr; [|done].
    apply list_lookup_insert_ne. intros ->. apply (Hne a); [by left|done].
Qed.

Lemma merge_results_at idx actions ops results k a r :
  actions !! k = Some a → aResult a = Some r → (r < length results)%nat →
  (∀ k' a', (k < k')%nat → actions !! k' = Some a' → aResult a' ≠ Some r) →
  merge_results idx actions ops results !! r
  = Some (Operation_merge (fAction a) (aInit a) (default [] (ops !! (idx + k)%nat))).
Proof.
  revert idx results k.
  induction actions as [|a0 actions IH]; intros idx results k Hk Hr Hlt Hlater.
  - by rewrite lookup_nil in Hk.
  - destruct k as [|k]; simpl in Hk.
    + injection Hk as ->. simpl. rewrite Hr, Nat.add_0_r.
      rewrite merge_results_other.
      * by apply list_lookup_insert_eq.
      * intros a' [k' Hk']%list_elem_of_lookup. apply (Hlater (S k')); [lia|done].
    + simpl. rewrite (IH (S idx) _ k Hk Hr).
      * by rewrite Nat.add_succ_r.
      * destruct (aResult a0); [by rewrite length_insert|done].
      * intros k' a' Hlt' Hk'. apply (Hlater (S k')); [lia|done].
Qed.


(** ** The event loop has a result *)

Lemma bsized_heap n h h' bs : bsized n h bs → bsized n (h ++ h') bs.
Proof.
  intros (H1 & H2 & H3). split; [done|]. split; [done|].
  intros slot last Hl Hne. destruct (H3 slot last Hl Hne) as (p & Hp & Hlt).
  exists p. split; [done|]. rewrite length_app. lia.
Qed.

Lemma shape_ok_log df ev rs : shape_ok df rs → shape_ok df (log ev rs).
Proof. by intros (H1 & H2 & H3 & H4). Qed.

Lemma CreateSlots_shape_ok df rs : shape_ok df (CreateSlots df rs).
Proof.
  split; [|split; [|split]].
  - intros id (f & bl & name & pd & Hin). cbn [CreateSlots filterSlots].
    exists (FilterSlots_fresh (fNSlots df)).
    split; [by eapply CreateSlots_filter_lookup|].
    unfold fsized. simpl. by rewrite !length_replicate.
  - intros name [x Hx]. cbn [CreateSlots branchSlots heap].
    exists (BranchSlots_fresh (fNSlots df)). rewrite lookup_fmap, Hx.
    split; [done|]. unfold bsized. simpl. rewrite !length_replicate.
    split; [done|]. split; [done|].
    intros slot last [-> _]%lookup_replicate Hne. done.
  - cbn [CreateSlots opSlots]. by rewrite length_fmap.
  - cbn [CreateSlots opSlots]. apply Forall_fmap, Forall_forall.
    intros a _. simpl. by rewrite length_replicate.
Qed.

Lemma total_inputs df tree resolve tmpbl (N : list string) slot entry :
  (∀ b rs, b ∈ N → shape_ok df rs →
     ∃ p rs', resolve b slot entry rs = Some (p, rs') ∧ shape_ok df rs'
              ∧ (p < length (heap rs'))%nat) →
  ∀ bl rs, (∀ b, b ∈ bl → b ∈ tmpbl → b ∈ N) → shape_ok df rs →
    ∃ vals rs', expand_pack (GetBranchValue tree resolve tmpbl slot entry) bl rs
                = Some (vals, rs') ∧ shape_ok df rs'.
Proof.
  intros Hres. induction bl as [|b bl IH]; intros rs Hbl Hok; simpl.
  - by exists [], rs.
  - assert (∃ v rs1, GetBranchValue tree resolve tmpbl slot entry b rs = Some (v, rs1)
                     ∧ shape_ok df rs1) as (v & rs1 & Hv & Hok1).
    { unfold GetBranchValue, isTmpBranch. case_bool_decide as Htmp.
      - destruct (Hres b rs) as (p & rs1 & Hp & Hok1 & Hlt); [|done|].
        { apply Hbl; [by left|done]. }
        rewrite Hp. simpl.
        destruct (lookup_lt_is_Some_2 (heap rs1) p Hlt) as [v Hv].
        rewrite Hv. simpl. by exists v, rs1.
      - eexists _, _. split; [done|]. by apply shape_ok_log. }
    rewrite Hv. simpl.
    destruct (IH rs1) as (vals & rs2 & Hvals & Hok2); [|done|].
    { intros b' Hb'. apply Hbl. by right. }
    rewrite Hvals. simpl. by exists (v :: vals), rs2.
Qed.

Lemma total_GetValue df tree resolve name e bl tmpbl (N : list string) slot entry rs :
  (slot < fNSlots df)%nat → entry ≠ -1 →
  is_Some (fBookedBranches df !! name) →
  (∀ b rs, b ∈ N → shape_ok df rs →
     ∃ p rs', resolve b slot entry rs = Some (p, rs') ∧ shape_ok df rs'
              ∧ (p < length (heap rs'))%nat) →
  (∀ b, b ∈ bl → b ∈ tmpbl → b ∈ N) →
  shape_ok df rs →
  ∃ p rs', GetValue tree resolve name e bl tmpbl slot entry rs = Some (p, rs')
           ∧ shape_ok df rs' ∧ (p < length (heap rs'))%nat.
Proof.
  intros Hslot Hentry Hname Hres Hbl Hok. unfold GetValue.
  pose proof Hok as (S1 & S2 & S3 & S4).
  destruct (S2 name Hname) as (bs & Hbs & Hl1 & Hl2 & Hvalid).
  rewrite Hbs. simpl.
  destruct (lookup_lt_is_Some_2 (bLastCheckedEntry bs) slot) as [last Hlast]; [lia|].
  rewrite Hlast. simpl.
  case_decide as Hne.
  - destruct (total_inputs df tree resolve tmpbl N slot entry Hres bl rs Hbl)
      as (vals & rs1 & Hvals & (T1 & T2 & T3 & T4)); [done|].
    rewrite Hvals. simpl.
    destruct (T2 name Hname) as (bs1 & Hbs1 & Hb1 & Hb2 & Hvalid1).
    rewrite Hbs1. simpl. unfold vector_set.
    rewrite !decide_True by lia. simpl.
    eexists _, _. split; [done|]. unfold shape_ok.
    cbn [heap branchSlots filterSlots opSlots set_branchSlots log set_heap].
    split; [|rewrite length_app; simpl; lia].
    split; [done|]. split; [|done].
    intros name' Hname'.
    destruct (decide (name' = name)) as [->|Hn].
    + rewrite lookup_insert_eq. eexists. split; [done|].
      split; [simpl; by rewrite length_insert|].
      split; [simpl; by rewrite length_insert|].
      intros slot' last' Hl' Hne'. simpl in *.
      destruct (decide (slot' = slot)) as [->|Hs].
      * rewrite list_lookup_insert_eq by lia. eexists. split; [done|].
        rewrite length_app. simpl. lia.
      * rewrite list_lookup_insert_ne in Hl' by done.
        rewrite list_lookup_insert_ne by done.
        destruct (Hvalid1 slot' last' Hl' Hne') as (p & Hp & Hlt).
        exists p. split; [done|]. rewrite length_app. lia.
    + rewrite lookup_insert_ne by done.
      destruct (T2 name' Hname') as (bs' & Hbs' & Hsz). exists bs'.
      split; [done|]. by apply bsized_heap.
  - subst last.
    destruct (Hvalid slot entry Hlast Hentry) as (p & Hp & Hlt).
    rewrite Hp. simpl. by exists p, rs.
Qed.

Lemma total_GetTmpBranchValue df tree n slot entry :
  (slot < fNSlots df)%nat → entry ≠ -1 → node_ok df n →
  ∀ b rs, b ∈ GetTmpBranches n → shape_ok df rs →
    ∃ p rs', GetTmpBranchValue tree n b slot entry rs = Some (p, rs')
             ∧ shape_ok df rs' ∧ (p < length (heap rs'))%nat.
Proof.
  intros Hslot Hentry.
  induction n as [|id f bl name pd IH|name e bl pd IH]; intros Hn b rs Hb Hok; simpl in *.
  - by apply elem_of_nil in Hb.
  - destruct Hn as [_ Hn]. by apply IH.
  - destruct Hn as (Hname & Hself & Hn).
    destruct (decide (b = name)) as [->|Hne].
    + eapply (total_GetValue df tree _ name e bl _ (GetTmpBranches pd)); try done.
      * intros b' rs' Hb' Hok'. by apply IH.
      * intros b' Hin [Hb'|Hb']%elem_of_app; [done|].
        apply list_elem_of_singleton in Hb'. by subst b'.
    + apply IH; [done| |done].
      apply elem_of_app in Hb as [Hb|Hb]; [done|].
      by apply list_elem_of_singleton in Hb.
Qed.

Lemma total_node_inputs df tree n slot entry bl rs :
  (slot < fNSlots df)%nat → entry ≠ -1 → node_ok df n → shape_ok df rs →
  ∃ vals rs',
    expand_pack (GetBranchValue tree (GetTmpBranchValue tree n) (GetTmpBranches n)
                   slot entry) bl rs = Some (vals, rs')
    ∧ shape_ok df rs'.
Proof.
  intros Hslot Hentry Hn Hok.
  eapply (total_inputs df tree _ _ (GetTmpBranches n)); [|done|done].
  intros b rs0 Hb Hok0. by apply total_GetTmpBranchValue.
Qed.

Lemma shape_ok_set_filter df id fs rs :
  fsized (fNSlots df) fs → shape_ok df rs →
  shape_ok df (set_filterSlots <[id := fs]> rs).
Proof.
  intros Hfs (S1 & S2 & S3 & S4). split; [|done].
  intros id' Hid'. cbn [set_filterSlots filterSlots].
  destruct (decide (id' = id)) as [->|Hne].
  - exists fs. by rewrite lookup_insert_eq.
  - rewrite lookup_insert_ne by done. by apply S1.
Qed.

Lemma total_set_LastResult df id slot v rs :
  (slot < fNSlots df)%nat → booked_filter df id → shape_ok df rs →
  ∃ rs', set_LastResult id slot v rs = Some rs' ∧ shape_ok df rs'.
Proof.
  intros Hslot Hid Hok. pose proof Hok as (S1 & _).
  destruct (S1 id Hid) as (fs & Hfs & H1 & H2 & H3 & H4).
  unfold set_LastResult, vector_set. rewrite Hfs. simpl.
  rewrite decide_True by lia. simpl. eexists. split; [done|].
  apply shape_ok_set_filter; [|done].
  unfold fsized. simpl. by rewrite length_insert.
Qed.

Lemma total_set_LastCheckedEntry df id slot e rs :
  (slot < fNSlots df)%nat → booked_filter df id → shape_ok df rs →
  ∃ rs', set_LastCheckedEntry id slot e rs = Some rs' ∧ shape_ok df rs'.
Proof.
  intros Hslot Hid Hok. pose proof Hok as (S1 & _).
  destruct (S1 id Hid) as (fs & Hfs & H1 & H2 & H3 & H4).
  unfold set_LastCheckedEntry, vector_set. rewrite Hfs. simpl.
  rewrite decide_True by lia. simpl. eexists. split; [done|].
  apply shape_ok_set_filter; [|done].
  unfold fsized. simpl. by rewrite length_insert.
Qed.

Lemma total_count_passed df id slot passed rs :
  (slot < fNSlots df)%nat → booked_filter df id → shape_ok df rs →
  ∃ rs', count_passed id slot passed rs = Some rs' ∧ shape_ok df rs'.
Proof.
  intros Hslot Hid Hok. pose proof Hok as (S1 & _).
  destruct (S1 id Hid) as (fs & Hfs & H1 & H2 & H3 & H4).
  unfold count_passed, vector_set. rewrite Hfs. simpl. destruct passed.
  - destruct (lookup_lt_is_Some_2 (fAccepted fs) slot) as [a Ha]; [lia|].
    rewrite Ha. simpl. rewrite decide_True by lia. simpl. eexists. split; [done|].
    apply shape_ok_set_filter; [|done].
    unfold fsized. simpl. by rewrite length_insert.
  - destruct (lookup_lt_is_Some_2 (fRejected fs) slot) as [a Ha]; [lia|].
    rewrite Ha. simpl. rewrite decide_True by lia. simpl. eexists. split; [done|].
    apply shape_ok_set_filter; [|done].
    unfold fsized. simpl. by rewrite length_insert.
Qed.

Lemma total_read_result df id slot rs :
  (slot < fNSlots df)%nat → booked_filter df id → shape_ok df rs →
  ∃ r, (fs' ← filterSlots rs !! id; r ← fLastResult fs' !! slot; Some (negb (r =? 0), rs))
       = Some (r, rs).
Proof.
  intros Hslot Hid (S1 & _).
  destruct (S1 id Hid) as (fs & Hfs & H1 & H2 & H3 & H4). rewrite Hfs. simpl.
  destruct (lookup_lt_is_Some_2 (fLastResult fs) slot) as [v Hv]; [lia|].
  rewrite Hv. simpl. by eexists.
Qed.

Lemma total_CheckFilters df tree n slot entry rs :
  (slot < fNSlots df)%nat → entry ≠ -1 → node_ok df n → shape_ok df rs →
  ∃ r rs', CheckFilters tree n slot entry rs = Some (r, rs') ∧ shape_ok df rs'.
Proof.
  intros Hslot Hentry. revert rs.
  induction n as [|id f bl name pd IH|name e bl pd IH]; intros rs Hn Hok.
  - by exists true, rs.
  - destruct Hn as [Hid Hn]. cbn [CheckFilters].
    pose proof Hok as (S1 & _).
    destruct (S1 id Hid) as (fs & Hfs & H1 & H2 & H3 & H4).
    rewrite Hfs. cbn [mbind option_bind].
    destruct (lookup_lt_is_Some_2 (fLastCheckedEntry fs) slot) as [last Hlast]; [lia|].
    rewrite Hlast. cbn [mbind option_bind].
    case_decide as Hne.
    + destruct (IH rs Hn Hok) as (up & rs1 & Hup & Hok1).
      rewrite Hup. cbn [mbind option_bind].
      destruct up; cbn [negb].
      * unfold CheckFilterHelper.
        destruct (total_node_inputs df tree pd slot entry bl rs1)
          as (vals & rs2 & Hvals & Hok2); [done..|].
        rewrite Hvals. cbn [mbind option_bind].
        destruct (total_count_passed df id slot (f vals)
                    (log (EvFilter id slot entry (f vals)) rs2))
          as (rs3 & Hc & Hok3); [done|done|by apply shape_ok_log|].
        rewrite Hc. cbn [mbind option_bind].
        destruct (total_set_LastResult df id slot (int_of_bool (f vals)) rs3)
          as (rs4 & Hr & Hok4); [done..|].
        rewrite Hr. cbn [mbind option_bind].
        destruct (total_set_LastCheckedEntry df id slot entry rs4)
          as (rs5 & Hl & Hok5); [done..|].
        rewrite Hl. cbn [mbind option_bind].
        destruct (total_read_result df id slot rs5) as [r Hread]; [done..|].
        rewrite Hread. by exists r, rs5.
      * destruct (total_set_LastResult df id slot 0 rs1) as (rs3 & Hr & Hok3); [done..|].
        rewrite Hr. cbn [mbind option_bind].
        destruct (total_set_LastCheckedEntry df id slot entry rs3)
          as (rs5 & Hl & Hok5); [done..|].
        rewrite Hl. cbn [mbind option_bind].
        destruct (total_read_result df id slot rs5) as [r Hread]; [done..|].
        rewrite Hread. by exists r, rs5.
    + cbn [mbind option_bind].
      destruct (total_read_result df id slot rs) as [r Hread]; [done..|].
      rewrite Hread. by exists r, rs.
  - destruct Hn as (_ & _ & Hn). simpl. by apply IH.
Qed.

Lemma total_Action_Run df tree idx a slot entry rs :
  (slot < fNSlots df)%nat → entry ≠ -1 → node_ok df (aPrevData a) →
  (idx < length (fBookedActions df))%nat → shape_ok df rs →
  ∃ rs', Action_Run tree idx a slot entry rs = Some rs' ∧ shape_ok df rs'.
Proof.
  intros Hslot Hentry Hn Hidx Hok. unfold Action_Run.
  destruct (total_CheckFilters df tree (aPrevData a) slot entry rs)
    as (passed & rs1 & Hc & Hok1); [done..|].
  rewrite Hc. cbn [mbind option_bind].
  destruct passed; [|by exists rs1].
  unfold ExecuteAction.
  destruct (total_node_inputs df tree (aPrevData a) slot entry (aBranches a) rs1)
    as (vals & rs2 & Hvals & Hok2); [done..|].
  rewrite Hvals. cbn [mbind option_bind].
  destruct Hok2 as (S1 & S2 & S3 & S4). cbn [log opSlots].
  destruct (lookup_lt_is_Some_2 (opSlots rs2) idx) as [partials Hp]; [lia|].
  rewrite Hp. cbn [mbind option_bind].
  assert (Hlen : length partials = fNSlots df).
  { eapply Forall_forall in S4; [exact S4|]. by eapply list_elem_of_lookup_2. }
  destruct (lookup_lt_is_Some_2 partials slot) as [partial Hpartial]; [lia|].
  rewrite Hpartial. cbn [mbind option_bind]. unfold vector_set.
  rewrite decide_True by lia. cbn [mbind option_bind].
  eexists. split; [done|].
  split; [done|]. split; [done|]. cbn [set_opSlots log opSlots].
  split; [by rewrite length_insert|].
  apply Forall_insert; [done|]. by rewrite length_insert.
Qed.

Lemma total_RunActions df tree actions idx slot entry rs :
  (slot < fNSlots df)%nat → entry ≠ -1 →
  (∀ a, a ∈ actions → node_ok df (aPrevData a)) →
  (idx + length actions ≤ length (fBookedActions df))%nat → shape_ok df rs →
  ∃ rs', RunActions tree idx actions slot entry rs = Some rs' ∧ shape_ok df rs'.
Proof.
  intros Hslot Hentry. revert idx rs.
  induction actions as [|a actions IH]; intros idx rs Hn Hidx Hok; simpl in *.
  - by exists rs.
  - destruct (total_Action_Run df tree idx a slot entry rs) as (rs1 & Ha & Hok1);
      [done|done|by (apply Hn; left)|lia|done|].
    rewrite Ha. cbn [mbind option_bind].
    apply IH; [|lia|done]. intros a' Hin. apply Hn. by right.
Qed.

Lemma total_RunEntries df tree entries rs :
  (∀ a, a ∈ fBookedActions df → node_ok df (aPrevData a)) →
  Forall (λ se : nat * Long64_t, (fst se < fNSlots df)%nat ∧ 0 ≤ snd se) entries →
  shape_ok df rs →
  ∃ rs', RunEntries tree (fBookedActions df) entries rs = Some rs' ∧ shape_ok df rs'.
Proof.
  intros Hn Hentries. revert rs.
  induction Hentries as [|[slot entry] entries [Hslot Hentry] _ IH]; intros rs Hok; simpl in *.
  - by exists rs.
  - destruct (total_RunActions df tree (fBookedActions df) 0 slot entry rs)
      as (rs1 & Ha & Hok1); [done|lia|done|done|done|].
    rewrite Ha. cbn [mbind option_bind]. by apply IH.
Qed.

(** The event loop of a runnable engine has a result. *)
Lemma Run_total df w : runnable df → ∃ w', Run df w = Some w'.
Proof.
  intros [Hn Hentries]. unfold Run.
  destruct (total_RunEntries df (fTree df) (fEntries df) (CreateSlots df (state w)))
    as (rs & Hrs & _); [done|done|apply CreateSlots_shape_ok|].
  rewrite Hrs. simpl. by eexists.
Qed.

(** ** The result proxy *)

Lemma Run_inv df w w' :
  Run df w = Some w' →
  ∃ rs, RunEntries (fTree df) (fBookedActions df) (fEntries df) (CreateSlots df (state w))
        = Some rs
    ∧ state w' = rs
    ∧ results w' = merge_results 0 (fBookedActions df) (opSlots rs) (results w)
    ∧ readiness w' = set_ready (fResProxyReadiness df) (readiness w)
    ∧ HasRunAtLeastOnce w' = Some true.
Proof.
  unfold Run. destruct (RunEntries _ _ _ _) as [rs|]; simpl; [|discriminate].
  intros [= <-]. by exists rs.
Qed.

(** C7. Get checks the readiness flag.  When the flag is set it returns the
    result object without running anything.  When the flag is unset it runs
    the event loop of the engine, once; on a runnable engine the loop has a
    result and Get returns the result object as the run leaves it, which is
    the merge of the per-slot partials of the action, with the flag raised.
    When the flag is unset and the engine has gone out of scope, Get fails
    with the exception of an unreachable data frame. *)
Theorem Get_runs_iff_not_ready (p : TActionResultProxy) (w : World) (ready : bool)
    (Hflag : readiness w !! fReadiness p = Some ready) :
  (ready = true → Get p w = (v ← results w !! fObjPtr p; Some (Ok (v, w))))
  ∧ (ready = false → ∀ df, engine w = Some df →
       Get p w = (w' ← Run df w; v ← results w' !! fObjPtr p; Some (Ok (v, w')))
       ∧ (runnable df → (fObjPtr p < length (results w))%nat →
          ∃ v w', Get p w = Some (Ok (v, w')) ∧ Run df w = Some w'
            ∧ results w' !! fObjPtr p = Some v
            ∧ (fReadiness p ∈ fResProxyReadiness df →
               readiness w' !! fReadiness p = Some true)
            ∧ ∀ idx a,
                fBookedActions df !! idx = Some a → aResult a = Some (fObjPtr p) →
                (∀ idx' a', (idx < idx')%nat → fBookedActions df !! idx' = Some a' →
                            aResult a' ≠ Some (fObjPtr p)) →
                v = Operation_merge (fAction a) (aInit a)
                      (default [] (opSlots (state w') !! idx))))
  ∧ (ready = false → engine w = None → Get p w = Some (Throw EngineGone)).
Proof.
  split; [|split].
  - intros ->. unfold Get. rewrite Hflag. simpl. by destruct (results w !! fObjPtr p).
  - intros -> df He.
    assert (HG : Get p w = (w' ← Run df w; v ← results w' !! fObjPtr p; Some (Ok (v, w')))).
    { unfold Get, TriggerRun. rewrite Hflag, He. simpl. by destruct (Run df w). }
    split; [exact HG|]. intros Hrun Hlt.
    destruct (Run_total df w Hrun) as [w' HR].
    destruct (Run_inv _ _ _ HR) as (rs & Hrs & Hst & Hres & Hrd & _).
    destruct (lookup_lt_is_Some_2 (results w') (fObjPtr p)) as [v Hv].
    { by rewrite Hres, length_merge_results. }
    exists v, w'. rewrite HG, HR. simpl. rewrite Hv. simpl.
    split; [done|]. split; [done|]. split; [done|]. split.
    + intros Hin. rewrite Hrd. apply set_ready_raised; [done|].
      by apply lookup_lt_Some in Hflag.
    + intros idx a Ha Hr Hlater.
      rewrite Hres, (merge_results_at 0 _ _ _ idx a (fObjPtr p) Ha Hr Hlt Hlater) in Hv.
      injection Hv as <-. by rewrite Hst.
  - intros -> He. unfold Get, TriggerRun. by rewrite Hflag, He.
Qed.

Lemma booked_count_runnable : runnable (engine_of (booked CallCount [1; 2]%float).2).
Proof.
  split.
  - intros a Hin. elem_of_concrete Hin. by subst a.
  - vm_compute. repeat constructor; discriminate.
Qed.

Lemma Get_runs_iff_not_ready_witness :
  (∃ w', Get (booked CallCount [1; 2]%float).1 (booked CallCount [1; 2]%float).2
         = Some (Ok (VUInt 2, w'))
         ∧ readiness w' !! 0%nat = Some true
         ∧ Get (booked CallCount [1; 2]%float).1 w' = Some (Ok (VUInt 2, w')))
  ∧ Get (booked CallCount [1; 2]%float).1 (destroy (booked CallCount [1; 2]%float).2)
    = Some (Throw EngineGone).
Proof.
  split.
  - destruct (Get_runs_iff_not_ready (booked CallCount [1; 2]%float).1
                (booked CallCount [1; 2]%float).2 false eq_refl) as (_ & Hrun & _).
    destruct (Hrun eq_refl (engine_of (booked CallCount [1; 2]%float).2) eq_refl)
      as [_ Htot].
    destruct Htot as (v & w' & Hget & HR & Hv & Hready & _).
    { apply booked_count_runnable. }
    { vm_compute. lia. }
    assert (v = VUInt 2) as ->.
    { vm_compute in HR. injection HR as <-. vm_compute in Hv. by injection Hv as <-. }
    exists w'. split; [done|].
    assert (Hflag : readiness w' !! 0%nat = Some true).
    { apply Hready. vm_compute. by left. }
    split; [done|].
    destruct (Get_runs_iff_not_ready (booked CallCount [1; 2]%float).1 w' true Hflag)
      as (Hhit & _).
    rewrite (Hhit eq_refl).
    change (fObjPtr (booked CallCount [1; 2]%float).1) with 0%nat in *.
    by rewrite Hv.
  - destruct (Get_runs_iff_not_ready (booked CallCount [1; 2]%float).1
                (destroy (booked CallCount [1; 2]%float).2) false eq_refl) as (_ & _ & Hgone).
    by apply Hgone.
Defined.

(** ** Lazy and instant actions: the statement *)

(** C1. Booking an action other than Foreach/ForeachSlot (Count, Reduce,
    Take, Min, Max, Mean, Histo1D/2D/3D) only registers the action and returns
    a result proxy whose readiness flag is unset: the state of the nodes, with
    the trace of column reads and user calls, is untouched and the event loop
    is not run.  ForeachSlot and Foreach book their action and then are the
    event loop of the engine, run inside the booking call; on a runnable
    engine the call returns and the engine has then run. *)
Theorem lazy_actions_book_foreach_runs :
  (∀ c n w p w',
     call c n w = Ok (p, w') →
     state w' = state w
     ∧ HasRunAtLeastOnce w' = HasRunAtLeastOnce w
     ∧ readiness w' !! fReadiness p = Some false
     ∧ (∃ a, aPrevData a = n
             ∧ (fBookedActions <$> engine w')
               = ((λ df, fBookedActions df ++ [a]) <$> engine w)))
  ∧ (∀ n k bl w df actualBl,
       engine w = Some df →
       PickBranchNames k bl (fDefaultBranches df) = Ok actualBl →
       let a := mkAction ForeachOperation actualBl n None VVoid in
       ForeachSlot n (S k) bl w
       = (w2 ← Run (emplace_action a df) (Book_action a w); Some (Ok w2))
       ∧ Foreach n k bl w
         = (w2 ← Run (emplace_action a df) (Book_action a w); Some (Ok w2))
       ∧ (runnable (emplace_action a df) →
          ∃ w2, Run (emplace_action a df) (Book_action a w) = Some w2
                ∧ ForeachSlot n (S k) bl w = Some (Ok w2)
                ∧ HasRunAtLeastOnce w2 = Some true)).
Proof.
  split.
  - intros c n w p w' H.
    assert (∃ op bl init, BuildAndBook op bl init n w = Ok (p, w')) as (op & bl & init & H').
    { destruct c; simpl in H;
        unfold Count, Reduce, Take, Min, Max, Mean, Histo1D, Histo2D, Histo3D in H;
        repeat match type of H with
          | Result_bind ?m _ = Ok _ => destruct m; simpl in H; [|discriminate H]
          | (if ?b then _ else _) = Ok _ => destruct b; simpl in H; try discriminate H
          end; eauto. }
    apply BuildAndBook_lazy in H' as (Hs & _ & Hr & Hfl & Hp & _ & _ & Hb).
    repeat split; try done.
    + rewrite Hfl, Hp. by rewrite lookup_app_r, Nat.sub_diag.
    + eexists. split; [|exact Hb]. done.
  - intros n k bl w df actualBl He Hpick a.
    assert (HF : ForeachSlot n (S k) bl w
                 = (w2 ← Run (emplace_action a df) (Book_action a w); Some (Ok w2))).
    { unfold ForeachSlot, GetDataFrameChecked. rewrite He. simpl.
      rewrite Nat.sub_0_r, Hpick. simpl. fold a.
      unfold Book_action at 1, map_engine. simpl. by rewrite He. }
    split; [exact HF|]. split; [exact HF|].
    intros Hrun. destruct (Run_total _ (Book_action a w) Hrun) as [w2 HR].
    exists w2. split; [done|]. rewrite HF, HR. split; [done|].
    by destruct (Run_inv _ _ _ HR) as (rs & _ & _ & _ & _ & Hhas).
Qed.

Lemma lazy_actions_book_foreach_runs_witness :
  (∃ p w', Count TDataFrameImplNode (frame_x [1%float]) = Ok (p, w')
           ∧ trace (state w') = [] ∧ HasRunAtLeastOnce w' = Some false)
  ∧ (∃ w2, ForeachSlot TDataFrameImplNode 2 ["x"] (frame_x [1%float]) = Some (Ok w2)
           ∧ trace (state w2) = [EvAction 0 0 0; EvReadColumn "x" 0 0]
           ∧ HasRunAtLeastOnce w2 = Some true).
Proof.
  destruct lazy_actions_book_foreach_runs as [Hlazy Hinstant]. split.
  - destruct (Count TDataFrameImplNode (frame_x [1%float])) as [[p w']|] eqn:Hc;
      [|discriminate Hc].
    exists p, w'. split; [reflexivity|].
    destruct (Hlazy CallCount _ _ _ _ Hc) as (Hs & Hr & _).
    rewrite Hs, Hr. split; reflexivity.
  - destruct (Hinstant TDataFrameImplNode 1%nat ["x"] (frame_x [1%float])
                (engine_of (frame_x [1%float])) ["x"] eq_refl eq_refl) as (_ & _ & Htot).
    destruct Htot as (w2 & HR & HF & Hhas).
    { split.
      - intros a Hin. elem_of_concrete Hin. by subst a.
      - vm_compute. repeat constructor; discriminate. }
    exists w2. split; [done|]. split; [|done].
    vm_compute in HR. by injection HR as <-.
Defined.

(** ** Min and Max *)






(** ** The names resolved and the readers built on them *)

Lemma providedBranches_le (bl : BranchNames) : (providedBranches bl ≤ length bl)%nat.
Proof. rewrite providedBranches_filter. apply length_filter. Qed.

Lemma GetBranchNames_Ok_inv needed bl w r :
  GetBranchNames needed bl w = Ok r →
  (needed = providedBranches bl ∧ r = bl)
  ∨ (needed ≠ providedBranches bl
     ∧ ∃ df, engine w = Some df ∧ (needed ≤ length (fDefaultBranches df))%nat
             ∧ r = take needed (fDefaultBranches df)).
Proof.
  unfold GetBranchNames, GetDefaultBranchNames, GetDataFrameChecked.
  case_decide as Hn.
  - intros [= <-]. by left.
  - destruct (engine w) as [df|]; simpl; [|discriminate].
    case_decide as Hd; [discriminate|].
    intros [= <-]. right. split; [done|]. exists df. split; [done|]. split; [lia|done].
Qed.

(** X1. The names GetBranchNames resolves are at least as many as the
    branches the action needs, so that the subscripts [fBranches[S]] of the
    action built on them are within range. *)
Theorem GetBranchNames_enough (needed : nat) (bl r : BranchNames) (w : World)
    (Hr : GetBranchNames needed bl w = Ok r) :
  (needed ≤ length r)%nat.
Proof.
  destruct (GetBranchNames_Ok_inv _ _ _ _ Hr) as [[-> ->]|(_ & df & _ & Hle & ->)].
  - apply providedBranches_le.
  - rewrite length_take. lia.
Qed.

Lemma GetBranchNames_enough_witness :
  GetBranchNames 1 ["x"; ""] (frame_x []) = Ok ["x"; ""] ∧ (1 ≤ length ["x"; ""])%nat.
Proof.
  split; [reflexivity|].
  apply (GetBranchNames_enough 1 ["x"; ""] ["x"; ""] (frame_x [])). reflexivity.
Defined.

(** X2. Resolving names a second time gives the same names: what
    GetBranchNames returned is returned again when it is passed back (the
    overloads of Histo1D resolve the names twice). *)
Theorem GetBranchNames_idempotent (needed : nat) (bl r : BranchNames) (w : World)
    (Hr : GetBranchNames needed bl w = Ok r) :
  GetBranchNames needed r w = Ok r.
Proof.
  destruct (GetBranchNames_Ok_inv _ _ _ _ Hr) as [[-> ->]|(_ & df & Hdf & Hle & ->)];
    [done|].
  unfold GetBranchNames. case_decide as Hn; [done|].
  unfold GetDefaultBranchNames, GetDataFrameChecked. rewrite Hdf. simpl.
  by rewrite decide_False by lia.
Qed.

Lemma GetBranchNames_idempotent_witness :
  GetBranchNames 1 [""] (frame_x []) = Ok ["x"]
  ∧ GetBranchNames 1 ["x"] (frame_x []) = Ok ["x"].
Proof.
  split; [reflexivity|].
  apply (GetBranchNames_idempotent 1 [""] ["x"] (frame_x [])). reflexivity.
Defined.

Lemma Checked_for_Fine {A B} (body : A → Checked B) (g : A → B) (l : list A) :
  (∀ a, a ∈ l → body a = Fine (g a)) → Checked_for body l = Fine (g <$> l).
Proof.
  induction l as [|a l IH]; intros H; [done|].
  cbn [Checked_for]. rewrite (H a) by left. simpl.
  rewrite IH; [done|]. intros b Hb. apply H. by right.
Qed.

Lemma Checked_for_out_of_range {A B} (body : A → Checked B) (l : list A) a :
  a ∈ l → body a = std_out_of_range → Checked_for body l = std_out_of_range.
Proof.
  induction l as [|a' l IH]; intros Hin Ha; [by apply elem_of_nil in Hin|].
  apply elem_of_cons in Hin as [<-|Hin].
  - cbn [Checked_for]. by rewrite Ha.
  - cbn [Checked_for]. destruct (body a'); [|done]. simpl. by rewrite IH.
Qed.

Lemma fmap_lookup_seq {A} `{Inhabited A} (l : list A) (n : nat) :
  (n ≤ length l)%nat → (λ i, l !!! i) <$> seq 0 n = take n l.
Proof.
  intros Hn. apply list_eq. intros i.
  rewrite list_lookup_fmap.
  destruct (decide (i < n)%nat) as [Hi|Hi].
  - rewrite lookup_seq_lt by done. simpl. rewrite lookup_take_lt by done.
    symmetry. apply list_lookup_lookup_total_lt. lia.
  - rewrite lookup_seq_ge by lia. simpl. by rewrite lookup_take_ge by lia.
Qed.

Lemma BuildReaderValues_Fine (nArgs : nat) (bl tmpbl : BranchNames) :
  (nArgs ≤ length bl)%nat →
  BuildReaderValues nArgs bl tmpbl
  = Fine ((λ b, if isTmpBranch tmpbl b then None else Some (TTreeReaderValue b))
            <$> take nArgs bl).
Proof.
  intros Hn. unfold BuildReaderValues.
  rewrite (Checked_for_Fine _ (λ i, isTmpBranch tmpbl (bl !!! i))); last first.
  { intros i Hi. apply elem_of_seq in Hi. unfold vector_at.
    destruct (lookup_lt_is_Some_2 bl i) as [b Hb]; [lia|].
    rewrite Hb. simpl. by rewrite (list_lookup_total_correct _ _ _ Hb). }
  simpl.
  rewrite (Checked_for_Fine _
             (λ i, if isTmpBranch tmpbl (bl !!! i) then None
                   else Some (TTreeReaderValue (bl !!! i)))); last first.
  { intros i Hi. apply elem_of_seq in Hi.
    rewrite list_lookup_fmap, lookup_seq_lt by lia. simpl.
    destruct (isTmpBranch tmpbl (bl !!! i)); [done|]. unfold vector_at.
    destruct (lookup_lt_is_Some_2 bl i) as [b Hb]; [lia|].
    rewrite Hb. simpl. by rewrite (list_lookup_total_correct _ _ _ Hb). }
  f_equal. rewrite <- (fmap_lookup_seq bl nArgs Hn).
  by rewrite <- list_fmap_compose.
Qed.

Lemma BuildReaderValues_throws (nArgs : nat) (bl tmpbl : BranchNames) :
  (length bl < nArgs)%nat → BuildReaderValues nArgs bl tmpbl = std_out_of_range.
Proof.
  intros Hn. unfold BuildReaderValues.
  rewrite (Checked_for_out_of_range _ _ (length bl)); [done| |].
  - apply elem_of_seq. lia.
  - unfold vector_at. by rewrite lookup_ge_None_2.
Qed.

(** X3. BuildReaderValues gives one pointer per branch parameter of the
    callable, null exactly for the names that are temporary branches of the
    node and a reader of the tree on the name otherwise; it throws
    std::out_of_range when fewer names are given than the callable has
    parameters. *)
Theorem BuildReaderValues_spec (nArgs : nat) (bl tmpbl : BranchNames) :
  BuildReaderValues nArgs bl tmpbl
  = if decide (nArgs ≤ length bl)%nat
    then Fine ((λ b, if isTmpBranch tmpbl b then None else Some (TTreeReaderValue b))
                 <$> take nArgs bl)
    else std_out_of_range.
Proof.
  case_decide as Hn.
  - by apply BuildReaderValues_Fine.
  - apply BuildReaderValues_throws. lia.
Qed.

(** X4. The names that GetBranchNames resolves for an action that needs
    [needed] branches never make BuildReaderValues throw: there is a reader
    (or a null pointer) for each of the first [needed] names. *)
Theorem BuildReaderValues_of_resolved (needed : nat) (bl r tmpbl : BranchNames)
    (w : World) (Hr : GetBranchNames needed bl w = Ok r) :
  ∃ tvb, BuildReaderValues needed r tmpbl = Fine tvb ∧ length tvb = needed.
Proof.
  assert (needed ≤ length r)%nat as Hle.
  { destruct (GetBranchNames_Ok_inv _ _ _ _ Hr) as [[-> ->]|(_ & df & _ & Hle & ->)].
    - apply providedBranches_le.
    - rewrite length_take. lia. }
  rewrite BuildReaderValues_Fine by done.
  eexists. split; [done|]. rewrite length_fmap, length_take. lia.
Qed.

Lemma expand_pack_seq {A B} (g' : nat → RunState → option (B * RunState))
    (g : A → RunState → option (B * RunState)) (l : list A) :
  ∀ k rs, (∀ i a, l !! i = Some a → ∀ rs, g' (k + i)%nat rs = g a rs) →
    expand_pack g' (seq k (length l)) rs = expand_pack g l rs.
Proof.
  induction l as [|a l IH]; intros k rs H; [done|].
  cbn [length seq expand_pack].
  rewrite <- (H 0%nat a eq_refl rs). rewrite Nat.add_0_r.
  destruct (g' k rs) as [[b rs1]|]; [|done]. simpl.
  rewrite (IH (S k) rs1); [done|].
  intros i a' Hi rs'. rewrite <- (H (S i) a' Hi rs'). f_equal. lia.
Qed.

(** X5. With the readers that BuildReaderValues builds for a node, the values
    handed to the callable are those of its first [nArgs] names, fetched
    through the engine exactly for the names that are temporary branches
    visible at the node and read from the tree for all the others. *)
Theorem GetBranchValues_of_built (tree : TTree) (resolve : TmpResolver)
    (nArgs : nat) (bl tmpbl : BranchNames) (tvb : TVBVec_t)
    (slot : nat) (entry : Long64_t) (rs : RunState)
    (Hbuilt : BuildReaderValues nArgs bl tmpbl = Fine tvb) :
  GetBranchValues tree resolve tvb bl nArgs slot entry rs
  = expand_pack (GetBranchValue tree resolve tmpbl slot entry) (take nArgs bl) rs.
Proof.
  destruct (decide (nArgs ≤ length bl)%nat) as [Hn|Hn]; last first.
  { rewrite BuildReaderValues_throws in Hbuilt by lia. discriminate. }
  rewrite BuildReaderValues_Fine in Hbuilt by done. injection Hbuilt as <-.
  unfold GetBranchValues.
  assert (length (take nArgs bl) = nArgs) as Hlen by (rewrite length_take; lia).
  rewrite <- (expand_pack_seq
                (λ S rs, readerValue ← ((λ b, if isTmpBranch tmpbl b then None
                                              else Some (TTreeReaderValue b))
                                          <$> take nArgs bl) !! S;
                         branch ← bl !! S;
                         GetBranchValue_reader tree resolve readerValue slot entry branch rs)
                (GetBranchValue tree resolve tmpbl slot entry) (take nArgs bl) 0%nat rs).
  { by rewrite Hlen. }
  intros i b Hb rs'. simpl.
  rewrite list_lookup_fmap, Hb. simpl.
  apply lookup_take_Some in Hb as [Hb _]. rewrite Hb. simpl.
  unfold GetBranchValue. by destruct (isTmpBranch tmpbl b).
Qed.

Lemma GetBranchValues_of_built_witness :
  BuildReaderValues 2 ["x"; "y"] ["y"] = Fine [Some (TTreeReaderValue "x"); None]
  ∧ ∀ tree resolve slot entry rs,
      GetBranchValues tree resolve [Some (TTreeReaderValue "x"); None] ["x"; "y"] 2
        slot entry rs
      = expand_pack (GetBranchValue tree resolve ["y"] slot entry) (take 2 ["x"; "y"]) rs.
Proof.
  split; [by vm_compute|].
  intros tree resolve slot entry rs.
  apply (GetBranchValues_of_built tree resolve 2 ["x"; "y"] ["y"]). by vm_compute.
Defined.

Lemma BuildReaderValues_of_resolved_witness :
  GetBranchNames 1 ["x"; ""] (frame_x []) = Ok ["x"; ""]
  ∧ ∃ tvb, BuildReaderValues 1 ["x"; ""] [] = Fine tvb ∧ length tvb = 1%nat.
Proof.
  split; [reflexivity|].
  apply (BuildReaderValues_of_resolved 1 ["x"; ""] ["x"; ""] [] (frame_x [])).
  reflexivity.
Defined.

(** ** Histo1D by name *)

Lemma providedBranches_app (l1 l2 : BranchNames) :
  providedBranches (l1 ++ l2) = (providedBranches l1 + providedBranches l2)%nat.
Proof. rewrite !providedBranches_filter, filter_app, length_app. done. Qed.

Lemma GetBranchNames_padded needed bl r w l :
  GetBranchNames needed bl w = Ok r → l = r ∨ l = r ++ [""] →
  ∃ r', GetBranchNames needed l w = Ok r' ∧ take needed r' = take needed r.
Proof.
  intros Hr Hl.
  assert (Hp : providedBranches l = providedBranches r).
  { destruct Hl as [->| ->]; [done|]. rewrite providedBranches_app. simpl.
    unfold providedBranches at 2. simpl. lia. }
  assert (Htake : (needed ≤ length r)%nat → take needed l = take needed r).
  { intros Hle. destruct Hl as [->| ->]; [done|]. by rewrite take_app_le. }
  destruct (GetBranchNames_Ok_inv _ _ _ _ Hr) as [[-> ->]|(_ & df & Hdf & Hle & ->)].
  - exists l. split.
    + unfold GetBranchNames. by rewrite decide_True.
    + apply Htake, providedBranches_le.
  - unfold GetBranchNames. case_decide as Hn.
    + exists l. split; [done|]. apply Htake. rewrite length_take. lia.
    + exists (take needed (fDefaultBranches df)). split; [|done].
      unfold GetDefaultBranchNames, GetDataFrameChecked. rewrite Hdf. simpl.
      by rewrite decide_False by lia.
Qed.

(** X6. Histo1D by name and range, with the engine in scope: it fails only
    as the resolution of its names fails; otherwise the subscripts [bl[0]] and
    [bl[1]] are within range and one action is booked, on the names that were
    resolved (the second resolution, inside Histo1D with a model, changes
    none of the names the action needs), with the fill that buffers when the
    range is from 0 to 0, as it is when only names are given. *)
Theorem Histo1D_by_name (n : Node) (weighted : bool) (val weight : string) (nBins : Z)
    (minVal maxVal : double) (w : World) (df : TDataFrameImpl)
    (Hdf : engine w = Some df) :
  match GetBranchNames (neededBranches (negb weighted) true true) [val; weight] w with
  | Throw e => Histo1D_range n weighted val nBins minVal maxVal weight w = Some (Throw e)
  | Ok bl =>
      ∃ p w' bl',
        Histo1D_range n weighted val nBins minVal maxVal weight w = Some (Ok (p, w'))
        ∧ take (neededBranches (negb weighted) true true) bl'
          = take (neededBranches (negb weighted) true true) bl
        ∧ (fBookedActions <$> engine w')
          = Some (fBookedActions df
                  ++ [mkAction (if HasAxisLimits (mkTHModel minVal maxVal)
                                then FillTOOperation else FillOperation)
                        bl' n (Some (length (results w))) (VHisto [])])
  end.
Proof.
  unfold Histo1D_range.
  destruct (GetBranchNames _ [val; weight] w) as [bl|e] eqn:Hbl; [|done].
  assert (Hlen : length bl = 1%nat ∨ length bl = 2%nat).
  { destruct (GetBranchNames_Ok_inv _ _ _ _ Hbl) as [[_ ->]|(_ & df' & _ & Hle & ->)].
    - by right.
    - rewrite length_take. unfold neededBranches in *.
      destruct weighted; cbn [negb Nat.b2n Nat.add] in *; lia. }
  assert (∃ bl0 bl1, bl !! 0%nat = Some bl0
            ∧ (if decide (length bl = 1%nat) then Some "" else bl !! 1%nat) = Some bl1
            ∧ ([bl0; bl1] = bl ∨ [bl0; bl1] = bl ++ [""]))
    as (bl0 & bl1 & H0 & H1 & Hpad).
  { destruct bl as [|b0 [|b1 [|b2 bl]]]; simpl in Hlen.
    - lia.
    - exists b0, "". by repeat split; [right].
    - exists b0, b1. by repeat split; [left].
    - lia. }
  rewrite H0, H1. simpl.
  destruct (GetBranchNames_padded _ _ _ _ [bl0; bl1] Hbl Hpad) as (bl' & Hbl' & Htake).
  unfold Histo1D. rewrite Hbl'. simpl.
  unfold BuildAndBook, GetDataFrameChecked. rewrite Hdf. simpl.
  eexists _, _, bl'. split; [done|]. split; [done|]. simpl. by rewrite Hdf.
Qed.

Lemma Histo1D_by_name_witness :
  ∃ p w' bl',
    Histo1D_names TDataFrameImplNode false "" "" (frame_x []) = Some (Ok (p, w'))
    ∧ take 1 bl' = ["x"]
    ∧ (fBookedActions <$> engine w')
      = Some [mkAction FillOperation bl' TDataFrameImplNode (Some 0%nat) (VHisto [])].
Proof.
  exact (Histo1D_by_name TDataFrameImplNode false "" "" 128 0%float 0%float (frame_x [])
           (engine_of (frame_x [])) eq_refl).
Defined.

(** ** Guessing the type of a branch *)

Lemma String_get_last (prefix : string) (c : ascii) :
  String.get (String.length (prefix +:+ String c "") - 1) (prefix +:+ String c "") = Some c.
Proof.
  induction prefix as [|a p IH]; [done|].
  change (String a p +:+ String c "") with (String a (p +:+ String c "")).
  cbn [String.length].
  destruct (String.length (p +:+ String c "")) as [|k] eqn:Hk.
  - destruct p; discriminate Hk.
  - replace (S (S k) - 1)%nat with (S k) by lia.
    replace (S k - 1)%nat with k in IH by lia.
    exact IH.
Qed.

Lemma String_length_snoc (prefix : string) (c : ascii) :
  String.length (prefix +:+ String c "") ≠ 0%nat.
Proof. by destruct prefix. Qed.

(** X7. For a branch of the tree that is not a TBranchElement the guess looks
    at the last character of the title and at nothing else: B, I and D give
    char, int and double whatever precedes them (the dimensions of an array
    leaf, say), and every other last character gives the exception. *)
Theorem guess_by_last_character (GetBranch : string → option TBranch)
    (GetTypeId : string → option type_info) (bl : BranchNames)
    (name prefix : string) (c : ascii)
    (Hname : bl !! 0%nat = Some name)
    (Hbranch : GetBranch name = Some (TBranchLeaf (prefix +:+ String c ""))) :
  CreateAction_guess GetBranch GetTypeId bl
  = Some (if decide (c = "B"%char) then BuildAndBookAs BT_char
          else if decide (c = "I"%char) then BuildAndBookAs BT_int
          else if decide (c = "D"%char) then BuildAndBookAs BT_double
          else CouldNotBeGuessed name).
Proof.
  unfold CreateAction_guess. rewrite Hname. simpl. rewrite Hbranch.
  unfold guess_real_branch, typeCode_of.
  rewrite decide_False by apply String_length_snoc.
  by rewrite String_get_last.
Qed.

Lemma guess_by_last_character_witness :
  CreateAction_guess (λ _, Some (TBranchLeaf "x[3]/I")) (λ _, None) ["x"]
  = Some (BuildAndBookAs BT_int).
Proof.
  apply (guess_by_last_character (λ _, Some (TBranchLeaf "x[3]/I")) (λ _, None) ["x"]
           "x" "x[3]/" "I"%char); reflexivity.
Defined.

(** X8. For a name that is not a branch of the tree the exception "could not
    be guessed" is never thrown: the type of the temporary branch is taken if
    it is one of the five known ones, and otherwise the control falls through
    to the code for a real branch, which dereferences the null pointer. *)
Theorem guess_of_temporary_branch (GetBranch : string → option TBranch)
    (GetTypeId : string → option type_info) (bl : BranchNames) (name : string)
    (Hname : bl !! 0%nat = Some name) (Hnone : GetBranch name = None) :
  CreateAction_guess GetBranch GetTypeId bl
  = match GetTypeId name with
    | Some (typeid_of t) => Some (BuildAndBookAs t)
    | _ => None
    end
  ∧ ∀ n, CreateAction_guess GetBranch GetTypeId bl ≠ Some (CouldNotBeGuessed n).
Proof.
  unfold CreateAction_guess. rewrite Hname. simpl. rewrite Hnone.
  destruct (GetTypeId name) as [[t|s]|]; simpl; split; try done.
Qed.

Lemma guess_of_temporary_branch_witness :
  CreateAction_guess (λ _, None) (λ _, Some (typeid_other "float")) ["y"] = None
  ∧ ∀ n, CreateAction_guess (λ _, None) (λ _, Some (typeid_other "float")) ["y"]
         ≠ Some (CouldNotBeGuessed n).
Proof.
  apply (guess_of_temporary_branch (λ _, None) (λ _, Some (typeid_other "float")) ["y"] "y");
    reflexivity.
Defined.

(** ** The engine out of scope *)

(** X9. Once the engine is out of scope no method of the interface does
    anything but throw: the transformations, Foreach, ForeachSlot, Report and
    the lazy actions throw the "not reachable" exception, except Histo2D and
    Histo3D on a model without axis limits, which check the model first. *)
Theorem engine_gone_throws (w : World) (Hgone : engine w = None) :
  (∀ n f k bl name, Filter n f k bl name w = Throw EngineGone)
  ∧ (∀ n name e k bl, AddBranch n name e k bl w = Throw EngineGone)
  ∧ (∀ n k bl, ForeachSlot n k bl w = Some (Throw EngineGone)
               ∧ Foreach n k bl w = Some (Throw EngineGone))
  ∧ (∀ n, Report n w = Throw EngineGone)
  ∧ (∀ c n, call c n w
            = Throw (match c with
                     | CallHisto2D m _ _ _ _ | CallHisto3D m _ _ _ _ _ =>
                         if HasAxisLimits m then EngineGone else HistogramNeedsAxisLimits
                     | _ => EngineGone
                     end)).
Proof.
  assert (HG : GetDataFrameChecked w = Throw EngineGone).
  { unfold GetDataFrameChecked. by rewrite Hgone. }
  assert (HB : ∀ op bl init n, BuildAndBook op bl init n w = Throw EngineGone).
  { intros. unfold BuildAndBook. by rewrite HG. }
  assert (HN : ∀ k bl, GetBranchNames k bl w = Ok bl
                       ∨ GetBranchNames k bl w = Throw EngineGone).
  { intros k bl. unfold GetBranchNames, GetDefaultBranchNames.
    case_decide; [by left|]. right. by rewrite HG. }
  repeat split.
  - intros. unfold Filter. by rewrite HG.
  - intros. unfold AddBranch. by rewrite HG.
  - unfold ForeachSlot. by rewrite HG.
  - unfold Foreach, ForeachSlot. by rewrite HG.
  - intros. unfold Report. by rewrite HG.
  - intros c n.
    destruct c; simpl;
      unfold Count, Reduce, Take, Min, Max, Mean, Histo1D, Histo2D, Histo3D;
      rewrite ?HG; simpl; try done;
      try (destruct (HasAxisLimits model); simpl; [|done]);
      match goal with
      | |- Result_bind (GetBranchNames ?k ?bl w) _ = _ =>
          destruct (HN k bl) as [-> | ->]; simpl; by rewrite ?HB
      | _ => by rewrite ?HB
      end.
Qed.

Lemma engine_gone_throws_witness :
  Filter TDataFrameImplNode (gt 0%float) 1 ["x"] "F" (destroy (frame_x [])) = Throw EngineGone.
Proof.
  apply (engine_gone_throws (destroy (frame_x []))). reflexivity.
Defined.

(** ** Reports of the filters *)

Lemma PartialReport_upstream (n : Node) (rs : RunState) :
  PartialReport n rs
  = flat_map (λ x : nat * string, PrintReport x.1 x.2 rs) (filters_upstream n).
Proof.
  induction n as [|id f bl name pd IH|name e bl pd IH]; simpl; [done| |done].
  rewrite IH, flat_map_app. simpl. by rewrite app_nil_r.
Qed.

(** X10. After the event loop has run, Report on a filter or on a temporary
    branch prints one report per filter upstream of the node, the node
    included, from the engine down to the node, and no report of any other
    filter; temporary branches add nothing. *)
Theorem Report_upstream (n : Node) (w : World) (df : TDataFrameImpl)
    (Halive : engine w = Some df) (Hrun : fHasRunAtLeastOnce df = true)
    (Hnode : n ≠ TDataFrameImplNode) :
  Report n w
  = Ok (print (flat_map (λ x : nat * string, PrintReport x.1 x.2 (state w))
                 (filters_upstream n)) w).
Proof.
  unfold Report, GetDataFrameChecked. rewrite Halive. simpl. rewrite Hrun. simpl.
  do 2 f_equal. destruct n as [|id f bl name pd|name e bl pd]; [done| |].
  - unfold Node_Report. apply PartialReport_upstream.
  - unfold Node_Report. cbn [filters_upstream]. apply PartialReport_upstream.
Qed.

Lemma Report_upstream_witness :
  let w := mkWorld (Some (mkImpl [] [] ∅ [] (tree_of []) [] [] [] 1 true))
             (mkRunState {[0%nat := mkFilterSlots [4] [1] [3%N] [2%N]]} ∅ [] [] [])
             [] [] [] in
  Report (TDataFrameBranch "y" twice ["x"]
            (TDataFrameFilter 0 (gt 0%float) ["x"] "F" TDataFrameImplNode)) w
  = Ok (print [FilterStats "F" 3 5] w).
Proof.
  intros w.
  rewrite (Report_upstream _ w (mkImpl [] [] ∅ [] (tree_of []) [] [] [] 1 true));
    [|reflexivity|reflexivity|discriminate].
  by vm_compute.
Defined.

(** ** CreateSlots of a temporary branch *)

Lemma length_vector_resize {A} (v : list A) (n : nat) (x : A) :
  length (vector_resize v n x) = n.
Proof. unfold vector_resize. rewrite length_app, length_take, length_replicate. lia. Qed.

Lemma lookup_vector_resize {A} (v : list A) (n : nat) (x : A) (i : nat) :
  vector_resize v n x !! i
  = if decide (i < n)%nat then Some (default x (v !! i)) else None.
Proof.
  unfold vector_resize. case_decide as Hi.
  - destruct (decide (i < length v)%nat) as [Hv|Hv].
    + rewrite lookup_app_l by (rewrite length_take; lia).
      rewrite lookup_take_lt by done.
      destruct (lookup_lt_is_Some_2 v i Hv) as [a ->]. done.
    + rewrite lookup_app_r by (rewrite length_take; lia).
      rewrite (lookup_ge_None_2 v i) by lia. simpl.
      apply lookup_replicate_2. rewrite length_take. lia.
  - apply lookup_ge_None_2. rewrite length_app, length_take, length_replicate. lia.
Qed.

(** X11. On a temporary branch as its constructor leaves it, CreateSlots
    gives every slot the entry -1 (nothing evaluated yet) and a null pointer:
    the state the event loop starts from. *)
Theorem CreateSlots_of_new_branch (nSlots : nat) :
  TDataFrameBranch_CreateSlots nSlots BranchSlots_init = BranchSlots_fresh nSlots.
Proof.
  unfold TDataFrameBranch_CreateSlots, BranchSlots_fresh, BranchSlots_init, vector_resize.
  simpl. f_equal.
  - destruct nSlots as [|k]; [done|]. simpl. by rewrite take_nil, Nat.sub_0_r.
  - by rewrite take_nil, Nat.sub_0_r.
Qed.

(** X12. CreateSlots resizes and does not reset: afterwards both vectors have
    [nSlots] elements, a slot that existed keeps the entry it evaluated last
    and the pointer to its value (so that GetValue still serves that entry
    from the cache), and a new slot starts at -1 with a null pointer. *)
Theorem CreateSlots_keeps_cache (nSlots : nat) (bs : BranchSlots) :
  length (bLastCheckedEntry (TDataFrameBranch_CreateSlots nSlots bs)) = nSlots
  ∧ length (fLastResultPtr (TDataFrameBranch_CreateSlots nSlots bs)) = nSlots
  ∧ (∀ slot, (slot < nSlots)%nat →
       bLastCheckedEntry (TDataFrameBranch_CreateSlots nSlots bs) !! slot
       = Some (default (-1) (bLastCheckedEntry bs !! slot))
       ∧ fLastResultPtr (TDataFrameBranch_CreateSlots nSlots bs) !! slot
         = Some (default None (fLastResultPtr bs !! slot)))
  ∧ (∀ tree resolve name e bl tmpbl slot entry p rs,
       (slot < nSlots)%nat → cached name slot entry p rs →
       GetValue tree resolve name e bl tmpbl slot entry
         (set_branchSlots (fmap (TDataFrameBranch_CreateSlots nSlots)) rs)
       = Some (p, set_branchSlots (fmap (TDataFrameBranch_CreateSlots nSlots)) rs)).
Proof.
  split; [apply length_vector_resize|]. split; [apply length_vector_resize|].
  split.
  - intros slot Hs. unfold TDataFrameBranch_CreateSlots. simpl.
    rewrite !lookup_vector_resize. by rewrite !decide_True by done.
  - intros tree resolve name e bl tmpbl slot entry p rs Hs (bs' & Hbs & Hlast & Hptr).
    unfold GetValue. simpl. rewrite lookup_fmap, Hbs. simpl.
    rewrite (lookup_vector_resize (bLastCheckedEntry bs')), decide_True by done.
    rewrite Hlast. simpl.
    rewrite decide_False by (intros Hne; by apply Hne).
    rewrite (lookup_vector_resize (fLastResultPtr bs')), decide_True by done.
    by rewrite Hptr.
Qed.

Lemma CreateSlots_keeps_cache_witness :
  GetValue (tree_of []) (λ _ _ _ _, None) "y" twice ["x"] ["y"] 0 5
    (set_branchSlots (fmap (TDataFrameBranch_CreateSlots 2))
       (mkRunState ∅ {["y" := mkBranchSlots [5] [Some 0%nat]]} [] [1%float] []))
  = Some (0%nat, set_branchSlots (fmap (TDataFrameBranch_CreateSlots 2))
                   (mkRunState ∅ {["y" := mkBranchSlots [5] [Some 0%nat]]} [] [1%float] [])).
Proof.
  apply (CreateSlots_keeps_cache 2 (mkBranchSlots [5] [Some 0%nat])); [lia|].
  exists (mkBranchSlots [5] [Some 0%nat]). split; [|done]. simpl. by rewrite lookup_singleton_eq.
Defined.

(** ** The entry -1 and chains without a filter *)

(** X13. -1 is what a node holds for a slot on which it has checked nothing,
    and so the entry -1 is served from a cache that was never filled: a
    filter as its constructor leaves it answers true for it without calling
    its predicate, and a temporary branch that has evaluated nothing has no
    value for it (its pointer is null or missing). *)
Theorem entry_minus_one_is_not_evaluated :
  (∀ tree id f bl name pd rs,
     filterSlots rs !! id = Some FilterSlots_init →
     CheckFilters tree (TDataFrameFilter id f bl name pd) 0 (-1) rs = Some (true, rs))
  ∧ (∀ tree resolve name e bl tmpbl nSlots slot rs,
       branchSlots rs !! name = Some (TDataFrameBranch_CreateSlots nSlots BranchSlots_init) →
       GetValue tree resolve name e bl tmpbl slot (-1) rs = None).
Proof.
  split.
  - intros tree id f bl name pd rs Hfs. cbn [CheckFilters]. rewrite Hfs. simpl.
    rewrite Hfs. done.
  - intros tree resolve name e bl tmpbl nSlots slot rs Hbs.
    unfold GetValue. rewrite Hbs. simpl.
    rewrite (lookup_vector_resize [-1]).
    case_decide as Hs; [|done]. simpl.
    assert (default (-1) ([-1] !! slot) = -1) as ->.
    { destruct slot as [|[|k]]; done. }
    rewrite decide_False by (intros Hne; by apply Hne).
    rewrite (lookup_vector_resize []), decide_True by done.
    by rewrite lookup_nil.
Qed.

Lemma entry_minus_one_is_not_evaluated_witness :
  CheckFilters (tree_of []) (TDataFrameFilter 0 (λ _, false) [] "never" TDataFrameImplNode)
    0 (-1) (mkRunState {[0%nat := FilterSlots_init]} ∅ [] [] [])
  = Some (true, mkRunState {[0%nat := FilterSlots_init]} ∅ [] [] []).
Proof.
  destruct entry_minus_one_is_not_evaluated as [Hfilter _].
  apply Hfilter. simpl. by rewrite lookup_singleton_eq.
Defined.

(** X14. CheckFilters of a temporary branch only forwards to the node
    upstream: on a chain without a filter every entry passes, nothing is
    evaluated and the state is left as it is. *)
Theorem CheckFilters_without_filter (tree : TTree) (n : Node) (slot : nat)
    (entry : Long64_t) (rs : RunState) (Hnone : filter_ids n = []) :
  CheckFilters tree n slot entry rs = Some (true, rs).
Proof.
  induction n as [|id f bl name pd IH|name e bl pd IH]; [done|discriminate Hnone|].
  cbn [CheckFilters]. by apply IH.
Qed.

Lemma CheckFilters_without_filter_witness :
  CheckFilters (tree_of []) node_y 0 7 slots_y_F = Some (true, slots_y_F).
Proof. apply (CheckFilters_without_filter (tree_of []) node_y 0 7 slots_y_F). reflexivity. Defined.

(** ** Graphs built through the interface can be run *)






(** ** The caches hold the right values *)

Lemma caches_ok_ext tree G rs rs' :
  filterSlots rs' = filterSlots rs → branchSlots rs' = branchSlots rs →
  heap rs' = heap rs → caches_ok tree G rs → caches_ok tree G rs'.
Proof.
  intros Hf Hb Hh [HF HB]. split.
  - intros id f bl name pd Hin slot fs last v. rewrite Hf. by apply HF.
  - intros name e bl pd Hin slot bs last p. rewrite Hb, Hh. by apply HB.
Qed.

Lemma upstream_self n : n ∈ upstream n.
Proof. destruct n; left. Qed.

Lemma upstream_prev_filter id f bl name pd G :
  upstream (TDataFrameFilter id f bl name pd) ⊆ G → upstream pd ⊆ G.
Proof. intros H x Hx. apply H. simpl. by right. Qed.

Lemma upstream_prev_branch name e bl pd G :
  upstream (TDataFrameBranch name e bl pd) ⊆ G → upstream pd ⊆ G.
Proof. intros H x Hx. apply H. simpl. by right. Qed.

(** The values fetched for a callable are the values of its branches,
    provided the temporary branches are resolved to their values. *)
Lemma sem_inputs tree G tmpbl resolve col slot entry :
  (∀ b rs p rs', caches_ok tree G rs → resolve b slot entry rs = Some (p, rs') →
     caches_ok tree G rs' ∧ ∃ v, heap rs' !! p = Some v ∧ col b = Some v) →
  ∀ bl rs vals rs', caches_ok tree G rs →
    expand_pack (GetBranchValue tree resolve tmpbl slot entry) bl rs = Some (vals, rs') →
    caches_ok tree G rs' ∧ mapM (input_of tree tmpbl col entry) bl = Some vals.
Proof.
  intros Hres. induction bl as [|b bl IH]; intros rs vals rs' Hok H.
  - simpl in H. injection H as <- <-. done.
  - cbn [expand_pack] in H.
    destruct (GetBranchValue tree resolve tmpbl slot entry b rs) as [[v rs1]|] eqn:Hb;
      [|discriminate H].
    simpl in H.
    destruct (expand_pack (GetBranchValue tree resolve tmpbl slot entry) bl rs1)
      as [[vs rs2]|] eqn:Hrest; [|discriminate H].
    simpl in H. injection H as <- <-.
    assert (caches_ok tree G rs1 ∧ input_of tree tmpbl col entry b = Some v) as [Hok1 Hv].
    { unfold GetBranchValue in Hb. unfold input_of.
      destruct (isTmpBranch tmpbl b).
      - destruct (resolve b slot entry rs) as [[p rs1']|] eqn:Hr; [|discriminate Hb].
        simpl in Hb. destruct (heap rs1' !! p) as [v'|] eqn:Hh; [|discriminate Hb].
        simpl in Hb. injection Hb as <- <-.
        destruct (Hres _ _ _ _ Hok Hr) as (Hok1 & v'' & Hv'' & Hcol).
        split; [done|]. congruence.
      - injection Hb as <- <-. split; [|done]. by apply (caches_ok_ext tree G rs). }
    destruct (IH _ _ _ Hok1 Hrest) as [Hok2 Hvs]. split; [done|].
    cbn [mapM]. rewrite Hv. simpl. rewrite Hvs. done.
Qed.

(** GetValue hands out a pointer to the value of the branch at the entry. *)
Lemma sem_GetValue tree G name e bl pd resolve slot entry rs p rs' :
  one_object G → TDataFrameBranch name e bl pd ∈ G → entry ≠ -1 →
  (∀ b rs p rs', caches_ok tree G rs → resolve b slot entry rs = Some (p, rs') →
     caches_ok tree G rs'
     ∧ ∃ v, heap rs' !! p = Some v ∧ column tree pd entry b = Some v) →
  caches_ok tree G rs →
  GetValue tree resolve name e bl (GetTmpBranches pd ++ [name]) slot entry rs
  = Some (p, rs') →
  caches_ok tree G rs'
  ∧ ∃ v, heap rs' !! p = Some v
         ∧ column tree (TDataFrameBranch name e bl pd) entry name = Some v.
Proof.
  intros [_ Hone] Hin Hentry Hres Hok H.
  apply GetValue_inv in H as (bs & last & Hbs & Hlast & [(-> & -> & Hptr)|Hmiss]).
  - split; [done|]. destruct Hok as [_ HB]. by apply (HB _ _ _ _ Hin slot bs last p).
  - destruct Hmiss as (Hne & vals & rs1 & bs1 & Hvals & Hbs1 & Hl1 & Hl2 & -> & ->).
    destruct (sem_inputs tree G _ resolve (column tree pd entry) slot entry Hres
                _ _ _ _ Hok Hvals) as [[HF1 HB1] Hin_vals].
    assert (Hcol : column tree (TDataFrameBranch name e bl pd) entry name = Some (e vals)).
    { cbn [column]. rewrite decide_True by done. by rewrite Hin_vals. }
    split; last first.
    { exists (e vals). split; [|done]. simpl.
      by rewrite lookup_app_r, Nat.sub_diag. }
    split.
    + exact HF1.
    + intros name' e' bl' pd' Hin' slot' bs' last' p' Hbs' Hlast' Hne' Hptr'.
      cbn [branchSlots heap] in Hbs' |- *.
      destruct (decide (name' = name)) as [->|Hname].
      * rewrite lookup_insert_eq in Hbs'. injection Hbs' as <-. simpl in Hlast', Hptr'.
        pose proof (Hone _ _ _ _ _ _ _ Hin' Hin) as Heq. rewrite Heq.
        destruct (decide (slot' = slot)) as [->|Hslot].
        -- rewrite list_lookup_insert_eq in Hlast' by done. injection Hlast' as <-.
           rewrite list_lookup_insert_eq in Hptr' by done. injection Hptr' as <-.
           exists (e vals). split; [|done]. by rewrite lookup_app_r, Nat.sub_diag.
        -- rewrite list_lookup_insert_ne in Hlast' by done.
           rewrite list_lookup_insert_ne in Hptr' by done.
           destruct (HB1 _ _ _ _ Hin slot' bs1 last' p' Hbs1 Hlast' Hne' Hptr')
             as (v & Hv & Hcv).
           exists v. split; [|done]. by apply lookup_app_l_Some.
      * rewrite lookup_insert_ne in Hbs' by done.
        destruct (HB1 _ _ _ _ Hin' slot' bs' last' p' Hbs' Hlast' Hne' Hptr')
          as (v & Hv & Hcv).
        exists v. split; [|done]. by apply lookup_app_l_Some.
Qed.

(** The engine resolves a temporary branch to a pointer to its value. *)
Lemma sem_GetTmpBranchValue tree G :
  one_object G → ∀ n, upstream n ⊆ G →
  ∀ b slot entry rs p rs', entry ≠ -1 → caches_ok tree G rs →
    GetTmpBranchValue tree n b slot entry rs = Some (p, rs') →
    caches_ok tree G rs' ∧ ∃ v, heap rs' !! p = Some v ∧ column tree n entry b = Some v.
Proof.
  intros Hone. induction n as [|id f bl name pd IH|name e bl pd IH];
    intros Hup b slot entry rs p rs' Hentry Hok H.
  - discriminate H.
  - cbn [GetTmpBranchValue column] in *.
    apply (IH (upstream_prev_filter _ _ _ _ _ _ Hup) _ _ _ _ _ _ Hentry Hok H).
  - cbn [GetTmpBranchValue] in H. cbn [column].
    pose proof (upstream_prev_branch _ _ _ _ _ Hup) as Hup'.
    destruct (decide (b = name)) as [->|Hb].
    + destruct (sem_GetValue tree G name e bl pd (GetTmpBranchValue tree pd) slot entry
                  rs p rs' Hone (Hup _ (upstream_self _)) Hentry) as [Hok' Hv];
        [|done|done|].
      * intros b' rs0 p0 rs0' Hok0 Hr. by apply (IH Hup' _ _ _ _ _ _ Hentry Hok0 Hr).
      * split; [done|]. cbn [column] in Hv. by rewrite decide_True in Hv by done.
    + by apply (IH Hup' _ _ _ _ _ _ Hentry Hok H).
Qed.

Lemma sem_node_inputs tree G n slot entry bl rs vals rs' :
  one_object G → upstream n ⊆ G → entry ≠ -1 → caches_ok tree G rs →
  expand_pack (GetBranchValue tree (GetTmpBranchValue tree n) (GetTmpBranches n) slot entry)
    bl rs = Some (vals, rs') →
  caches_ok tree G rs' ∧ inputs tree n bl entry = Some vals.
Proof.
  intros Hone Hup Hentry Hok H.
  apply (sem_inputs tree G (GetTmpBranches n) (GetTmpBranchValue tree n)
           (column tree n entry) slot entry) with (rs := rs); [|done|done].
  intros b rs0 p rs0' Hok0 Hr.
  by apply (sem_GetTmpBranchValue tree G Hone n Hup _ _ _ _ _ _ Hentry Hok0 Hr).
Qed.

(** The members of a filter after a check, and the other filters. *)
Lemma caches_ok_checked tree G id f bl name pd rs1 fs1 slot entry outcome tr :
  one_object G → TDataFrameFilter id f bl name pd ∈ G →
  caches_ok tree G rs1 → filterSlots rs1 !! id = Some fs1 →
  (slot < length (fLastResult fs1))%nat → (slot < length (fLastCheckedEntry fs1))%nat →
  passes tree (TDataFrameFilter id f bl name pd) entry
  = Some (match outcome with Some true => true | _ => false end) →
  caches_ok tree G
    (mkRunState (<[id := filter_checked fs1 slot entry outcome]> (filterSlots rs1))
       (branchSlots rs1) (opSlots rs1) (heap rs1) tr).
Proof.
  intros [Hone _] Hin [HF HB] Hfs Hl1 Hl2 Hpass. split; [|exact HB].
  intros id' f' bl' name' pd' Hin' slot' fs' last v Hfs' Hlast Hne Hv.
  cbn [filterSlots] in Hfs'.
  destruct (decide (id' = id)) as [->|Hid].
  - rewrite lookup_insert_eq in Hfs'. injection Hfs' as <-. simpl in Hlast, Hv.
    rewrite (Hone _ _ _ _ _ _ _ _ _ Hin' Hin).
    destruct (decide (slot' = slot)) as [->|Hslot].
    + rewrite list_lookup_insert_eq in Hlast by done. injection Hlast as <-.
      rewrite list_lookup_insert_eq in Hv by done. injection Hv as <-.
      rewrite Hpass. by destruct outcome as [[]|].
    + rewrite list_lookup_insert_ne in Hlast by done.
      rewrite list_lookup_insert_ne in Hv by done.
      by apply (HF _ _ _ _ _ Hin slot' fs1 last v).
  - rewrite lookup_insert_ne in Hfs' by done.
    by apply (HF _ _ _ _ _ Hin' slot' fs' last v).
Qed.

Lemma sem_CheckFilters tree G :
  one_object G → ∀ n, upstream n ⊆ G →
  ∀ slot entry rs b rs', entry ≠ -1 → caches_ok tree G rs →
    CheckFilters tree n slot entry rs = Some (b, rs') →
    caches_ok tree G rs' ∧ passes tree n entry = Some b.
Proof.
  intros Hone. induction n as [|id f bl name pd IH|name e bl pd IH];
    intros Hup slot entry rs b rs' Hentry Hok H.
  - injection H as <- <-. done.
  - pose proof (upstream_prev_filter _ _ _ _ _ _ Hup) as Hup'.
    pose proof (Hup _ (upstream_self _)) as Hin.
    apply CheckFilters_filter_inv in H
      as (fs & last & Hfs & Hlast & [(-> & -> & v & Hv & ->)|[Hrej|Hcall]]).
    + split; [done|]. destruct Hok as [HF _].
      by apply (HF _ _ _ _ _ Hin slot fs last v).
    + destruct Hrej as (Hne & -> & rs1 & fs1 & Hpd & Hfs1 & Hl1 & Hl2 & ->).
      destruct (IH Hup' _ _ _ _ _ Hentry Hok Hpd) as [Hok1 Hpass].
      assert (Hp : passes tree (TDataFrameFilter id f bl name pd) entry = Some false).
      { cbn [passes]. by rewrite Hpass. }
      split; [|done].
      by apply (caches_ok_checked tree G id f bl name pd rs1 fs1 slot entry None).
    + destruct Hcall as (Hne & rs1 & vals & rs2 & fs2 & Hpd & Hvals & -> & Hfs2
                         & Hl1 & Hl2 & _ & ->).
      destruct (IH Hup' _ _ _ _ _ Hentry Hok Hpd) as [Hok1 Hpass].
      destruct (sem_node_inputs tree G pd slot entry bl rs1 vals rs2 Hone Hup' Hentry
                  Hok1 Hvals) as [Hok2 Hin_vals].
      assert (Hp : passes tree (TDataFrameFilter id f bl name pd) entry = Some (f vals)).
      { cbn [passes]. rewrite Hpass. simpl. by rewrite Hin_vals. }
      split; [|done].
      apply (caches_ok_checked tree G id f bl name pd rs2 fs2 slot entry (Some (f vals)));
        try done.
      rewrite Hp. by destruct (f vals).
  - cbn [CheckFilters passes] in *.
    by apply (IH (upstream_prev_branch _ _ _ _ _ Hup) _ _ _ _ _ Hentry Hok H).
Qed.

Lemma aevents_cons_action idx idx' slot entry tr :
  aevents idx (EvAction idx' slot entry :: tr)
  = if decide (idx' = idx) then (slot, entry) :: aevents idx tr else aevents idx tr.
Proof. unfold aevents. simpl. by destruct (decide _). Qed.

Lemma ExecuteAction_inv tree idx a slot entry rs rs' :
  ExecuteAction tree idx a slot entry rs = Some rs' →
  ∃ vals rs1 partials partial,
    expand_pack (GetBranchValue tree (GetTmpBranchValue tree (aPrevData a))
                   (GetTmpBranches (aPrevData a)) slot entry) (aBranches a) rs
    = Some (vals, rs1)
    ∧ opSlots rs1 !! idx = Some partials ∧ partials !! slot = Some partial
    ∧ rs' = mkRunState (filterSlots rs1) (branchSlots rs1)
              (<[idx := <[slot := Operation_Exec (fAction a) vals partial]> partials]>
                 (opSlots rs1))
              (heap rs1) (EvAction idx slot entry :: trace rs1).
Proof.
  unfold ExecuteAction. intros H.
  destruct (expand_pack _ (aBranches a) rs) as [[vals rs1]|] eqn:Hvals; [|discriminate H].
  simpl in H.
  destruct (opSlots rs1 !! idx) as [partials|] eqn:Hps; [|discriminate H]. simpl in H.
  destruct (partials !! slot) as [partial|] eqn:Hp; [|discriminate H]. simpl in H.
  unfold vector_set in H. case_decide; [|discriminate H]. simpl in H.
  injection H as <-. by exists vals, rs1, partials, partial.
Qed.

(** One action on one entry: the callable is called, on the values of its
    branches, exactly when the entry passes the filters upstream. *)
Lemma sem_Action_Run tree G idx a slot entry rs rs' :
  one_object G → upstream (aPrevData a) ⊆ G → entry ≠ -1 → caches_ok tree G rs →
  Action_Run tree idx a slot entry rs = Some rs' →
  caches_ok tree G rs'
  ∧ (∀ idx', idx' ≠ idx → aevents idx' (trace rs') = aevents idx' (trace rs))
  ∧ ∃ b, passes tree (aPrevData a) entry = Some b
         ∧ if b : bool then
             ∃ vals partials partial,
               inputs tree (aPrevData a) (aBranches a) entry = Some vals
               ∧ opSlots rs !! idx = Some partials ∧ partials !! slot = Some partial
               ∧ opSlots rs'
                 = <[idx := <[slot := Operation_Exec (fAction a) vals partial]> partials]>
                     (opSlots rs)
               ∧ aevents idx (trace rs') = (slot, entry) :: aevents idx (trace rs)
           else opSlots rs' = opSlots rs
                ∧ aevents idx (trace rs') = aevents idx (trace rs).
Proof.
  intros Hone Hup Hentry Hok H. unfold Action_Run in H.
  destruct (CheckFilters tree (aPrevData a) slot entry rs) as [[b rs1]|] eqn:HC;
    [|discriminate H].
  simpl in H.
  destruct (sem_CheckFilters tree G Hone _ Hup _ _ _ _ _ Hentry Hok HC) as [Hok1 Hpass].
  destruct (CheckFilters_frame _ _ _ _ _ _ _ HC) as (Hops1 & Hae1 & _).
  destruct b.
  - apply ExecuteAction_inv in H
      as (vals & rs2 & partials & partial & Hvals & Hps & Hp & ->).
    destruct (sem_node_inputs tree G _ slot entry _ rs1 vals rs2 Hone Hup Hentry Hok1 Hvals)
      as [Hok2 Hin].
    pose proof (reads_inputs _ _ _ _ _ _ _ _ _ Hvals) as Hreads.
    pose proof Hreads as (_ & Hops2 & _).
    split; [by apply (caches_ok_ext tree G rs2)|].
    split.
    { intros idx' Hne. cbn [trace].
      rewrite aevents_cons_action, decide_False by done.
      by rewrite (reads_aevents _ _ idx' Hreads), Hae1. }
    exists true. split; [done|]. exists vals, partials, partial.
    rewrite <- Hops1, <- Hops2. repeat split; try done.
    cbn [trace]. rewrite aevents_cons_action, decide_True by done.
    by rewrite (reads_aevents _ _ idx Hreads), Hae1.
  - injection H as <-. split; [done|]. split; [by intros|].
    exists false. by repeat split.
Qed.

Lemma sem_RunActions tree G :
  one_object G → ∀ actions idx0 slot entry rs rs',
  (∀ a, a ∈ actions → upstream (aPrevData a) ⊆ G) → entry ≠ -1 → caches_ok tree G rs →
  RunActions tree idx0 actions slot entry rs = Some rs' →
  caches_ok tree G rs'
  ∧ (∀ idx, (idx < idx0)%nat → aevents idx (trace rs') = aevents idx (trace rs))
  ∧ (∀ j a, actions !! j = Some a →
       aevents (idx0 + j) (trace rs')
       = (if decide (passes tree (aPrevData a) entry = Some true)
          then [(slot, entry)] else []) ++ aevents (idx0 + j) (trace rs)).
Proof.
  intros Hone. induction actions as [|a actions IH];
    intros idx0 slot entry rs rs' Hup Hentry Hok H.
  - injection H as <-. split; [done|]. split; [done|]. intros j a Hj. discriminate Hj.
  - cbn [RunActions] in H.
    destruct (Action_Run tree idx0 a slot entry rs) as [rs1|] eqn:HA; [|discriminate H].
    simpl in H.
    assert (Ha : upstream (aPrevData a) ⊆ G) by (apply Hup; left).
    assert (Hup' : ∀ a', a' ∈ actions → upstream (aPrevData a') ⊆ G)
      by (intros a' Ha'; apply Hup; by right).
    destruct (sem_Action_Run tree G idx0 a slot entry rs rs1 Hone Ha Hentry Hok HA)
      as (Hok1 & Hother & b & Hpass & Hb).
    destruct (IH (S idx0) slot entry rs1 rs' Hup' Hentry Hok1 H)
      as (Hok' & Hbelow & Hat).
    split; [done|]. split.
    + intros idx Hidx. rewrite Hbelow by lia. apply Hother. lia.
    + intros [|j] a' Hj.
      * injection Hj as <-. rewrite Nat.add_0_r. rewrite Hbelow by lia.
        rewrite Hpass. destruct b.
        -- destruct Hb as (? & ? & ? & _ & _ & _ & _ & ->). by rewrite decide_True.
        -- destruct Hb as [_ ->]. by rewrite decide_False.
      * replace (idx0 + S j)%nat with (S idx0 + j)%nat by lia.
        rewrite (Hat j a' Hj). f_equal. apply Hother. lia.
Qed.

Lemma sem_RunEntries tree G actions :
  one_object G → (∀ a, a ∈ actions → upstream (aPrevData a) ⊆ G) →
  ∀ entries rs rs',
    Forall (λ se : nat * Long64_t, se.2 ≠ -1) entries → caches_ok tree G rs →
    RunEntries tree actions entries rs = Some rs' →
    caches_ok tree G rs'
    ∧ ∀ idx a, actions !! idx = Some a →
        aevents idx (trace rs')
        = reverse (filter (λ se : nat * Long64_t,
                             passes tree (aPrevData a) se.2 = Some true) entries)
          ++ aevents idx (trace rs).
Proof.
  intros Hone Hup. induction entries as [|[slot entry] entries IH];
    intros rs rs' Hentries Hok H.
  - injection H as <-. split; [done|]. by intros.
  - cbn [RunEntries] in H.
    destruct (RunActions tree 0 actions slot entry rs) as [rs1|] eqn:HA; [|discriminate H].
    simpl in H. apply Forall_cons in Hentries as [Hentry Hentries]. simpl in Hentry.
    destruct (sem_RunActions tree G Hone actions 0%nat slot entry rs rs1 Hup Hentry Hok HA)
      as (Hok1 & _ & Hat).
    destruct (IH rs1 rs' Hentries Hok1 H) as [Hok' Hrest].
    split; [done|]. intros idx a Hidx.
    rewrite (Hrest idx a Hidx). specialize (Hat idx a Hidx). simpl in Hat. rewrite Hat.
    rewrite filter_cons. simpl.
    destruct (decide (passes tree (aPrevData a) entry = Some true)).
    + by rewrite reverse_cons, <- app_assoc.
    + done.
Qed.

(** A state in which no node has checked or evaluated an entry yet. *)
Lemma caches_ok_unchecked tree G rs :
  (∀ id fs, filterSlots rs !! id = Some fs →
     Forall (λ e, e = -1) (fLastCheckedEntry fs)) →
  (∀ name bs, branchSlots rs !! name = Some bs →
     Forall (λ e, e = -1) (bLastCheckedEntry bs)) →
  caches_ok tree G rs.
Proof.
  intros HF HB. split.
  - intros id f bl name pd _ slot fs last v Hfs Hlast Hne _.
    pose proof (HF _ _ Hfs) as Hall. rewrite Forall_lookup in Hall.
    by specialize (Hall _ _ Hlast).
  - intros name e bl pd _ slot bs last p Hbs Hlast Hne _.
    pose proof (HB _ _ Hbs) as Hall. rewrite Forall_lookup in Hall.
    by specialize (Hall _ _ Hlast).
Qed.

Lemma one_object_y_F : one_object (upstream node_F).
Proof.
  split.
  - intros id f bl name pd f' bl' name' pd' H1 H2.
    elem_of_concrete H1; elem_of_concrete H2; congruence.
  - intros name e bl pd e' bl' pd' H1 H2.
    elem_of_concrete H1; elem_of_concrete H2; congruence.
Qed.

Lemma caches_ok_y_F tree : caches_ok tree (upstream node_F) slots_y_F.
Proof.
  apply caches_ok_unchecked.
  - intros id fs H. cbn [slots_y_F filterSlots] in H.
    apply lookup_singleton_Some in H as [_ <-]. by repeat constructor.
  - intros name bs H. cbn [slots_y_F branchSlots] in H.
    apply lookup_singleton_Some in H as [_ <-]. by repeat constructor.
Qed.

(** X16. The pointer GetValue returns points to the value of the temporary
    branch at the entry asked for, that is to the expression applied to the
    values its branches have at that entry, whether the value is computed or
    served from the cache; and what the nodes have cached stays right. *)
Theorem GetValue_value (tree : TTree) (G : list Node) (name : string)
    (e : list double → double) (bl : BranchNames) (pd : Node)
    (slot : nat) (entry : Long64_t) (rs : RunState) (p : nat) (rs' : RunState)
    (Hone : one_object G) (Hup : upstream (TDataFrameBranch name e bl pd) ⊆ G)
    (Hentry : entry ≠ -1) (Hok : caches_ok tree G rs)
    (H : GetValue tree (GetTmpBranchValue tree pd) name e bl (GetTmpBranches pd ++ [name])
           slot entry rs = Some (p, rs')) :
  caches_ok tree G rs'
  ∧ ∃ vals, mapM (input_of tree (GetTmpBranches pd ++ [name]) (column tree pd entry) entry) bl
            = Some vals
            ∧ heap rs' !! p = Some (e vals).
Proof.
  destruct (sem_GetValue tree G name e bl pd (GetTmpBranchValue tree pd) slot entry rs p rs'
              Hone (Hup _ (upstream_self _)) Hentry) as (Hok' & v & Hv & Hcol); [|done|done|].
  - intros b rs0 p0 rs0' Hok0 Hr.
    by apply (sem_GetTmpBranchValue tree G Hone pd (upstream_prev_branch _ _ _ _ _ Hup)
                _ _ _ _ _ _ Hentry Hok0 Hr).
  - split; [done|]. cbn [column] in Hcol. rewrite decide_True in Hcol by done.
    destruct (mapM _ bl) as [vals|]; [|discriminate Hcol].
    exists vals. split; [done|]. simpl in Hcol. congruence.
Qed.

Lemma GetValue_value_witness :
  ∃ p rs',
    GetValue (tree_of [1; 3]%float) (GetTmpBranchValue (tree_of [1; 3]%float) TDataFrameImplNode)
      "y" twice ["x"] ["y"] 0 1 slots_y_F = Some (p, rs')
    ∧ heap rs' !! p = Some 6%float.
Proof.
  destruct (GetValue _ _ _ _ _ _ _ _ _) as [[p rs']|] eqn:H; [|vm_compute in H; discriminate H].
  exists p, rs'. split; [done|].
  destruct (GetValue_value (tree_of [1; 3]%float) (upstream node_F) "y" twice ["x"]
              TDataFrameImplNode 0 1 slots_y_F p rs' one_object_y_F)
    as (_ & vals & Hvals & Hp).
  - intros x Hx. by right.
  - done.
  - apply caches_ok_y_F.
  - exact H.
  - vm_compute in Hvals. injection Hvals as <-. exact Hp.
Defined.

(** X17. The result of CheckFilters is whether the entry passes all the
    filters upstream of the node: the conjunction of their predicates on the
    values the branches have at that entry, whether a filter is evaluated or
    its result is served from the cache; and what the nodes have cached stays
    right. *)
Theorem CheckFilters_passes (tree : TTree) (G : list Node) (n : Node)
    (slot : nat) (entry : Long64_t) (rs : RunState) (b : bool) (rs' : RunState)
    (Hone : one_object G) (Hup : upstream n ⊆ G) (Hentry : entry ≠ -1)
    (Hok : caches_ok tree G rs)
    (H : CheckFilters tree n slot entry rs = Some (b, rs')) :
  caches_ok tree G rs' ∧ passes tree n entry = Some b.
Proof. by apply (sem_CheckFilters tree G Hone n Hup slot entry rs). Qed.

Lemma CheckFilters_passes_witness :
  ∃ rs', CheckFilters (tree_of [1; 3]%float) node_F 0 0 slots_y_F = Some (false, rs')
         ∧ passes (tree_of [1; 3]%float) node_F 0 = Some false.
Proof.
  destruct (CheckFilters _ _ _ _ _) as [[b rs']|] eqn:H; [|vm_compute in H; discriminate H].
  assert (b = false) as -> by (vm_compute in H; by injection H as <- _).
  exists rs'. split; [done|].
  apply (CheckFilters_passes (tree_of [1; 3]%float) (upstream node_F) node_F 0 0 slots_y_F
           false rs' one_object_y_F); [done|done|apply caches_ok_y_F|exact H].
Defined.

(** X18. TDataFrameAction::Run calls the callable on an entry exactly when
    the entry passes all the filters upstream, and then with the values the
    branches of the action have at that entry; when the entry does not pass,
    the callable is not called and the partial results are left alone. *)
Theorem Action_Run_on_passing_entry (tree : TTree) (G : list Node) (idx : nat)
    (a : TDataFrameAction) (slot : nat) (entry : Long64_t) (rs rs' : RunState)
    (Hone : one_object G) (Hup : upstream (aPrevData a) ⊆ G) (Hentry : entry ≠ -1)
    (Hok : caches_ok tree G rs)
    (H : Action_Run tree idx a slot entry rs = Some rs') :
  caches_ok tree G rs'
  ∧ ∃ b, passes tree (aPrevData a) entry = Some b
         ∧ if b : bool then
             ∃ vals partials partial,
               inputs tree (aPrevData a) (aBranches a) entry = Some vals
               ∧ opSlots rs !! idx = Some partials ∧ partials !! slot = Some partial
               ∧ opSlots rs'
                 = <[idx := <[slot := Operation_Exec (fAction a) vals partial]> partials]>
                     (opSlots rs)
               ∧ aevents idx (trace rs') = (slot, entry) :: aevents idx (trace rs)
           else opSlots rs' = opSlots rs
                ∧ aevents idx (trace rs') = aevents idx (trace rs).
Proof.
  by destruct (sem_Action_Run tree G idx a slot entry rs rs' Hone Hup Hentry Hok H)
    as (? & _ & ?).
Qed.

Lemma Action_Run_on_passing_entry_witness :
  ∃ rs', Action_Run (tree_of [1; 3]%float) 0 take_y 0 1 slots_y_F = Some rs'
         ∧ passes (tree_of [1; 3]%float) node_F 1 = Some true
         ∧ aevents 0 (trace rs') = [(0%nat, 1)].
Proof.
  destruct (Action_Run _ _ _ _ _ _) as [rs'|] eqn:H; [|vm_compute in H; discriminate H].
  exists rs'. split; [done|].
  destruct (Action_Run_on_passing_entry (tree_of [1; 3]%float) (upstream node_F) 0 take_y
              0 1 slots_y_F rs' one_object_y_F) as (_ & b & Hb & Hif);
    [done|done|apply caches_ok_y_F|exact H|].
  assert (b = true) as ->.
  { vm_compute in Hb. by injection Hb as <-. }
  split; [done|]. by destruct Hif as (? & ? & ? & _ & _ & _ & _ & ->).
Defined.

(** X19. Over the entries handed out one after the other, the callable of a
    booked action is called on exactly the entries that pass all the filters
    upstream of the action, once each and in the order in which they were
    handed out. *)
Theorem actions_see_passing_entries (tree : TTree) (G : list Node)
    (actions : list TDataFrameAction) (entries : list (nat * Long64_t))
    (rs rs' : RunState) (idx : nat) (a : TDataFrameAction)
    (Hone : one_object G) (Hup : ∀ a, a ∈ actions → upstream (aPrevData a) ⊆ G)
    (Hentries : Forall (λ se : nat * Long64_t, se.2 ≠ -1) entries)
    (Hok : caches_ok tree G rs)
    (H : RunEntries tree actions entries rs = Some rs')
    (Hidx : actions !! idx = Some a) :
  aevents idx (trace rs')
  = reverse (filter (λ se : nat * Long64_t, passes tree (aPrevData a) se.2 = Some true)
               entries)
    ++ aevents idx (trace rs).
Proof.
  destruct (sem_RunEntries tree G actions Hone Hup entries rs rs' Hentries Hok H)
    as [_ Hcalls].
  by apply Hcalls.
Qed.

Lemma take_y_upstream :
  ∀ a, a ∈ [take_y] → upstream (aPrevData a) ⊆ upstream node_F.
Proof.
  intros a Ha x Hx. apply elem_of_cons in Ha as [Ha|Ha].
  - rewrite Ha in Hx. exact Hx.
  - apply elem_of_nil in Ha. destruct Ha.
Qed.

Lemma actions_see_passing_entries_witness :
  ∃ rs', RunEntries (tree_of [1; 3; 0; 5]%float) [take_y] (serial 4) slots_y_F = Some rs'
         ∧ aevents 0 (trace rs') = [(0%nat, 3); (0%nat, 1)].
Proof.
  destruct (RunEntries _ _ _ _) as [rs'|] eqn:H; [|vm_compute in H; discriminate H].
  exists rs'. split; [done|].
  rewrite (actions_see_passing_entries (tree_of [1; 3; 0; 5]%float) (upstream node_F)
             [take_y] (serial 4) slots_y_F rs' 0 take_y one_object_y_F).
  - by vm_compute.
  - exact take_y_upstream.
  - vm_compute. repeat constructor; discriminate.
  - apply caches_ok_y_F.
  - exact H.
  - done.
Defined.

(** ** Laws of the chains *)

Lemma inputs_below_branch tree name e bl' pd bl entry :
  name ∉ bl →
  inputs tree (TDataFrameBranch name e bl' pd) bl entry = inputs tree pd bl entry.
Proof.
  unfold inputs. cbn [GetTmpBranches]. induction bl as [|b bl IH]; intros Hnot; [done|].
  apply not_elem_of_cons in Hnot as [Hb Hbl].
  cbn [mapM]. rewrite (IH Hbl).
  assert (input_of tree (GetTmpBranches pd ++ [name])
            (column tree (TDataFrameBranch name e bl' pd) entry) entry b
          = input_of tree (GetTmpBranches pd) (column tree pd entry) entry b) as ->; [|done].
  unfold input_of, isTmpBranch. cbn [column].
  rewrite decide_False by congruence.
  destruct (decide (b ∈ GetTmpBranches pd)) as [Hin|Hin].
  - rewrite !bool_decide_eq_true_2; [done|done|]. apply elem_of_app. by left.
  - rewrite !bool_decide_eq_false_2; [done|done|].
    intros [?|Hx]%elem_of_app; [done|].
    apply elem_of_cons in Hx as [?|Hx]; [congruence|by apply elem_of_nil in Hx].
Qed.

Lemma inputs_below_filter tree id f bl' name pd bl entry :
  inputs tree (TDataFrameFilter id f bl' name pd) bl entry = inputs tree pd bl entry.
Proof. reflexivity. Qed.

Lemma passes_swap tree pd i1 f1 bl1 n1 i2 f2 bl2 n2 j1 m1 j2 m2 entry bA bB :
  passes tree (TDataFrameFilter i2 f2 bl2 n2 (TDataFrameFilter i1 f1 bl1 n1 pd)) entry
  = Some bA →
  passes tree (TDataFrameFilter j1 f1 bl1 m1 (TDataFrameFilter j2 f2 bl2 m2 pd)) entry
  = Some bB →
  bA = bB.
Proof.
  cbn [passes]. rewrite !inputs_below_filter.
  destruct (passes tree pd entry) as [[]|]; simpl; [| |discriminate].
  - destruct (inputs tree pd bl1 entry) as [v1|], (inputs tree pd bl2 entry) as [v2|]; simpl;
      try discriminate.
    destruct (f1 v1), (f2 v2); simpl; intros; congruence.
  - intros; congruence.
Qed.

(** X20. Two filters one after the other can be swapped: whether an entry
    passes the pair does not depend on which of the two comes first, as
    CheckFilters computes it on either chain. *)
Theorem filters_commute (tree : TTree) (GA GB : list Node) (pd : Node)
    (i1 i2 j1 j2 : nat) (f1 f2 : list double → bool) (bl1 bl2 : BranchNames)
    (n1 n2 m1 m2 : string) (slot : nat) (entry : Long64_t)
    (rsA rsA' rsB rsB' : RunState) (bA bB : bool)
    (Hentry : entry ≠ -1)
    (HoneA : one_object GA) (HoneB : one_object GB)
    (HupA : upstream (TDataFrameFilter i2 f2 bl2 n2 (TDataFrameFilter i1 f1 bl1 n1 pd)) ⊆ GA)
    (HupB : upstream (TDataFrameFilter j1 f1 bl1 m1 (TDataFrameFilter j2 f2 bl2 m2 pd)) ⊆ GB)
    (HokA : caches_ok tree GA rsA) (HokB : caches_ok tree GB rsB)
    (HA : CheckFilters tree
            (TDataFrameFilter i2 f2 bl2 n2 (TDataFrameFilter i1 f1 bl1 n1 pd))
            slot entry rsA = Some (bA, rsA'))
    (HB : CheckFilters tree
            (TDataFrameFilter j1 f1 bl1 m1 (TDataFrameFilter j2 f2 bl2 m2 pd))
            slot entry rsB = Some (bB, rsB')) :
  bA = bB.
Proof.
  destruct (sem_CheckFilters tree GA HoneA _ HupA _ _ _ _ _ Hentry HokA HA) as [_ HpA].
  destruct (sem_CheckFilters tree GB HoneB _ HupB _ _ _ _ _ Hentry HokB HB) as [_ HpB].
  exact (passes_swap _ _ _ _ _ _ _ _ _ _ _ _ _ _ _ _ _ HpA HpB).
Qed.

(** X21. A temporary branch is transparent to a filter that does not read
    it: the filter gives the same result for an entry below the branch as
    directly below the node the branch was added to. *)
Theorem AddBranch_transparent (tree : TTree) (GA GB : list Node) (pd : Node)
    (name : string) (e : list double → double) (bl' : BranchNames)
    (i j : nat) (f : list double → bool) (bl : BranchNames) (n m : string)
    (slot : nat) (entry : Long64_t) (rsA rsA' rsB rsB' : RunState) (bA bB : bool)
    (Hentry : entry ≠ -1) (Hnot : name ∉ bl)
    (HoneA : one_object GA) (HoneB : one_object GB)
    (HupA : upstream (TDataFrameFilter i f bl n (TDataFrameBranch name e bl' pd)) ⊆ GA)
    (HupB : upstream (TDataFrameFilter j f bl m pd) ⊆ GB)
    (HokA : caches_ok tree GA rsA) (HokB : caches_ok tree GB rsB)
    (HA : CheckFilters tree (TDataFrameFilter i f bl n (TDataFrameBranch name e bl' pd))
            slot entry rsA = Some (bA, rsA'))
    (HB : CheckFilters tree (TDataFrameFilter j f bl m pd) slot entry rsB = Some (bB, rsB')) :
  bA = bB.
Proof.
  destruct (sem_CheckFilters tree GA HoneA _ HupA _ _ _ _ _ Hentry HokA HA) as [_ HpA].
  destruct (sem_CheckFilters tree GB HoneB _ HupB _ _ _ _ _ Hentry HokB HB) as [_ HpB].
  cbn [passes] in HpA, HpB. rewrite (inputs_below_branch _ _ _ _ _ _ _ Hnot) in HpA.
  congruence.
Qed.

Lemma caches_ok_two tree G : caches_ok tree G slots_two.
Proof.
  apply caches_ok_unchecked.
  - intros id fs H. cbn [slots_two filterSlots] in H.
    apply lookup_insert_Some in H as [[_ <-]|[_ H]]; [by repeat constructor|].
    apply lookup_singleton_Some in H as [_ <-]. by repeat constructor.
  - intros name bs H. cbn [slots_two branchSlots] in H.
    apply lookup_singleton_Some in H as [_ <-]. by repeat constructor.
Qed.

Ltac one_object_concrete :=
  split;
  [ intros ? ? ? ? ? ? ? ? ? H1 H2; elem_of_concrete H1; elem_of_concrete H2; congruence
  | intros ? ? ? ? ? ? ? H1 H2; elem_of_concrete H1; elem_of_concrete H2; congruence ].

Lemma filters_commute_witness :
  ∃ b rsA rsB,
    CheckFilters (tree_of [3]%float) gt2_then_gt4 0 0 slots_two = Some (b, rsA)
    ∧ CheckFilters (tree_of [3]%float) gt4_then_gt2 0 0 slots_two = Some (b, rsB).
Proof.
  destruct (CheckFilters (tree_of [3]%float) gt2_then_gt4 0 0 slots_two)
    as [[bA rsA]|] eqn:HA; [|vm_compute in HA; discriminate HA].
  destruct (CheckFilters (tree_of [3]%float) gt4_then_gt2 0 0 slots_two)
    as [[bB rsB]|] eqn:HB; [|vm_compute in HB; discriminate HB].
  exists bA, rsA, rsB. split; [done|].
  rewrite (filters_commute (tree_of [3]%float) (upstream gt2_then_gt4) (upstream gt4_then_gt2)
             TDataFrameImplNode 0 1 1 0 (gt 2%float) (gt 4%float) ["x"] ["x"]
             "gt2" "gt4" "gt2" "gt4" 0 0 slots_two rsA slots_two rsB bA bB); try done.
  - one_object_concrete.
  - one_object_concrete.
  - apply caches_ok_two.
  - apply caches_ok_two.
Defined.

Lemma AddBranch_transparent_witness :
  ∃ b rsA rsB,
    CheckFilters (tree_of [3]%float) gt2_below_y 0 0 slots_two = Some (b, rsA)
    ∧ CheckFilters (tree_of [3]%float) gt2_alone 0 0 slots_two = Some (b, rsB).
Proof.
  destruct (CheckFilters (tree_of [3]%float) gt2_below_y 0 0 slots_two)
    as [[bA rsA]|] eqn:HA; [|vm_compute in HA; discriminate HA].
  destruct (CheckFilters (tree_of [3]%float) gt2_alone 0 0 slots_two)
    as [[bB rsB]|] eqn:HB; [|vm_compute in HB; discriminate HB].
  exists bA, rsA, rsB. split; [done|].
  rewrite (AddBranch_transparent (tree_of [3]%float) (upstream gt2_below_y) (upstream gt2_alone)
             TDataFrameImplNode "y" twice ["x"] 0 0 (gt 2%float) ["x"] "gt2" "gt2"
             0 0 slots_two rsA slots_two rsB bA bB); try done.
  - intros Hin. elem_of_concrete Hin. discriminate Hin.
  - one_object_concrete.
  - one_object_concrete.
  - apply caches_ok_two.
  - apply caches_ok_two.
Defined.

(** ** Expressions are evaluated on passing entries only *)

Lemma passes_upstream tree entry n :
  passes tree n entry = Some true →
  ∀ name e bl pd, TDataFrameBranch name e bl pd ∈ upstream n →
    passes tree pd entry = Some true.
Proof.
  induction n as [|id f bl0 name0 pd0 IH|name0 e0 bl0 pd0 IH]; intros Hp name e bl pd Hin.
  - apply elem_of_cons in Hin as [Hin|Hin]; [discriminate Hin|by apply elem_of_nil in Hin].
  - cbn [upstream] in Hin. apply elem_of_cons in Hin as [Hin|Hin]; [discriminate Hin|].
    cbn [passes] in Hp. destruct (passes tree pd0 entry) as [[]|]; [|discriminate Hp..].
    by apply (IH eq_refl name e bl pd).
  - cbn [upstream] in Hin. cbn [passes] in Hp.
    apply elem_of_cons in Hin as [Hin|Hin].
    + by injection Hin as -> -> -> ->.
    + by apply (IH Hp name e bl pd).
Qed.








(** ** A slot is touched by its own steps only *)













(** ** Asking again *)

Lemma CheckFilters_memoized tree id f bl name pd slot entry rs fs v :
  filterSlots rs !! id = Some fs →
  fLastCheckedEntry fs !! slot = Some entry →
  fLastResult fs !! slot = Some v →
  CheckFilters tree (TDataFrameFilter id f bl name pd) slot entry rs
  = Some (negb (v =? 0), rs).
Proof.
  intros Hfs Hlast Hv. cbn [CheckFilters]. rewrite Hfs. simpl. rewrite Hlast. simpl.
  rewrite decide_False by (intros Hne; by apply Hne). simpl.
  rewrite Hfs. simpl. by rewrite Hv.
Qed.

(** X24. CheckFilters is idempotent: asked again for the same slot and entry
    right after it returned, it returns the same result and changes nothing;
    no predicate is called and no counter moves. *)
Theorem CheckFilters_again (tree : TTree) (n : Node) (slot : nat) (entry : Long64_t)
    (rs : RunState) (b : bool) (rs' : RunState)
    (H : CheckFilters tree n slot entry rs = Some (b, rs')) :
  CheckFilters tree n slot entry rs' = Some (b, rs').
Proof.
  revert rs b rs' H. induction n as [|id f bl name pd IH|name e bl pd IH]; intros rs b rs' H.
  - by injection H as <- <-.
  - apply CheckFilters_filter_inv in H
      as (fs & last & Hfs & Hlast & [(-> & -> & v & Hv & ->)|[Hrej|Hcall]]).
    + by apply CheckFilters_memoized with (fs := fs).
    + destruct Hrej as (_ & -> & rs1 & fs1 & _ & Hfs1 & Hl1 & Hl2 & ->).
      apply (CheckFilters_memoized _ _ _ _ _ _ _ _ _ (filter_checked fs1 slot entry None) 0).
      * cbn [filterSlots]. by rewrite lookup_insert_eq.
      * simpl. by rewrite list_lookup_insert_eq.
      * simpl. by rewrite list_lookup_insert_eq.
    + destruct Hcall as (_ & rs1 & vals & rs2 & fs2 & _ & _ & -> & Hfs2 & Hl1 & Hl2 & _ & ->).
      rewrite (CheckFilters_memoized tree id f bl name pd slot entry _
                 (filter_checked fs2 slot entry (Some (f vals))) (int_of_bool (f vals))).
      * by destruct (f vals).
      * cbn [filterSlots]. by rewrite lookup_insert_eq.
      * simpl. by rewrite list_lookup_insert_eq.
      * simpl. rewrite list_lookup_insert_eq by done. by destruct (f vals).
  - cbn [CheckFilters] in *. by apply (IH rs).
Qed.

Lemma CheckFilters_again_witness :
  ∃ b rs', CheckFilters (tree_of [1; 3]%float) node_F 0 1 slots_y_F = Some (b, rs')
           ∧ CheckFilters (tree_of [1; 3]%float) node_F 0 1 rs' = Some (b, rs').
Proof.
  destruct (CheckFilters (tree_of [1; 3]%float) node_F 0 1 slots_y_F)
    as [[b rs']|] eqn:H; [|vm_compute in H; discriminate H].
  exists b, rs'. split; [done|].
  exact (CheckFilters_again (tree_of [1; 3]%float) node_F 0 1 slots_y_F b rs' H).
Defined.
